(** * music21 [stream.py]: the temporal container engine

    A shallow embedding of [music21/stream.py] (class [Stream] and its
    helpers) and the properties of its specification.

    - Offsets and quarter lengths are Python floats in the source; they are
      modelled as rationals ([Q]); [float(x)] is the identity and rounding
      is not modelled.
    - Python objects live in a store ([Heap]): every object has an identity
      (a [nat]), every Python list has an identity of its own, so that two
      containers can hold the same list object, as [copy.copy] makes them.
    - A method becomes a function in the state-and-exception monad [M].
      A raised exception ends the run. *)

From Stdlib Require Import QArith Qabs ZArith List Lia Lqa Bool.
From Stdlib Require Import Sorting.Permutation Sorting.Sorted.
From stdpp Require Import base gmap list sorting.

Local Open Scope Q_scope.

(** ** Times *)

Definition Qlt_bool (a b : Q) : bool := negb (Qle_bool b a).

(** ** Classes

    The classes [isinstance] and [isClass] are asked about in [stream.py].
    The first six are the entries of [CLASS_SORT_ORDER]. *)

Inductive ClassName : Type :=
| C_Clef | C_TempoMark | C_KeySignature | C_TimeSignature | C_Dynamic
| C_GeneralNote
| C_Note | C_Unpitched | C_Rest | C_Chord
| C_Music21Object
| C_Stream | C_Measure | C_Voice | C_Part | C_Staff | C_Performer
| C_System | C_Page | C_Score.

Definition ClassName_eqb (a b : ClassName) : bool :=
  match a, b with
  | C_Clef, C_Clef | C_TempoMark, C_TempoMark
  | C_KeySignature, C_KeySignature | C_TimeSignature, C_TimeSignature
  | C_Dynamic, C_Dynamic | C_GeneralNote, C_GeneralNote
  | C_Note, C_Note | C_Unpitched, C_Unpitched | C_Rest, C_Rest
  | C_Chord, C_Chord | C_Music21Object, C_Music21Object
  | C_Stream, C_Stream | C_Measure, C_Measure | C_Voice, C_Voice
  | C_Part, C_Part | C_Staff, C_Staff | C_Performer, C_Performer
  | C_System, C_System | C_Page, C_Page | C_Score, C_Score => true
  | _, _ => false
  end.

(** [class Measure(Stream)], [class Voice(Stream)], ... , [class Score(Stream)]. *)
Definition isStreamClass (c : ClassName) : bool :=
  match c with
  | C_Stream | C_Measure | C_Voice | C_Part | C_Staff | C_Performer
  | C_System | C_Page | C_Score => true
  | _ => false
  end.

Definition isGeneralNoteClass (c : ClassName) : bool :=
  match c with
  | C_GeneralNote | C_Note | C_Unpitched | C_Rest | C_Chord => true
  | _ => false
  end.

(** [isinstance(obj, filter)] for an object of class [c]. *)
Definition isinstance (c filter : ClassName) : bool :=
  match filter with
  | C_Music21Object => true
  | C_Stream => isStreamClass c
  | C_GeneralNote => isGeneralNoteClass c
  | _ => ClassName_eqb c filter
  end.

(** ** The object store *)

(** [self._cache = common.defHash()]: a dictionary that answers [None] for
    a missing key.  The keys [stream.py] uses are fields; a cached
    [Duration] object is represented by its [quarterLength]. *)
Record Cache : Type := mkCache {
  HighestTime : option Q;
  HighestOffset : option Q;
  LowestOffset : option Q;
  CachedDuration : option Q
}.

Definition defHash : Cache := mkCache None None None None.

(** The attributes [Stream.__init__] sets.  [_elements] is the identity of
    a list object in the store. *)
Record StreamAttrs : Type := mkStreamAttrs {
  _elements : nat;
  _unlinkedDuration : option Q;
  isSorted : bool;
  isFlat : bool;
  flattenedRepresentationOf : option nat;
  _cache : Cache
}.

(** What distinguishes a container from any other timed object: a
    container has the attribute [elements]; any other object has a
    [duration] that is [None] or has a [quarterLength]. *)
Inductive Body : Type :=
| Plain (duration : option Q)
| Container (s : StreamAttrs).

(** Modelled from the spec: the base class [Music21Object] is not in the
    source tree.  An object has a class, a priority, its sites
    ([locations]: a map from a container's identity, or [None] for the
    distinguished "no container" site, to the offset held there) and its
    current parent. *)
Record Obj : Type := mkObj {
  classOf : ClassName;
  priority : Z;
  locations : gmap (option nat) Q;
  parent : option nat;
  body : Body
}.

Record Heap : Type := mkHeap {
  objs : gmap nat Obj;
  lists : gmap nat (list nat);
  next : nat
}.

Definition emptyHeap : Heap := mkHeap ∅ ∅ 0.

(** ** The monad *)

Inductive Exc : Type :=
| KeyError | ValueError | IndexError | AttributeError | StreamException
| RecursionLimit.

Inductive Res (A : Type) : Type :=
| Ok (a : A) (h : Heap)
| Raise (e : Exc).
Arguments Ok {A} a h.
Arguments Raise {A} e.

Definition M (A : Type) : Type := Heap -> Res A.

Definition raise {A} (e : Exc) : M A := fun _ => Raise e.

#[global] Instance M_ret : MRet M := fun A a h => Ok a h.
#[global] Instance M_bind : MBind M := fun A B k m h =>
  match m h with
  | Ok a h' => k a h'
  | Raise e => Raise e
  end.

Definition ret {A} (a : A) : M A := mret a.

Definition getHeap : M Heap := fun h => Ok h h.
Definition putHeap (h : Heap) : M unit := fun _ => Ok tt h.

(** [for x in l: body], over a snapshot of the list. *)
Fixpoint forEach {A} (l : list A) (body : A -> M unit) : M unit :=
  match l with
  | [] => ret tt
  | x :: l' => body x;; forEach l' body
  end.

Fixpoint foldM {A S} (l : list A) (acc : S) (body : S -> A -> M S) : M S :=
  match l with
  | [] => ret acc
  | x :: l' => acc' ← body acc x; foldM l' acc' body
  end.

(** *** Objects and lists in the store *)

Definition getObj (x : nat) : M Obj :=
  fun h => match objs h !! x with
           | Some o => Ok o h
           | None => Raise AttributeError
           end.

Definition putObj (x : nat) (o : Obj) : M unit :=
  fun h => Ok tt (mkHeap (<[x := o]> (objs h)) (lists h) (next h)).

Definition getList (l : nat) : M (list nat) :=
  fun h => match lists h !! l with
           | Some v => Ok v h
           | None => Raise AttributeError
           end.

Definition putList (l : nat) (v : list nat) : M unit :=
  fun h => Ok tt (mkHeap (objs h) (<[l := v]> (lists h)) (next h)).

Definition fresh : M nat :=
  fun h => Ok (next h) (mkHeap (objs h) (lists h) (S (next h))).

(** [[]]: a new list object. *)
Definition newList (v : list nat) : M nat :=
  l ← fresh; putList l v;; ret l.

Definition getStream (self : nat) : M StreamAttrs :=
  o ← getObj self;
  match body o with
  | Container s => ret s
  | Plain _ => raise AttributeError
  end.

Definition putStream (self : nat) (s : StreamAttrs) : M unit :=
  o ← getObj self;
  putObj self (mkObj (classOf o) (priority o) (locations o) (parent o)
                     (Container s)).

(** [hasattr(x, "elements")] *)
Definition hasElements (o : Obj) : bool :=
  match body o with Container _ => true | Plain _ => false end.

(** *** Sites *)

(** Modelled from the spec: [element.locations.add(offset, site)] registers
    the site, replacing the offset of a site already registered. *)
Definition locations_add (x : nat) (offset : Q) (site : option nat) : M unit :=
  o ← getObj x;
  putObj x (mkObj (classOf o) (priority o)
                  (<[site := offset]> (locations o)) (parent o) (body o)).

(** Modelled from the spec: [getOffsetBySite] fails with a lookup error if
    no such site exists. *)
Definition getOffsetBySite (x : nat) (site : option nat) : M Q :=
  o ← getObj x;
  match locations o !! site with
  | Some q => ret q
  | None => raise KeyError
  end.

(** [x.parent = site] *)
Definition setParent (x : nat) (site : option nat) : M unit :=
  o ← getObj x;
  putObj x (mkObj (classOf o) (priority o) (locations o) site (body o)).

(** Modelled from the spec: [x.offset], the offset of [x] relative to its
    immediate container (its current parent; the "no container" site when
    it has none). *)
Definition getOffset (x : nat) : M Q :=
  o ← getObj x;
  getOffsetBySite x (parent o).

(** *** Constructors *)

(** [Stream()], or a subclass of it: [Stream.__init__]. *)
Definition newStream (c : ClassName) : M nat :=
  l ← newList [];
  x ← fresh;
  putObj x (mkObj c 0%Z (<[None := 0]> ∅) None
                  (Container (mkStreamAttrs l None true true None defHash)));;
  ret x.

(** An object that is not a container, of class [c], with the given
    duration ([None]: no duration) and priority, and native offset 0. *)
Definition newObject (c : ClassName) (d : option Q) (p : Z) : M nat :=
  x ← fresh;
  putObj x (mkObj c p (<[None := 0]> ∅) None (Plain d));;
  ret x.

(** [copy.copy(x)]: a new object with the same attribute values; a copied
    container refers to the same list object.  (The copy also shares the
    [_cache] dictionary; every use in [stream.py] rebinds the copy's
    [_cache] through [_elementsChanged] before reading or writing it, so
    the cache is held by value.) *)
Definition copy_copy (x : nat) : M nat :=
  o ← getObj x;
  y ← fresh;
  putObj y o;;
  ret y.

(** ** Class [Stream] *)

Definition set_elements (v : nat) (s : StreamAttrs) : StreamAttrs :=
  mkStreamAttrs v (_unlinkedDuration s) (isSorted s) (isFlat s)
                (flattenedRepresentationOf s) (_cache s).
Definition set_isSorted (b : bool) (s : StreamAttrs) : StreamAttrs :=
  mkStreamAttrs (_elements s) (_unlinkedDuration s) b (isFlat s)
                (flattenedRepresentationOf s) (_cache s).
Definition set_isFlat (b : bool) (s : StreamAttrs) : StreamAttrs :=
  mkStreamAttrs (_elements s) (_unlinkedDuration s) (isSorted s) b
                (flattenedRepresentationOf s) (_cache s).
Definition set_flattenedRepresentationOf (r : option nat) (s : StreamAttrs)
  : StreamAttrs :=
  mkStreamAttrs (_elements s) (_unlinkedDuration s) (isSorted s) (isFlat s)
                r (_cache s).
Definition set_cache (c : Cache) (s : StreamAttrs) : StreamAttrs :=
  mkStreamAttrs (_elements s) (_unlinkedDuration s) (isSorted s) (isFlat s)
                (flattenedRepresentationOf s) c.

Definition set_HighestTime (v : option Q) (c : Cache) : Cache :=
  mkCache v (HighestOffset c) (LowestOffset c) (CachedDuration c).
Definition set_CachedDuration (v : option Q) (c : Cache) : Cache :=
  mkCache (HighestTime c) (HighestOffset c) (LowestOffset c) v.

(** [self.<attribute> = value] on a container *)
Definition modifyStream (self : nat) (f : StreamAttrs -> StreamAttrs) : M unit :=
  s ← getStream self;
  putStream self (f s).

(** [self._elements.append(x)]: in place, on the list object. *)
Definition list_append (l : nat) (x : nat) : M unit :=
  v ← getList l;
  putList l (v ++ [x]).

(** The loop of [_elementsChanged]: is no element an instance of [Stream]? *)
Fixpoint noneIsStream (l : list nat) : M bool :=
  match l with
  | [] => ret true
  | x :: l' =>
      o ← getObj x;
      if isinstance (classOf o) C_Stream then ret false
      else noneIsStream l'
  end.

Definition _elementsChanged (self : nat) : M unit :=
  s ← getStream self;
  l ← getList (_elements s);
  f ← noneIsStream l;
  putStream self (set_cache defHash (set_isFlat f (set_isSorted false s))).

(** [self.elements] (the property's getter): the list object itself. *)
Definition _getElements (self : nat) : M nat :=
  s ← getStream self;
  ret (_elements s).

(** [self.elements = value] (the property's setter) *)
Definition _setElements (self : nat) (value : nat) : M unit :=
  modifyStream self (set_elements value);;
  _elementsChanged self.

(** The content of [self.elements]. *)
Definition elementsOf (self : nat) : M (list nat) :=
  l ← _getElements self;
  getList l.

(** [for x in self: body]: [StreamIterator.next] sets the parent of the
    element it yields to the iterated container.  The bodies in this file
    do not change the iterated list, so the loop runs over its content at
    the start. *)
Definition forEachIn (self : nat) (body : nat -> M unit) : M unit :=
  l ← elementsOf self;
  forEach l (fun x => setParent x (Some self);; body x).

Definition foldIn {S} (self : nat) (acc : S) (body : S -> nat -> M S) : M S :=
  l ← elementsOf self;
  foldM l acc (fun a x => setParent x (Some self);; body a x).

(** [max is None or v > max] *)
Definition updMax (m : option Q) (v : Q) : option Q :=
  match m with
  | None => Some v
  | Some m' => if Qlt_bool m' v then Some v else Some m'
  end.

Definition updMin (m : option Q) (v : Q) : option Q :=
  match m with
  | None => Some v
  | Some m' => if Qlt_bool v m' then Some v else Some m'
  end.

(** The quarter length of [x.duration], [None] when [x.duration] is [None]
    (the tests [hasattr(x, "duration") and hasattr(x.duration,
    "quarterLength")] then fail).  For a container [x.duration] is the
    property [_getDuration], which needs the container's [highestTime]:
    [highestTimeOf]. *)
Definition quarterLengthOf (highestTimeOf : nat -> M Q) (x : nat)
  : M (option Q) :=
  o ← getObj x;
  match body o with
  | Plain d => ret d
  | Container s =>
      match _unlinkedDuration s with
      | Some d => ret (Some d)
      | None =>
          match CachedDuration (_cache s) with
          | Some d => ret (Some d)
          | None =>
              t ← highestTimeOf x;
              modifyStream x (fun s' =>
                set_cache (set_CachedDuration (Some t) (_cache s')) s');;
              ret (Some t)
          end
      end
  end.

(** [offset + duration.quarterLength], or [offset] *)
Definition endTime (offset : Q) (d : option Q) : Q :=
  match d with
  | Some q => offset + q
  | None => offset
  end.

Definition lastOf (l : list nat) : M nat :=
  match last l with
  | Some x => ret x
  | None => raise IndexError
  end.

(** [_getHighestTime]; [fuel] bounds the depth of nested containers the
    computation may enter. *)
Fixpoint _getHighestTime (fuel : nat) (self : nat) : M Q :=
  match fuel with
  | O => raise RecursionLimit
  | S fuel' =>
      s ← getStream self;
      match HighestTime (_cache s) with
      | Some t => ret t
      | None =>
          l ← getList (_elements s);
          t ← (if (length l =? 0)%nat then ret 0
               else if isSorted s then
                 lastEl ← lastOf l;
                 d ← quarterLengthOf (_getHighestTime fuel') lastEl;
                 o ← getOffsetBySite lastEl (Some self);
                 ret (endTime o d)
               else
                 m ← foldIn self None (fun max thisElement =>
                        d ← quarterLengthOf (_getHighestTime fuel') thisElement;
                        o ← getOffsetBySite thisElement (Some self);
                        ret (updMax max (endTime o d)));
                 match m with
                 | Some t => ret t
                 | None => raise ValueError
                 end);
          modifyStream self (fun s' =>
            set_cache (set_HighestTime (Some t) (_cache s')) s');;
          ret t
      end
  end.

(** [x.duration.quarterLength] when the duration has one *)
Definition durationOf (fuel : nat) (x : nat) : M (option Q) :=
  quarterLengthOf (_getHighestTime fuel) x.


(** [insert(offset, item)], the two-argument form, for an item that is a
    [Music21Object]. *)
Definition insert (fuel : nat) (self : nat) (offset : Q) (item : nat) : M unit :=
  let element := item in
  locations_add element offset (Some self);;
  setParent element (Some self);;
  s ← getStream self;
  storeSorted ← (if isSorted s then
                   t ← _getHighestTime fuel self;
                   ret (Qle_bool t offset)
                 else ret false);
  l ← _getElements self;
  list_append l element;;
  _elementsChanged self;;
  modifyStream self (set_isSorted storeSorted).

(** [insert(item)]: at the item's own offset *)
Definition insertItem (fuel : nat) (self : nat) (item : nat) : M unit :=
  offset ← getOffset item;
  insert fuel self offset item.

(** [insert([offset1, item1, offset2, item2, ...])] *)
Definition insertList (fuel : nat) (self : nat) (l : list (Q * nat)) : M unit :=
  forEach l (fun p => insert fuel self (fst p) (snd p)).

(** [append(others)] for a list of [Music21Object]s *)
Definition append (fuel : nat) (self : nat) (others : list nat) : M unit :=
  highestTime ← _getHighestTime fuel self;
  l ← _getElements self;
  _ ← foldM others highestTime (fun highestTime element =>
         locations_add element highestTime (Some self);;
         setParent element (Some self);;
         list_append l element;;
         d ← durationOf fuel element;
         ret (endTime highestTime d));
  s ← getStream self;
  let storeSorted := isSorted s in
  _elementsChanged self;;
  modifyStream self (set_isSorted storeSorted).

(** *** Sorting *)

(** Python's [cmp] on numbers *)
Definition cmpQ (a b : Q) : Z :=
  if Qlt_bool a b then (-1)%Z else if Qlt_bool b a then 1%Z else 0%Z.
Definition cmpZ (a b : Z) : Z :=
  if (a <? b)%Z then (-1)%Z else if (b <? a)%Z then 1%Z else 0%Z.

(** [a or b] on integers *)
Definition orZ (a b : Z) : Z := if (a =? 0)%Z then b else a.

(** What the comparator of [_getSorted] reads of an element:
    [x.getOffsetBySite(self)] and [x.priority]. *)
Definition Keyed : Type := (Q * Z * nat)%type.

(** [lambda x,y: cmp(x.getOffsetBySite(self), y.getOffsetBySite(self)) or
    cmp(x.priority, y.priority)] *)
Definition sortedCmp (x y : Keyed) : Z :=
  orZ (cmpQ (fst (fst x)) (fst (fst y))) (cmpZ (snd (fst x)) (snd (fst y))).

(** [list.sort(cmp=f)]: Python's sort is stable; it is modelled by the
    stable insertion sort.  [x] is placed before the first element that is
    not smaller than it. *)
Fixpoint sortInsert {A} (cmp : A -> A -> Z) (x : A) (l : list A) : list A :=
  match l with
  | [] => [x]
  | y :: l' => if (cmp y x <? 0)%Z then y :: sortInsert cmp x l'
               else x :: y :: l'
  end.

Fixpoint list_sort {A} (cmp : A -> A -> Z) (l : list A) : list A :=
  match l with
  | [] => []
  | x :: l' => sortInsert cmp x (list_sort cmp l')
  end.

Definition keyOf (self : nat) (x : nat) : M Keyed :=
  off ← getOffsetBySite x (Some self);
  o ← getObj x;
  ret (off, priority o, x).

(** [_getSorted] *)
Definition _getSorted (self : nat) : M nat :=
  post ← _getElements self;
  v ← getList post;
  keyed ← mapM (keyOf self) v;
  putList post (map snd (list_sort sortedCmp keyed));;
  newStream ← copy_copy self;
  _setElements newStream post;;
  v' ← getList post;
  forEach v' (fun thisElement =>
    off ← getOffsetBySite thisElement (Some self);
    locations_add thisElement off (Some newStream);;
    setParent thisElement (Some newStream));;
  modifyStream newStream (set_isSorted true);;
  ret newStream.

(** *** Flattening *)

(** [_getFlatOrSemiFlat]; [fuel] bounds the depth of nested containers. *)
Fixpoint _getFlatOrSemiFlat (fuel : nat) (self : nat) (retainContainers : bool)
  : M nat :=
  match fuel with
  | O => raise RecursionLimit
  | S fuel' =>
      newStream ← copy_copy self;
      l ← newList [];
      modifyStream newStream (set_elements l);;
      _elementsChanged newStream;;
      v ← elementsOf self;
      forEach v (fun myEl =>
        o ← getObj myEl;
        if hasElements o then
          recurseStream ←
            (if retainContainers then
               newOffset ← getOffsetBySite myEl (Some self);
               insert fuel' newStream newOffset myEl;;
               _getFlatOrSemiFlat fuel' myEl true
             else _getFlatOrSemiFlat fuel' myEl false);
          recurseStreamOffset ← getOffsetBySite myEl (Some self);
          forEachIn recurseStream (fun subEl =>
            oldOffset ← getOffsetBySite subEl (Some recurseStream);
            let newOffset := oldOffset + recurseStreamOffset in
            insert fuel' newStream newOffset subEl)
        else
          off ← getOffsetBySite myEl (Some self);
          insert fuel' newStream off myEl);;
      modifyStream newStream (set_isFlat true);;
      modifyStream newStream (set_flattenedRepresentationOf (Some self));;
      ret newStream
  end.

Definition _getFlat (fuel : nat) (self : nat) : M nat :=
  _getFlatOrSemiFlat fuel self false.

Definition _getSemiFlat (fuel : nat) (self : nat) : M nat :=
  _getFlatOrSemiFlat fuel self true.

(** ** Reading a state *)

(** The content of a container's element list in a heap. *)
Definition elementsIn (h : Heap) (self : nat) : option (list nat) :=
  o ← objs h !! self;
  match body o with
  | Container s => lists h !! _elements s
  | Plain _ => None
  end.

Definition streamIn (h : Heap) (self : nat) : option StreamAttrs :=
  o ← objs h !! self;
  match body o with
  | Container s => Some s
  | Plain _ => None
  end.

Definition offsetIn (h : Heap) (self : nat) (x : nat) : option Q :=
  o ← objs h !! x;
  locations o !! Some self.

(** The (offset, element) pairs of a container, in the order of its list. *)
Definition pairsIn (h : Heap) (self : nat) : option (list (Q * nat)) :=
  l ← elementsIn h self;
  mapM (fun x => q ← offsetIn h self x; Some (q, x)) l.

(** ** Reading the result of a run *)

Definition valueOf {A} (r : Res A) : option A :=
  match r with
  | Ok a _ => Some a
  | Raise _ => None
  end.

Definition heapOf {A} (r : Res A) : option Heap :=
  match r with
  | Ok _ h => Some h
  | Raise _ => None
  end.

(** [self.isSorted] in a heap *)
Definition isSortedIn (h : Heap) (self : nat) : option bool :=
  isSorted <$> streamIn h self.

(** The identity of the list object [self._elements] in a heap *)
Definition listIdIn (h : Heap) (self : nat) : option nat :=
  _elements <$> streamIn h self.

(** [self._cache] in a heap *)
Definition cacheIn (h : Heap) (self : nat) : option Cache :=
  _cache <$> streamIn h self.

(** The duration of an element that is not a container *)
Definition plainDurationIn (h : Heap) (x : nat) : option (option Q) :=
  o ← objs h !! x;
  match body o with
  | Plain d => Some d
  | Container _ => None
  end.

(** The (offset, duration) pairs of a container of plain elements. *)
Definition spansIn (h : Heap) (self : nat) : option (list (Q * option Q)) :=
  l ← elementsIn h self;
  mapM (fun x => q ← offsetIn h self x; d ← plainDurationIn h x; Some (q, d)) l.

(** The spec's words: the maximum over the elements of offset plus
    duration, an undefined duration counting as 0; 0 for no element. *)
Definition Qmax (a b : Q) : Q := if Qle_bool a b then b else a.

Definition maxEndTime (l : list (Q * option Q)) : Q :=
  match l with
  | [] => 0
  | p :: l' =>
      fold_right (fun q m => Qmax (endTime (fst q) (snd q)) m)
                 (endTime (fst p) (snd p)) l'
  end.

(** [s = Stream()], then [s.insert(offset, Note of that quarterLength)]
    for each pair, in the order of the list. *)
Definition streamOfNotes (l : list (Q * Q)) : M nat :=
  s ← newStream C_Stream;
  forEach l (fun p =>
    n ← newObject C_Note (Some (snd p)) 0%Z;
    insert 1 s (fst p) n);;
  ret s.

(** Objects made first, of the given classes and priorities (duration 1),
    then inserted into a new [Stream] at the given offsets in the given
    order; the result is the element list of [s.sorted], each element named
    by its index in [objects]. *)
Definition sortedOrderOf (objects : list (ClassName * Z))
           (insertions : list (Q * nat)) : M (list nat) :=
  ids ← mapM (fun cp => newObject (fst cp) (Some 1) (snd cp)) objects;
  s ← newStream C_Stream;
  forEach insertions (fun p =>
    match ids !! snd p with
    | Some x => insert 1 s (fst p) x
    | None => raise IndexError
    end);;
  y ← _getSorted s;
  v ← elementsOf y;
  ret (omap (fun x => fst <$> list_find (fun i => i = x) ids) v).

(** ** The order [sorted] produces *)

Definition keyOffset (k : Keyed) : Q := fst (fst k).
Definition keyPriority (k : Keyed) : Z := snd (fst k).
Definition keyElement (k : Keyed) : nat := snd k.

(** What [keyOf] reads, in a heap. *)
Definition keyIn (h : Heap) (self : nat) (x : nat) : option Keyed :=
  o ← objs h !! x;
  q ← locations o !! Some self;
  Some (q, priority o, x).

(** The keys of the elements of a container, in the order of its list. *)
Definition keysIn (h : Heap) (self : nat) : option (list Keyed) :=
  l ← elementsIn h self;
  mapM (keyIn h self) l.

(** Each key with its position in the element list. *)
Definition withPosition (l : list Keyed) : list (Keyed * nat) :=
  imap (fun i k => (k, i)) l.

(** The strict order by offset, then explicit priority, then position. *)
Definition canonicalLt (a b : Keyed * nat) : Prop :=
  keyOffset (fst a) < keyOffset (fst b) \/
  (keyOffset (fst a) == keyOffset (fst b) /\
   ((keyPriority (fst a) < keyPriority (fst b))%Z \/
    (keyPriority (fst a) = keyPriority (fst b) /\ (snd a < snd b)%nat))).

(** The order by offset, then explicit priority. *)
Definition keyLe (a b : Keyed) : Prop :=
  keyOffset a < keyOffset b \/
  (keyOffset a == keyOffset b /\ (keyPriority a <= keyPriority b)%Z).

(** No two keys of the list have both the same offset and the same
    priority, unless they are the same key. *)
Definition noTies (l : list Keyed) : Prop :=
  forall a b, a ∈ l -> b ∈ l ->
    keyOffset a == keyOffset b -> keyPriority a = keyPriority b -> a = b.

(** Existing identities are below the allocation counter. *)
Definition wfHeap (h : Heap) : Prop :=
  (forall x, is_Some (objs h !! x) -> (x < next h)%nat) /\
  (forall l, is_Some (lists h !! l) -> (l < next h)%nat).

(** ** Relations between two states *)

(** Two bodies that differ at most in the cache of a container. *)
Definition sameButCache (b b' : Body) : Prop :=
  match b, b' with
  | Plain d, Plain d' => d = d'
  | Container s, Container s' =>
      _elements s' = _elements s /\
      _unlinkedDuration s' = _unlinkedDuration s /\
      isSorted s' = isSorted s /\
      isFlat s' = isFlat s /\
      flattenedRepresentationOf s' = flattenedRepresentationOf s
  | _, _ => False
  end.

(** What the getters of the cached aggregates may change: caches, and the
    parent an iteration assigns. *)
Definition cacheOnly (h h' : Heap) : Prop :=
  lists h' = lists h /\ next h' = next h /\
  forall x,
    match objs h !! x, objs h' !! x with
    | Some o, Some o' =>
        classOf o' = classOf o /\ priority o' = priority o /\
        locations o' = locations o /\ sameButCache (body o) (body o')
    | None, None => True
    | _, _ => False
    end.


(** The offsets of the elements of a container, in the order of its list. *)
Definition offsetsIn (h : Heap) (self : nat) : option (list Q) :=
  match pairsIn h self with
  | Some l => Some (map fst l)
  | None => None
  end.

(** ** Runs that return *)

(** [m] returns from [h], with a value and a final state that satisfy
    [post]. *)
Definition returns {A} (m : M A) (post : A -> Heap -> Prop) (h : Heap) : Prop :=
  exists a h', m h = Ok a h' /\ post a h'.

(** A container that holds a note at offset 0 and, at offset 4, a container
    that holds two notes at its offsets 0 and 1. *)
Definition nestedStream : M nat :=
  s ← newStream C_Stream;
  n ← newObject C_Note (Some 1) 0%Z;
  insert 1 s 0 n;;
  inner ← streamOfNotes [(0, 1); (1, 1)];
  insert 2 s 4 inner;;
  ret s.

(** ** Overlaps and simultaneities *)

(** A span: start and end. *)
Definition DurSpan : Type := (Q * Q)%type.

(** Python orders lists and tuples lexicographically. *)
Definition cmpSpan (a b : DurSpan) : Z :=
  orZ (cmpQ (fst a) (fst b)) (cmpQ (snd a) (snd b)).

(** [_durSpanOverlap] *)
Definition _durSpanOverlap (a b : DurSpan) (includeCoincidentBoundaries : bool)
  : bool :=
  let durSpans := list_sort cmpSpan [a; b] in
  match durSpans with
  | [first; second] =>
      if includeCoincidentBoundaries
      then Qle_bool (fst second) (snd first)
      else Qlt_bool (fst second) (snd first)
  | _ => false
  end.

(** [self[key]] for an integer key: [__getitem__] sets the parent of the
    element it returns. *)
Definition getitem (self : nat) (key : nat) : M nat :=
  l ← elementsOf self;
  match l !! key with
  | Some returnEl => setParent returnEl (Some self);; ret returnEl
  | None => raise IndexError
  end.

(** [_getDurSpan] *)
Definition _getDurSpan (fuel : nat) (flatStream : nat) : M (list DurSpan) :=
  l ← elementsOf flatStream;
  mapM (fun i =>
          element ← getitem flatStream i;
          d ← durationOf fuel element;
          off ← getOffset element;
          ret (off, endTime off d))
       (seq 0 (length l)).

(** The inner loop of [_findLayering] for the element of index [i] and
    span [src]: the indices it is simultaneous with, and the indices it
    overlaps. *)
Definition layeringRow (durSpanSorted : list DurSpan)
           (includeCoincidentBoundaries : bool) (i : nat) (src : DurSpan)
  : list nat * list nat :=
  fold_left
    (fun maps jd =>
       let j := fst jd in
       let dst := snd jd in
       if (j =? i)%nat then maps
       else
         (if Qeq_bool (fst src) (fst dst) then fst maps ++ [j] else fst maps,
          if _durSpanOverlap src dst includeCoincidentBoundaries
          then snd maps ++ [j] else snd maps))
    (imap (fun j dst => (j, dst)) durSpanSorted)
    ([], []).

(** The loops of [_findLayering] over the spans; [durationless] tells,
    for each index, whether [flatStream[i].duration == None]. *)
Definition layeringOf (durSpanSorted : list DurSpan) (durationless : list bool)
           (includeDurationless includeCoincidentBoundaries : bool)
  : list (list nat) * list (list nat) :=
  let rows :=
    imap (fun i src =>
            if negb includeDurationless && default false (durationless !! i)
            then ([], [])
            else layeringRow durSpanSorted includeCoincidentBoundaries i src)
         durSpanSorted in
  (map fst rows, map snd rows).

(** [_findLayering] *)
Definition _findLayering (fuel : nat) (flatStream : nat)
           (includeDurationless includeCoincidentBoundaries : bool)
  : M (list (list nat) * list (list nat)) :=
  flatStream ← _getSorted flatStream;
  durSpanSorted ← _getDurSpan fuel flatStream;
  durationless ←
    (if negb includeDurationless then
       mapM (fun i =>
               element ← getitem flatStream i;
               d ← durationOf fuel element;
               ret (match d with None => true | Some _ => false end))
            (seq 0 (length durSpanSorted))
     else ret []);
  ret (layeringOf durSpanSorted durationless
                  includeDurationless includeCoincidentBoundaries).

(** [isSequence], after [elementsSorted = self.flat.sorted]. *)
Definition isSequence (fuel : nat) (self : nat)
           (includeDurationless includeCoincidentBoundaries : bool) : M bool :=
  f ← _getFlat fuel self;
  elementsSorted ← _getSorted f;
  maps ← _findLayering fuel elementsSorted
           includeDurationless includeCoincidentBoundaries;
  ret (forallb (fun indexList => (length indexList =? 0)%nat) (snd maps)).

(** The spec's words for two spans: [max(starts) < min(ends)]. *)
Definition Qmin (a b : Q) : Q := if Qle_bool a b then a else b.

Definition spansIntersect (a b : DurSpan) : Prop :=
  Qmax (fst a) (fst b) < Qmin (snd a) (snd b).

(** A degenerate span [p] that lies strictly inside the span [s]. *)
Definition pointInside (p s : DurSpan) : Prop :=
  fst p == snd p /\ fst s < fst p /\ fst p < snd s.

(** A container of objects given by class and duration, each inserted at
    its offset; then [_findLayering] on it. *)
Definition layeringOfObjects (l : list (ClassName * option Q * Q))
           (includeDurationless includeCoincidentBoundaries : bool)
  : M (list (list nat) * list (list nat)) :=
  s ← newStream C_Stream;
  forEach l (fun p =>
    n ← newObject (fst (fst p)) (snd (fst p)) 0%Z;
    insert 1 s (snd p) n);;
  _findLayering 1 s includeDurationless includeCoincidentBoundaries.

(** ** What an operation keeps *)

(** [o'] has the sites of [o] at the containers that satisfy [PO] and at
    the "no container" site. *)
Definition keepsSites (PO : nat -> Prop) (o o' : Obj) : Prop :=
  forall site,
    match site with None => True | Some c => PO c end ->
    locations o' !! site = locations o !! site.

(** The objects that satisfy [PO] and the lists that satisfy [PL] are kept:
    a list keeps its content; an object keeps its class, priority, body up
    to the cache, and its sites at the objects that satisfy [PO]. *)
Definition framed (PO PL : nat -> Prop) (h h' : Heap) : Prop :=
  (forall l, PL l -> lists h' !! l = lists h !! l) /\
  (forall x, PO x ->
     match objs h !! x, objs h' !! x with
     | Some o, Some o' =>
         classOf o' = classOf o /\ priority o' = priority o /\
         sameButCache (body o) (body o') /\ keepsSites PO o o'
     | None, None => True
     | _, _ => False
     end).

Definition below (n : nat) : nat -> Prop := fun i => (i < n)%nat.
Definition isNot (n : nat) : nat -> Prop := fun i => i <> n.

(** [x] is not a container and has a site for [site]. *)
Definition plainAt (h : Heap) (site x : nat) : Prop :=
  exists o, objs h !! x = Some o /\ hasElements o = false /\
            is_Some (locations o !! Some site).

(** What [flat] returns: a container not marked sorted whose elements are
    not containers and have a site for it. *)
Definition flatResult (h : Heap) (f : nat) : Prop :=
  exists s v, streamIn h f = Some s /\ isSorted s = false /\
              lists h !! _elements s = Some v /\
              forall x, x ∈ v -> plainAt h f x.

(** The container [N], with list [lN], under construction by [flat]: not
    marked sorted, and what it has collected so far are elements that are
    not containers, each with a site for [N]. *)
Definition collecting (h : Heap) (N lN : nat) (vN : list nat) : Prop :=
  exists oN sN, objs h !! N = Some oN /\ body oN = Container sN /\
                _elements sN = lN /\ isSorted sN = false /\
                lists h !! lN = Some vN /\
                forall x, x ∈ vN -> plainAt h N x.

(** ** What [insert] reads *)




(** [s.insert(0, x); s.insert(5, x)] for a note [x] of quarter length 1:
    the value of [highestTime] between the two calls (read on a copy of
    the state, so that the cache of [s] stays empty), and the flag
    [isSorted] before and after the second call. *)
Definition reinsertLast : M (Q * bool * bool) :=
  s ← newStream C_Stream;
  x ← newObject C_Note (Some 1) 0%Z;
  insert 1 s 0 x;;
  before ← getStream s;
  h ← getHeap;
  highestTime ← _getHighestTime 1 s;
  putHeap h;;
  insert 1 s 5 x;;
  after ← getStream s;
  ret (highestTime, isSorted before, isSorted after).

(** * Measures and ties

    [makeMeasures] reads its source and builds new objects only: copies of
    the elements, new measures, a new stream that holds them; [makeTies]
    changes the measures it is given.  What they compute is described on
    values: the elements of a stream are a list of (offset, element) pairs
    in the order of the element list, an element is a record of the
    attributes the two methods read, and a stream of measures is a list of
    (offset, measure) pairs.  What the values leave out: the parent of an
    object, the caches, and the flags [isSorted] and [isFlat] of the
    measures (the methods modelled here do not read them).  An object is
    named by its position in the element list that holds it. *)

Module Bars.

(** ** Results *)

Inductive Try (A : Type) : Type :=
| Done (a : A)
| Failed (e : Exc).
Arguments Done {A} a.
Arguments Failed {A} e.

#[global] Instance Try_ret : MRet Try := fun A a => Done a.
#[global] Instance Try_bind : MBind Try :=
  fun A B f m => match m with
                 | Done a => f a
                 | Failed e => Failed e
                 end.

(** ** Elements *)

(** Modelled from the spec: [meter.TimeSignature] is not in the source
    tree; a meter is its numerator and denominator. *)
Record TimeSignature : Type := mkTimeSignature {
  numerator : Z;
  denominator : Z
}.

(** Modelled from the spec: [ts.barDuration.quarterLength], the bar
    duration of the meter in quarter lengths (4 for 4/4, 3 for 3/4 and for
    6/8), kept in lowest terms. *)
Definition barDuration (ts : TimeSignature) : Q :=
  Qred (inject_Z (4 * numerator ts) / inject_Z (denominator ts)).

(** Modelled from the spec: [a.ratioEqual(b)] compares numerators and
    denominators. *)
Definition ratioEqual (a b : TimeSignature) : bool :=
  (numerator a =? numerator b)%Z && (denominator a =? denominator b)%Z.

(** Modelled from the spec: the default meter ([defaults.py] is not in the
    source tree). *)
Definition defaultMeter : TimeSignature := mkTimeSignature 4 4.

(** [note.Tie('start')] and the other tie types. *)
Inductive TieType : Type := TieStart | TieContinue | TieStop.

(** [clef.TrebleClef], [clef.BassClef], [clef.Treble8vbClef]. *)
Inductive ClefKind : Type := TrebleClef | BassClef | Treble8vbClef.

(** What an object carries besides its duration: the
    [diatonicNoteNum] of the pitch of a note or of the pitches of a chord,
    the meter of a time signature, the kind of a clef. *)
Inductive Payload : Type :=
| NoPayload
| Pitches (diatonicNoteNums : list Z)
| Meter (ts : TimeSignature)
| ClefSign (k : ClefKind).

(** An object that is an element of a stream: its class, the quarter
    length of its duration ([None] when it has no duration), its tie. *)
Record Element : Type := mkElement {
  className : ClassName;
  quarterLength : option Q;
  tie : option TieType;
  payload : Payload
}.

Definition set_quarterLength (q : Q) (e : Element) : Element :=
  mkElement (className e) (Some q) (tie e) (payload e).
Definition set_tie (t : TieType) (e : Element) : Element :=
  mkElement (className e) (quarterLength e) (Some t) (payload e).

(** The elements of a stream with their offsets in it, in the order of the
    element list. *)
Definition Elements : Type := list (Q * Element).

(** A stream that is only read: its flag [isSorted] and its elements. *)
Record StreamView : Type := mkStreamView {
  sorted : bool;
  items : Elements
}.

(** [class Measure(Stream)]: its number and its elements. *)
Record Measure : Type := mkMeasure {
  measureNumber : Z;
  contents : Elements
}.

Definition set_contents (l : Elements) (m : Measure) : Measure :=
  mkMeasure (measureNumber m) l.
Definition set_measureNumber (n : Z) (m : Measure) : Measure :=
  mkMeasure n (contents m).

(** [ts.barDuration.quarterLength] for what a stream of meters answered:
    [None], or an object that is no time signature, has no [barDuration]. *)
Definition meterOf (e : option Element) : Try TimeSignature :=
  match e with
  | Some e' => match payload e' with
               | Meter ts => Done ts
               | _ => Failed AttributeError
               end
  | None => Failed AttributeError
  end.

Definition barDurationOf (e : option Element) : Try Q :=
  ts ← meterOf e; Done (barDuration ts).

(** ** Queries of a stream *)

(** [self.highestTime] with an empty cache ([_getHighestTime]). *)
Definition highestTime (s : StreamView) : Q :=
  match items s with
  | [] => 0
  | _ :: _ =>
      if sorted s then
        match last (items s) with
        | Some lastEl => endTime (fst lastEl) (quarterLength (snd lastEl))
        | None => 0
        end
      else
        match fold_left
                (fun max thisElement =>
                   updMax max (endTime (fst thisElement)
                                       (quarterLength (snd thisElement))))
                (items s) None with
        | Some max => max
        | None => 0
        end
  end.

(** The elements of a stream with their positions in its element list. *)
Definition enumerate (l : Elements) : list (nat * (Q * Element)) :=
  imap (fun i p => (i, p)) l.

(** [getElementsByClass(c)]: the elements that are instances of [c], in
    order, at their offsets, each with its position in the stream it was
    found in. *)
Definition getElementsByClass (c : ClassName)
           (l : list (nat * (Q * Element))) : list (nat * (Q * Element)) :=
  List.filter (fun myEl => isinstance (className (snd (snd myEl))) c) l.

(** [getElementsByOffset(offsetStart, offsetEnd)], with the defaults
    [includeCoincidentBoundaries=True] and [onsetOnly=True]: the end of an
    element is its offset. *)
Definition getElementsByOffset (offsetStart offsetEnd : Q)
           (l : list (nat * (Q * Element))) : list (nat * (Q * Element)) :=
  List.filter (fun element =>
                 let offset := fst (snd element) in
                 let elementEnd := offset in
                 Qle_bool offsetStart offset && Qle_bool elementEnd offsetEnd)
              l.

(** The loop of [getElementAtOrBefore]: the candidates, each a span and an
    element (with its position). *)
Fixpoint candidatesOf (offset : Q) (l : list (nat * (Q * Element)))
         (nearestTrailSpan : Q) : list (Q * (nat * Element)) :=
  match l with
  | [] => []
  | (i, (elementOffset, element)) :: l' =>
      let span := offset - elementOffset in
      if Qlt_bool span 0 then candidatesOf offset l' nearestTrailSpan
      else if Qeq_bool span 0 then
        (span, (i, element)) :: candidatesOf offset l' span
      else if Qle_bool span nearestTrailSpan then
        (span, (i, element)) :: candidatesOf offset l' span
      else candidatesOf offset l' nearestTrailSpan
  end.

(** [getElementAtOrBefore(offset)]: the position and the value of the
    element found, [None] if there is none.  [candidates.sort()] orders
    the (span, element) pairs by span; for equal spans Python compares
    the elements themselves, with the comparison of [Music21Object], which
    is not in the source tree: the model keeps their order. *)
Definition getElementAtOrBefore (l : Elements) (offset : Q)
  : option (nat * Element) :=
  let candidates := candidatesOf offset (enumerate l) offset in
  match list_sort (fun x y => cmpQ (fst x) (fst y)) candidates with
  | [] => None
  | c :: _ => Some (snd c)
  end.

(** [getTimeSignatures]: the time signatures of the stream, and the
    default meter at offset 0 if there is none or the first is after 0. *)
Definition getTimeSignatures (l : Elements) : Elements :=
  let post := snd <$> getElementsByClass C_TimeSignature (enumerate l) in
  let ts := mkElement C_TimeSignature None None (Meter defaultMeter) in
  match post with
  | [] => post ++ [(0, ts)]
  | first :: _ => if Qlt_bool 0 (fst first) then post ++ [(0, ts)] else post
  end.

(** [findHeight] of [bestClef] *)
Definition findHeight (diatonicNoteNum : Z) : Z :=
  if (33 <? diatonicNoteNum)%Z then (diatonicNoteNum + 3)%Z
  else if (diatonicNoteNum <? 24)%Z then (diatonicNoteNum + -3)%Z
  else diatonicNoteNum.

(** The loop of [bestClef] over the notes: the number of pitches and the
    sum of their heights.  Modelled from the spec: [isRest], [isNote] and
    [isChord] are attributes of the classes of [note.py] and [chord.py],
    true for the instances of [Rest], of [Note] and of [Chord]. *)
Fixpoint heightsOf (notes : list (nat * (Q * Element)))
         (totalNotes totalHeight : Z) : Try (Z * Z) :=
  match notes with
  | [] => Done (totalNotes, totalHeight)
  | (_, (_, thisNote)) :: notes' =>
      if isinstance (className thisNote) C_Rest then
        heightsOf notes' totalNotes totalHeight
      else if isinstance (className thisNote) C_Note then
        match payload thisNote with
        | Pitches (thisPitch :: _) =>
            heightsOf notes' (totalNotes + 1)%Z
                      (totalHeight + findHeight thisPitch)%Z
        | _ => Failed AttributeError
        end
      else if isinstance (className thisNote) C_Chord then
        match payload thisNote with
        | Pitches pitches =>
            heightsOf notes'
                      (fold_left (fun n _ => (n + 1)%Z) pitches totalNotes)
                      (fold_left (fun h thisPitch =>
                                    (h + findHeight thisPitch)%Z)
                                 pitches totalHeight)
        | _ => Failed AttributeError
        end
      else heightsOf notes' totalNotes totalHeight
  end.

Definition newClef (k : ClefKind) : Element :=
  mkElement C_Clef None None (ClefSign k).

(** [bestClef(allowTreble8vb)] *)
Definition bestClef (l : Elements) (allowTreble8vb : bool) : Try Element :=
  let notes := getElementsByClass C_GeneralNote (enumerate l) in
  '(totalNotes, totalHeight) ← heightsOf notes 0 0;
  let averageHeight :=
    if (totalNotes =? 0)%Z then 29
    else inject_Z totalHeight / inject_Z totalNotes in
  if negb allowTreble8vb then
    if Qlt_bool 28 averageHeight then Done (newClef TrebleClef)
    else Done (newClef BassClef)
  else
    if Qlt_bool 32 averageHeight then Done (newClef TrebleClef)
    else if Qlt_bool 26 averageHeight then Done (newClef Treble8vbClef)
    else Done (newClef BassClef).

(** ** Class [Measure] *)

(** [m.insert(offset, item)], on the elements. *)
Definition insert (offset : Q) (item : Element) (l : Elements) : Elements :=
  l ++ [(offset, item)].

(** [m.pop(index)], on the elements. *)
Definition pop (index : nat) (l : Elements) : Elements :=
  delete index l.

(** [m.timeSignature] ([_getTimeSignature]): the first time signature at
    offset 0, with its position in the measure. *)
Definition _getTimeSignature (m : Measure) : option (nat * Element) :=
  let tsList := getElementsByClass C_TimeSignature (enumerate (contents m)) in
  let tsList := getElementsByOffset 0 0 tsList in
  match tsList with
  | [] => None
  | (i, (_, ts)) :: _ => Some (i, ts)
  end.

(** [m.clef] ([_getClef]) *)
Definition _getClef (m : Measure) : option (nat * Element) :=
  let clefList := getElementsByClass C_Clef (enumerate (contents m)) in
  let clefList := getElementsByOffset 0 0 clefList in
  match clefList with
  | [] => None
  | (i, (_, c)) :: _ => Some (i, c)
  end.

(** [self.insert(0, obj)] as the two setters call it: with [obj] being
    [None], [insert] takes its first argument, the number 0, for the item
    and fails on reading its offset. *)
Definition insertAtZero (obj : option Element) (l : Elements) : Try Elements :=
  match obj with
  | Some item => Done (insert 0 item l)
  | None => Failed AttributeError
  end.

(** [m.timeSignature = tsObj] ([_setTimeSignature]) *)
Definition _setTimeSignature (tsObj : option Element) (m : Measure)
  : Try Measure :=
  let l := match _getTimeSignature m with
           | Some (index, _) => pop index (contents m)
           | None => contents m
           end in
  l' ← insertAtZero tsObj l;
  Done (set_contents l' m).

(** [m.clef = clefObj] ([_setClef]) *)
Definition _setClef (clefObj : option Element) (m : Measure) : Try Measure :=
  let l := match _getClef m with
           | Some (index, _) => pop index (contents m)
           | None => contents m
           end in
  l' ← insertAtZero clefObj l;
  Done (set_contents l' m).

(** ** [makeMeasures] *)

(** [min(l)] and [max(l)]: a [ValueError] on the empty list. *)
Definition minOf (l : list Q) : Try Q :=
  match l with
  | [] => Failed ValueError
  | x :: l' => Done (fold_left (fun m v => if Qlt_bool v m then v else m) l' x)
  end.

Definition maxOf (l : list Q) : Try Q :=
  match l with
  | [] => Failed ValueError
  | x :: l' => Done (fold_left (fun m v => if Qlt_bool m v then v else m) l' x)
  end.

(** Modelled from the spec: [common.almostEquals] ([common.py] is not in
    the source tree) compares up to 1e-7. *)
Definition almostEquals (x y : Q) : bool :=
  Qlt_bool (Qabs (x - y)) (1 # 10000000).

(** The first loop of [makeMeasures]: [start, end, copy.copy(e)] for every
    element. *)
Definition offsetMapOf (l : Elements) : list (Q * Q * Element) :=
  map (fun p =>
         let e := snd p in
         let dur := match quarterLength e with
                    | Some q => q
                    | None => 0
                    end in
         let offset := fst p in
         (offset, offset + dur, e)) l.

(** The [while True] loop of [makeMeasures]; [fuel] bounds the number of
    measures.  [lastTimeSignature] is the position of an object in the
    stream of meters: [!=] compares identities. *)
Fixpoint measureLoop (fuel : nat) (meterStream : Elements) (clefObj : Element)
         (oMax : Q) (post : list (Q * Measure)) (o : Q) (measureCount : Z)
         (lastTimeSignature : option nat) : Try (list (Q * Measure)) :=
  match fuel with
  | O => Failed RecursionLimit
  | S fuel' =>
      let m := set_measureNumber (measureCount + 1) (mkMeasure 0 []) in
      let thisTimeSignature := getElementAtOrBefore meterStream o in
      '(lastTimeSignature, m) ←
        (if negb (bool_decide (fst <$> thisTimeSignature = lastTimeSignature))
         then
           m' ← _setTimeSignature (snd <$> thisTimeSignature) m;
           Done (fst <$> getElementAtOrBefore meterStream o, m')
         else Done (lastTimeSignature, m));
      m ← (if (measureCount =? 0)%Z then _setClef (Some clefObj) m
            else Done m);
      bar ← barDurationOf (snd <$> thisTimeSignature);
      if Qeq_bool bar 0 then Failed StreamException
      else
        let post := post ++ [(o, m)] in
        let o := o + bar in
        if Qle_bool oMax o then Done post
        else measureLoop fuel' meterStream clefObj oMax post o
                         (measureCount + 1) lastTimeSignature
  end.

(** The inner loop of the second part of [makeMeasures]: the index and the
    start of the first measure in which [start] falls. *)
Fixpoint findMeasure (start : Q) (post : list (Q * Measure)) (i : nat)
         (lastTimeSignature : option Element) : Try (option (nat * Q)) :=
  match post with
  | [] => Done None
  | (mStart, m) :: post' =>
      let lastTimeSignature :=
        match _getTimeSignature m with
        | Some (_, ts) => Some ts
        | None => lastTimeSignature
        end in
      bar ← barDurationOf lastTimeSignature;
      let mEnd := mStart + bar in
      if Qle_bool mStart start && Qlt_bool start mEnd then
        Done (Some (i, mStart))
      else findMeasure start post' (S i) lastTimeSignature
  end.

(** The second part of [makeMeasures]: every element is inserted in the
    measure in which its start falls, at its offset from the start of the
    measure. *)
Fixpoint populate (offsetMap : list (Q * Q * Element))
         (post : list (Q * Measure)) : Try (list (Q * Measure)) :=
  match offsetMap with
  | [] => Done post
  | (start, _, e) :: offsetMap' =>
      found ← findMeasure start post 0 None;
      match found with
      | None => Failed StreamException
      | Some (i, mStart) =>
          let oNew := start - mStart in
          populate offsetMap'
                   (alter (fun p =>
                             (fst p,
                              set_contents (insert oNew e (contents (snd p)))
                                           (snd p)))
                          i post)
      end
  end.

(** [srcObj.makeMeasures(meterStream, refStream)]: the measures of the
    stream it returns, with their offsets in it. *)
Definition makeMeasures (fuel : nat) (srcObj : StreamView)
           (meterStream : option Elements) (refStream : option StreamView)
  : Try (list (Q * Measure)) :=
  let meterStream := match meterStream with
                     | None => getTimeSignatures (items srcObj)
                     | Some ms => ms
                     end in
  clefObj ← bestClef (items srcObj) false;
  let offsetMap := offsetMapOf (items srcObj) in
  oMin ← minOf (map (fun x => fst (fst x)) offsetMap);
  oMax ← maxOf (map (fun x => snd (fst x)) offsetMap);
  if negb (almostEquals oMax (highestTime srcObj)) then Failed StreamException
  else
    let oMax := match refStream with
                | Some r => if Qlt_bool oMax (highestTime r)
                            then highestTime r else oMax
                | None => oMax
                end in
    post ← measureLoop fuel meterStream clefObj oMax [] 0 0 None;
    populate offsetMap post.

(** ** [makeTies] *)

(** An element of the stream [makeTies] works on: a measure, named by its
    position in the store of measures, or any other object.  The same
    measure can be an element more than once. *)
Inductive Item : Type :=
| ItemMeasure (ref : nat)
| ItemElement (e : Element).

(** The stream [makeTies] works on: its elements with their offsets, and
    the measures there are.  (An object has one offset in a stream: a
    measure that is an element twice is so at the same offset.) *)
Record Score : Type := mkScore {
  layout : list (Q * Item);
  measures : list Measure
}.

(** [getMeasures], [getElementsByClass(Measure)] *)
Definition getMeasures (l : list (Q * Item)) : list (Q * nat) :=
  omap (fun p => match snd p with
                 | ItemMeasure ref => Some (fst p, ref)
                 | ItemElement _ => None
                 end) l.

(** The elements that are not measures (no measure is a time
    signature). *)
Definition otherElements (l : list (Q * Item)) : Elements :=
  omap (fun p => match snd p with
                 | ItemMeasure _ => None
                 | ItemElement e => Some (fst p, e)
                 end) l.

Definition getMeasure (sc : Score) (ref : nat) : Try Measure :=
  match measures sc !! ref with
  | Some m => Done m
  | None => Failed AttributeError
  end.

Definition putMeasure (ref : nat) (m : Measure) (sc : Score) : Score :=
  mkScore (layout sc) (<[ref := m]> (measures sc)).

(** [e.isClass(note.Note) or e.isClass(note.Unpitched)] *)
Definition isNoteOrUnpitched (e : Element) : bool :=
  isinstance (className e) C_Note || isinstance (className e) C_Unpitched.

(** [for e in m] of [makeTies], by the index of the iterator, which reads
    the element list of [m] anew at every step.  Modelled from the spec:
    the remainder begins at the boundary; [eRemain.offset = 0] is taken
    for its offset in [mNext]. *)
Fixpoint tieElements (fuel : nat) (mRef mNext : nat) (mNextOffset : Q)
         (mNextAdd : bool) (mEnd : Q) (index : nat) (sc : Score) : Try Score :=
  match fuel with
  | O => Failed RecursionLimit
  | S fuel' =>
      m ← getMeasure sc mRef;
      match contents m !! index with
      | None => Done sc
      | Some (eoffset, e) =>
          match quarterLength e with
          | None => tieElements fuel' mRef mNext mNextOffset mNextAdd mEnd
                                (S index) sc
          | Some q =>
              let eEnd := eoffset + q in
              if Qlt_bool mEnd eEnd then
                if Qle_bool mEnd eoffset then Failed StreamException
                else
                  let qLenBegin := mEnd - eoffset in
                  let qLenRemain := q - qLenBegin in
                  let e1 := set_quarterLength qLenBegin e in
                  let eRemain := set_quarterLength qLenRemain e1 in
                  let e2 := if isNoteOrUnpitched e1 then set_tie TieStart e1
                            else e1 in
                  let sc1 :=
                    putMeasure mRef
                      (set_contents (<[index := (eoffset, e2)]> (contents m)) m)
                      sc in
                  following ← getMeasure sc1 mNext;
                  let sc2 :=
                    putMeasure mNext
                      (set_contents ([(0, eRemain)] ++ contents following)
                                    following)
                      sc1 in
                  let sc3 :=
                    if mNextAdd then
                      mkScore (layout sc2 ++ [(mNextOffset, ItemMeasure mNext)])
                              (measures sc2)
                    else sc2 in
                  tieElements fuel' mRef mNext mNextOffset mNextAdd mEnd
                              (S index) sc3
              else tieElements fuel' mRef mNext mNextOffset mNextAdd mEnd
                               (S index) sc
          end
      end
  end.

(** The [while True] loop of [makeTies]. *)
Fixpoint tieMeasures (fuel : nat) (meterStream : Elements) (mCount : nat)
         (lastTimeSignature : option Element) (sc : Score) : Try Score :=
  match fuel with
  | O => Failed RecursionLimit
  | S fuel' =>
      let measureStream := getMeasures (layout sc) in
      match measureStream !! mCount with
      | None => Done sc
      | Some (moffset, mRef) =>
          m ← getMeasure sc mRef;
          let lastTimeSignature :=
            match _getTimeSignature m with
            | Some (_, ts) => Some ts
            | None => lastTimeSignature
            end in
          '(sc, mNext, mNextOffset, mNextAdd) ←
            match measureStream !! S mCount with
            | Some (_, mNext) => Done (sc, mNext, 0, false)
            | None =>
                let mNext := mkMeasure 0 [] in
                bar ← barDurationOf lastTimeSignature;
                let mNextOffset := moffset + bar in
                let ts :=
                  if (length meterStream =? 0)%nat then
                    Some (mkElement C_TimeSignature None None
                                    (Meter defaultMeter))
                  else snd <$> getElementAtOrBefore meterStream mNextOffset in
                lastMeter ← meterOf lastTimeSignature;
                thisMeter ← meterOf ts;
                mNext ← (if negb (ratioEqual lastMeter thisMeter)
                          then _setTimeSignature ts mNext
                          else Done mNext);
                let mNext := set_measureNumber (measureNumber m + 1) mNext in
                Done (mkScore (layout sc) (measures sc ++ [mNext]),
                      length (measures sc), mNextOffset, true)
            end;
          bar ← barDurationOf lastTimeSignature;
          sc ← tieElements fuel mRef mNext mNextOffset mNextAdd bar 0 sc;
          tieMeasures fuel' meterStream (S mCount) lastTimeSignature sc
      end
  end.

(** [returnObj.makeTies(meterStream)], in place. *)
Definition makeTies (fuel : nat) (returnObj : Score)
           (meterStream : option Elements) : Try Score :=
  if (length (layout returnObj) =? 0)%nat then Failed StreamException
  else if (length (getMeasures (layout returnObj)) =? 0)%nat
  then Failed StreamException
  else
    let meterStream :=
      match meterStream with
      | None => getTimeSignatures (otherElements (layout returnObj))
      | Some ms => ms
      end in
    tieMeasures fuel meterStream 0 None returnObj.

(** ** Elements back to back under 4/4 *)

(** The elements [es] one after the other from offset 0, one quarter
    apart. *)
Definition backToBack (es : list Element) : Elements :=
  imap (fun i e => (inject_Z (Z.of_nat i), e)) es.

(** The offset of the measure of index [j] as the loop of [makeMeasures]
    adds it up under 4/4: 0 + 4 + ... + 4. *)
Definition measureStart (j : nat) : Q := Nat.iter j (fun o => o + 4) 0.

(** The measure of index [j] once the elements [l] are placed: the first
    measure begins with the time signature and the clef; the elements of
    indices [4j] to [4j + 3] follow, at their offsets from the start of the
    measure. *)
Definition barOf (ts clef : Element) (l : list Element) (j : nat)
  : Q * Measure :=
  (measureStart j,
   mkMeasure (Z.of_nat j + 1)
             ((match j with
               | O => [(0, ts); (0, clef)]
               | S _ => []
               end)
              ++ imap (fun t e =>
                         (inject_Z (Z.of_nat (4 * j + t)) - measureStart j, e))
                      (take 4 (drop (4 * j) l)))).

Definition barsOf (ts clef : Element) (K : nat) (l : list Element)
  : list (Q * Measure) :=
  map (barOf ts clef l) (seq 0 K).

(** ** An element across the end of a measure of 4/4 *)

(** An element that ends by [mEnd], or has no duration. *)
Definition within (mEnd : Q) (p : Q * Element) : Prop :=
  match quarterLength (snd p) with
  | Some q => fst p + q <= mEnd
  | None => True
  end.

(** The measure with the number [n] that begins with the time signature
    [ts] and holds [e] at offset 2, after the elements [pre] and before the
    elements [suf]. *)
Definition measureWith (n : Z) (ts e : Element) (pre suf : Elements)
  : Measure :=
  mkMeasure n ((0, ts) :: pre ++ [(2, e)] ++ suf).

(** The stream that holds the measure [m] at [off] and, if there is one,
    the measure that follows. *)
Definition scoreWith (off : Q) (m : Measure) (following : option (Q * Measure))
  : Score :=
  match following with
  | None => mkScore [(off, ItemMeasure 0)] [m]
  | Some (o1, m1) => mkScore [(off, ItemMeasure 0); (o1, ItemMeasure 1)] [m; m1]
  end.

(** [e] with the quarter length 2, and the tie of type start if it is a
    [Note] or an [Unpitched]. *)
Definition firstPart (e : Element) : Element :=
  if isNoteOrUnpitched e then set_tie TieStart (set_quarterLength 2 e)
  else set_quarterLength 2 e.

(** [e] with the quarter length 4. *)
Definition remainder (e : Element) : Element := set_quarterLength 4 e.

End Bars.

(** ** More of class [Stream] *)

(** [pop(index)], for an index that is not negative: the element is taken
    out of the list object, [IndexError] when the list is too short. *)
Definition pop (self : nat) (index : nat) : M nat :=
  l ← _getElements self;
  v ← getList l;
  match v !! index with
  | Some post =>
      putList l (delete index v);;
      _elementsChanged self;;
      ret post
  | None => raise IndexError
  end.

(** [a.elements = b.elements; a.insert(offset, x)] *)
Definition insertThroughSharedElements (fuel : nat) (a b : nat) (offset : Q)
           (x : nat) : M unit :=
  value ← _getElements b;
  _setElements a value;;
  insert fuel a offset x.

(** * Properties *)

(** ** Comparisons on times *)

Lemma Qlt_bool_iff (a b : Q) : Qlt_bool a b = true <-> a < b.
Proof.
  unfold Qlt_bool. rewrite negb_true_iff.
  split; intros H.
  - apply Qnot_le_lt. intros Hle. apply Qle_bool_iff in Hle. congruence.
  - destruct (Qle_bool b a) eqn:E; [|reflexivity].
    apply Qle_bool_iff in E. lra.
Qed.

Lemma Qle_bool_false_iff (a b : Q) : Qle_bool a b = false <-> b < a.
Proof.
  split; intros H.
  - apply Qnot_le_lt. intros Hle. apply Qle_bool_iff in Hle. congruence.
  - destruct (Qle_bool a b) eqn:E; [|reflexivity].
    apply Qle_bool_iff in E. lra.
Qed.


(** ** [highestTime] of a container marked sorted *)

(** C1, at [y = s.sorted] for [s] holding a note of quarter length 10 at
    offset 0 and a note of quarter length 1 at offset 1: [y] is marked
    sorted, its elements end at 10 and at 2, and [y.highestTime] answers 2,
    the end of the last element of the list, where the maximum of offset
    plus duration is 10. *)
Theorem highestTime_of_sorted_is_end_of_last :
  exists s h y h',
    streamOfNotes [(0, 10); (1, 1)] emptyHeap = Ok s h /\
    _getSorted s h = Ok y h' /\
    isSortedIn h' y = Some true /\
    HighestTime <$> cacheIn h' y = Some None /\
    spansIn h' y = Some [(0, Some 10); (1, Some 1)] /\
    valueOf (_getHighestTime 1 y h') = Some 2 /\
    maxEndTime [(0, Some 10); (1, Some 1)] = 10.
Proof.
  do 4 eexists.
  split; [vm_compute; reflexivity|].
  split; [vm_compute; reflexivity|].
  split; [vm_compute; reflexivity|].
  split; [vm_compute; reflexivity|].
  split; [vm_compute; reflexivity|].
  split; vm_compute; reflexivity.
Qed.

(** ** [sorted] on concrete containers *)

(** C2 fails as stated.  Two notes of equal priority inserted at offset 0
    in the two possible orders give the same set of (offset, object) pairs
    and two different sorted orders; and a note inserted before a clef at
    the same offset stays before it in the sorted order, against the class
    rank. *)
Lemma sorted_depends_on_insertion_order :
  Permutation [(0, 0%nat); (0, 1%nat)] [(0, 1%nat); (0, 0%nat)] /\
  valueOf (sortedOrderOf [(C_Note, 0%Z); (C_Note, 0%Z)]
             [(0, 0%nat); (0, 1%nat)] emptyHeap) = Some [0%nat; 1%nat] /\
  valueOf (sortedOrderOf [(C_Note, 0%Z); (C_Note, 0%Z)]
             [(0, 1%nat); (0, 0%nat)] emptyHeap) = Some [1%nat; 0%nat] /\
  valueOf (sortedOrderOf [(C_Note, 0%Z); (C_Clef, 0%Z)]
             [(0, 0%nat); (0, 1%nat)] emptyHeap) = Some [0%nat; 1%nat].
Proof.
  split; [apply perm_swap|].
  split; [vm_compute; reflexivity|].
  split; vm_compute; reflexivity.
Qed.

(** C3, at the container of the doctest of [_getSorted]: notes inserted at
    offsets 0, 2, 4, 1, 3, 5.  Evaluating [s.sorted] reorders the element
    list of [s] itself, and the container it returns holds the very same
    list object. *)
Theorem sorted_reorders_the_source_list :
  exists s h y h',
    streamOfNotes [(0, 1); (2, 1); (4, 1); (1, 1); (3, 1); (5, 1)] emptyHeap
      = Ok s h /\
    _getSorted s h = Ok y h' /\
    offsetsIn h s = Some [0; 2; 4; 1; 3; 5] /\
    offsetsIn h' s = Some [0; 1; 2; 3; 4; 5] /\
    elementsIn h' s <> elementsIn h s /\
    y <> s /\
    listIdIn h' y = listIdIn h' s /\
    isSortedIn h' s = Some false.
Proof.
  do 4 eexists.
  split; [vm_compute; reflexivity|].
  split; [vm_compute; reflexivity|].
  split; [vm_compute; reflexivity|].
  split; [vm_compute; reflexivity|].
  split; [vm_compute; discriminate|].
  split; [vm_compute; discriminate|].
  split; vm_compute; reflexivity.
Qed.

(** ** The comparator of [sorted] and the stable sort *)

Lemma cmpQ_neg (a b : Q) : (cmpQ a b <? 0)%Z = true <-> a < b.
Proof.
  unfold cmpQ. destruct (Qlt_bool a b) eqn:E1.
  - apply Qlt_bool_iff in E1. split; [intros _; exact E1 | reflexivity].
  - assert (~ a < b) by (intros H; apply Qlt_bool_iff in H; congruence).
    destruct (Qlt_bool b a); simpl; split; intros; try discriminate; tauto.
Qed.

Lemma cmpQ_zero (a b : Q) : cmpQ a b = 0%Z <-> a == b.
Proof.
  unfold cmpQ. destruct (Qlt_bool a b) eqn:E1.
  - apply Qlt_bool_iff in E1. split; [discriminate | lra].
  - destruct (Qlt_bool b a) eqn:E2.
    + apply Qlt_bool_iff in E2. split; [discriminate | lra].
    + split; [intros _ | reflexivity].
      destruct (Qlt_le_dec a b) as [H|H];
        [apply Qlt_bool_iff in H; congruence|].
      destruct (Qlt_le_dec b a) as [H'|H'];
        [apply Qlt_bool_iff in H'; congruence|]. lra.
Qed.

Lemma cmpZ_neg (a b : Z) : (cmpZ a b <? 0)%Z = true <-> (a < b)%Z.
Proof.
  unfold cmpZ. destruct (Z.ltb_spec a b); [simpl; tauto|].
  destruct (Z.ltb_spec b a); simpl; split; intros; try discriminate; lia.
Qed.

Lemma sortedCmp_neg (x y : Keyed) :
  (sortedCmp x y <? 0)%Z = true <->
  (keyOffset x < keyOffset y \/
   (keyOffset x == keyOffset y /\ (keyPriority x < keyPriority y)%Z)).
Proof.
  unfold sortedCmp, orZ, keyOffset, keyPriority.
  destruct (Z.eqb_spec (cmpQ x.1.1 y.1.1) 0) as [E|E].
  - apply cmpQ_zero in E. rewrite cmpZ_neg. split; [intros; right; tauto|].
    intros [H|[_ H]]; [lra | exact H].
  - rewrite cmpQ_neg. split; [tauto|].
    intros [H|[H _]]; [exact H|]. apply cmpQ_zero in H. contradiction.
Qed.

Lemma sortedCmp_not_neg (x y : Keyed) :
  (sortedCmp y x <? 0)%Z = false <-> keyLe x y.
Proof.
  rewrite <- not_true_iff_false, sortedCmp_neg. unfold keyLe.
  split.
  - intros H. destruct (Q_dec (keyOffset x) (keyOffset y)) as [[Hlt|Hgt]|Heq].
    + left; exact Hlt.
    + exfalso; apply H; left; exact Hgt.
    + right; split; [exact Heq|].
      destruct (Z_le_gt_dec (keyPriority x) (keyPriority y)); [assumption|].
      exfalso; apply H; right; split; [symmetry; exact Heq | lia].
  - intros [H|[H1 H2]] [H'|[H1' H2']]; try lra; lia.
Qed.

Section stable_insertion_sort.
Context {A : Type} (cmp : A -> A -> Z).

Lemma sortInsert_perm (x : A) (l : list A) :
  sortInsert cmp x l ≡ₚ x :: l.
Proof.
  induction l as [|y l IH]; simpl; [reflexivity|].
  destruct (cmp y x <? 0)%Z; [|reflexivity].
  rewrite IH. apply perm_swap.
Qed.

Lemma list_sort_perm (l : list A) : list_sort cmp l ≡ₚ l.
Proof.
  induction l as [|x l IH]; simpl; [reflexivity|].
  rewrite sortInsert_perm, IH. reflexivity.
Qed.

(** The order the sort establishes, for an order [R] for which an element
    goes before another whenever the comparator does not put it after. *)
Lemma sortInsert_sorted (R : relation A) (x : A) (l : list A) :
  Transitive R ->
  (forall y, y ∈ l -> (cmp y x <? 0)%Z = true -> R y x) ->
  (forall y, y ∈ l -> (cmp y x <? 0)%Z = false -> R x y) ->
  StronglySorted R l -> StronglySorted R (sortInsert cmp x l).
Proof.
  intros Htr Hlt Hge Hs. induction Hs as [|y l Hs IH Hy]; simpl.
  - repeat constructor.
  - destruct (cmp y x <? 0)%Z eqn:E.
    + constructor.
      * apply IH; intros z Hz; [apply Hlt | apply Hge]; by right.
      * rewrite (sortInsert_perm x l). constructor; [|exact Hy].
        apply Hlt; [by left | exact E].
    + assert (R x y) as Hxy by (apply Hge; [by left | exact E]).
      constructor; [by constructor|].
      constructor; [exact Hxy|].
      eapply Forall_impl; [exact Hy|]. intros z Hz. by transitivity y.
Qed.
End stable_insertion_sort.

(** A comparator that reads one component sorts that component. *)
Lemma sortInsert_fst {A B} (cmp : A -> A -> Z) (x : A * B) (s : list (A * B)) :
  map fst (sortInsert (fun a b => cmp (fst a) (fst b)) x s)
  = sortInsert cmp (fst x) (map fst s).
Proof.
  induction s as [|y s IHs]; simpl; [reflexivity|].
  destruct (cmp (fst y) (fst x) <? 0)%Z; simpl; [by rewrite IHs | reflexivity].
Qed.

Lemma list_sort_fst {A B} (cmp : A -> A -> Z) (l : list (A * B)) :
  map fst (list_sort (fun a b => cmp (fst a) (fst b)) l)
  = list_sort cmp (map fst l).
Proof.
  induction l as [|x l IH]; simpl; [reflexivity|].
  by rewrite sortInsert_fst, IH.
Qed.

#[local] Instance keyLe_trans : Transitive keyLe.
Proof.
  intros a b c. unfold keyLe.
  intros [H1|[H1 H1']] [H2|[H2 H2']]; try (left; lra).
  right; split; [lra | lia].
Qed.

#[local] Instance canonicalLt_trans : Transitive canonicalLt.
Proof.
  intros a b c. unfold canonicalLt.
  intros [H1|[H1 H1']] [H2|[H2 H2']]; try (left; lra).
  right; split; [lra | lia].
Qed.

Lemma list_sort_keyLe (l : list Keyed) :
  StronglySorted keyLe (list_sort sortedCmp l).
Proof.
  induction l as [|x l IH]; simpl; [constructor|].
  apply sortInsert_sorted; [apply _ | | | exact IH].
  - intros y _ Hy. apply sortedCmp_neg in Hy. unfold keyLe.
    destruct Hy as [Hy|[Hy Hy']]; [left; exact Hy | right; split; [exact Hy | lia]].
  - intros y _ Hy. by apply sortedCmp_not_neg.
Qed.

(** The sort is stable: with positions attached, the result is in the
    strict order by offset, priority and position. *)
Lemma list_sort_canonical (l : list (Keyed * nat)) :
  StronglySorted (fun a b => (snd a < snd b)%nat) l ->
  StronglySorted canonicalLt
    (list_sort (fun a b => sortedCmp (fst a) (fst b)) l).
Proof.
  induction 1 as [|x l Hs IH Hx]; simpl; [constructor|].
  apply sortInsert_sorted; [apply _ | | | exact IH].
  - intros y _ Hy. apply sortedCmp_neg in Hy. unfold canonicalLt.
    destruct Hy as [Hy|[Hy Hy']]; [left; exact Hy | right; split; [exact Hy | left; exact Hy']].
  - intros y Hin Hy. apply sortedCmp_not_neg in Hy.
    rewrite list_sort_perm in Hin.
    rewrite Forall_forall in Hx. specialize (Hx y Hin).
    unfold canonicalLt. destruct Hy as [Hy|[Hy Hy']]; [left; exact Hy|].
    right; split; [exact Hy|]. lia.
Qed.

Lemma withPosition_increasing (l : list Keyed) :
  StronglySorted (fun a b => (snd a < snd b)%nat) (withPosition l).
Proof.
  unfold withPosition.
  assert (forall n, StronglySorted (fun a b : Keyed * nat => (a.2 < b.2)%nat)
             (imap (fun i k => (k, (n + i)%nat)) l)) as H.
  { induction l as [|x l IH]; intros n; simpl; [constructor|].
    constructor.
    - erewrite imap_ext; [apply (IH (S n))|].
      intros i y _. simpl. f_equal. lia.
    - apply Forall_forall. intros [k j] Hin.
      apply list_elem_of_lookup in Hin as [i Hi].
      rewrite list_lookup_imap in Hi.
      destruct (l !! i); simpl in Hi; [|discriminate].
      injection Hi as _ <-. simpl. lia. }
  exact (H 0%nat).
Qed.

Lemma withPosition_fst (l : list Keyed) : map fst (withPosition l) = l.
Proof.
  unfold withPosition.
  assert (forall g : nat -> nat,
             map fst (imap (fun i k => (k, g i)) l) = l) as H.
  { induction l as [|x l IH]; intros g; simpl; [reflexivity|].
    f_equal. apply (IH (g ∘ S)). }
  exact (H id).
Qed.

(** Without ties the sorted order does not depend on the order of the
    list sorted. *)
Lemma list_sort_order_independent (l1 l2 : list Keyed) :
  noTies l1 -> l2 ≡ₚ l1 ->
  list_sort sortedCmp l2 = list_sort sortedCmp l1.
Proof.
  intros Hnt Hp.
  apply (StronglySorted_unique_strong keyLe).
  - intros a b Ha Hb Hab Hba.
    rewrite list_sort_perm in Ha, Hb. rewrite Hp in Ha.
    apply Hnt; [exact Ha | exact Hb | |];
      unfold keyLe in *; destruct Hab as [?|[? ?]], Hba as [?|[? ?]];
      try lra; lia.
  - apply list_sort_keyLe.
  - apply list_sort_keyLe.
  - by rewrite !list_sort_perm.
Qed.

(** ** Running a computation *)

Lemma run_bind {A B} (m : M A) (k : A -> M B) (h h1 : Heap) (a : A) :
  m h = Ok a h1 -> (m ≫= k) h = k a h1.
Proof. intros H. unfold mbind, M_bind. by rewrite H. Qed.

Lemma bind_Ok {A B} (m : M A) (k : A -> M B) (h h' : Heap) (b : B) :
  (m ≫= k) h = Ok b h' ->
  exists a h1, m h = Ok a h1 /\ k a h1 = Ok b h'.
Proof.
  unfold mbind, M_bind. destruct (m h) as [a h1|e]; [|discriminate].
  intros H. by exists a, h1.
Qed.

Lemma bind_assoc {A B C} (m : M A) (f : A -> M B) (g : B -> M C) (h : Heap) :
  ((m ≫= f) ≫= g) h = (m ≫= fun a => f a ≫= g) h.
Proof. unfold mbind, M_bind. by destruct (m h). Qed.

Lemma run_ret {A B} (a : A) (k : A -> M B) (h : Heap) :
  (ret a ≫= k) h = k a h.
Proof. reflexivity. Qed.

Lemma run_getObj {B} (x : nat) (o : Obj) (k : Obj -> M B) (h : Heap) :
  objs h !! x = Some o -> (getObj x ≫= k) h = k o h.
Proof. intros H. unfold mbind, M_bind, getObj. by rewrite H. Qed.

Lemma run_getList {B} (l : nat) (v : list nat) (k : list nat -> M B) (h : Heap) :
  lists h !! l = Some v -> (getList l ≫= k) h = k v h.
Proof. intros H. unfold mbind, M_bind, getList. by rewrite H. Qed.

Lemma run_putObj {B} (x : nat) (o : Obj) (k : unit -> M B) (h : Heap) :
  (putObj x o ≫= k) h
  = k tt (mkHeap (<[x := o]> (objs h)) (lists h) (next h)).
Proof. reflexivity. Qed.

Lemma run_putList {B} (l : nat) (v : list nat) (k : unit -> M B) (h : Heap) :
  (putList l v ≫= k) h
  = k tt (mkHeap (objs h) (<[l := v]> (lists h)) (next h)).
Proof. reflexivity. Qed.

Lemma run_fresh {B} (k : nat -> M B) (h : Heap) :
  (fresh ≫= k) h = k (next h) (mkHeap (objs h) (lists h) (S (next h))).
Proof. reflexivity. Qed.

Lemma run_getStream {B} (x : nat) (o : Obj) (s : StreamAttrs)
      (k : StreamAttrs -> M B) (h : Heap) :
  objs h !! x = Some o -> body o = Container s ->
  (getStream x ≫= k) h = k s h.
Proof.
  intros H Hb. unfold getStream. rewrite bind_assoc, (run_getObj _ _ _ _ H).
  by rewrite Hb.
Qed.

(** Unfold the operations on sites and attributes, and bring the binds
    into sequence. *)
Ltac mnorm :=
  repeat (rewrite bind_assoc || rewrite run_ret || rewrite run_putObj
          || rewrite run_putList || rewrite run_fresh);
  cbn [objs lists next].

Lemma getObj_Some (h : Heap) (x : nat) (o : Obj) :
  objs h !! x = Some o -> getObj x h = Ok o h.
Proof. intros H. unfold getObj. by rewrite H. Qed.

Lemma getList_Some (h : Heap) (l : nat) (v : list nat) :
  lists h !! l = Some v -> getList l h = Ok v h.
Proof. intros H. unfold getList. by rewrite H. Qed.

Lemma getStream_Some (h : Heap) (self : nat) (o : Obj) (s : StreamAttrs) :
  objs h !! self = Some o -> body o = Container s ->
  getStream self h = Ok s h.
Proof.
  intros H Hb. unfold getStream.
  rewrite (run_bind _ _ _ _ _ (getObj_Some _ _ _ H)). by rewrite Hb.
Qed.

Lemma streamIn_Some (h : Heap) (self : nat) (s : StreamAttrs) :
  streamIn h self = Some s ->
  exists o, objs h !! self = Some o /\ body o = Container s.
Proof.
  unfold streamIn. destruct (objs h !! self) as [o|]; simpl; [|discriminate].
  destruct (body o) eqn:E; [discriminate|].
  intros [= <-]. by exists o.
Qed.

Lemma elementsIn_Some (h : Heap) (self : nat) (v : list nat) :
  elementsIn h self = Some v ->
  exists o s, objs h !! self = Some o /\ body o = Container s /\
              lists h !! _elements s = Some v.
Proof.
  unfold elementsIn. destruct (objs h !! self) as [o|]; simpl; [|discriminate].
  destruct (body o) as [|s] eqn:E; [discriminate|].
  intros H. by exists o, s.
Qed.

(** A loop whose body keeps an invariant and cannot fail under it. *)
Lemma forEach_total {A} (I : Heap -> Prop) (l : list A) (body : A -> M unit)
      (h : Heap) :
  I h ->
  (forall x h0, x ∈ l -> I h0 -> exists h1, body x h0 = Ok tt h1 /\ I h1) ->
  exists h', forEach l body h = Ok tt h' /\ I h'.
Proof.
  revert h. induction l as [|x l IH]; intros h HI Hbody; simpl.
  - by exists h.
  - destruct (Hbody x h) as (h1 & Hx & HI1); [by left | exact HI|].
    rewrite (run_bind _ _ _ _ _ Hx).
    apply IH; [exact HI1|]. intros y h0 Hy. apply Hbody. by right.
Qed.

Lemma noneIsStream_total (h : Heap) (l : list nat) :
  (forall x, x ∈ l -> is_Some (objs h !! x)) ->
  exists f, noneIsStream l h = Ok f h.
Proof.
  induction l as [|x l IH]; intros Hl; simpl; [exists true; reflexivity|].
  destruct (Hl x) as [o Ho]; [by left|].
  rewrite (run_bind _ _ _ _ _ (getObj_Some _ _ _ Ho)).
  change (isinstance (classOf o) C_Stream) with (isStreamClass (classOf o)).
  destruct (isStreamClass (classOf o)); [exists false; reflexivity|].
  apply IH. intros y Hy. apply Hl. by right.
Qed.

Lemma keyOf_keyIn (h : Heap) (self x : nat) (k : Keyed) :
  keyIn h self x = Some k -> keyOf self x h = Ok k h.
Proof.
  unfold keyIn. intros H.
  destruct (objs h !! x) as [o|] eqn:Ho; simpl in H; [|discriminate].
  destruct (locations o !! Some self) as [q|] eqn:Hq; simpl in H;
    [|discriminate].
  injection H as <-.
  unfold keyOf, getOffsetBySite. mnorm.
  rewrite (run_getObj _ _ _ _ Ho), Hq. mnorm.
  by rewrite (run_getObj _ _ _ _ Ho).
Qed.

Lemma mapM_keyOf (h : Heap) (self : nat) (v : list nat) (keyed : list Keyed) :
  mapM (keyIn h self) v = Some keyed ->
  mapM (keyOf self) v h = Ok keyed h.
Proof.
  rewrite mapM_Some. induction 1 as [|x k v ks Hx _ IH]; [reflexivity|].
  change (mapM (keyOf self) (x :: v))
    with (keyOf self x ≫= fun y => mapM (keyOf self) v ≫= fun ys => mret (y :: ys)).
  rewrite (run_bind _ _ _ _ _ (keyOf_keyIn _ _ _ _ Hx)).
  by rewrite (run_bind _ _ _ _ _ IH).
Qed.

Lemma mapM_keyIn_elements (h : Heap) (self : nat) (v : list nat)
      (keyed : list Keyed) :
  mapM (keyIn h self) v = Some keyed -> keyed.*2 = v.
Proof.
  rewrite mapM_Some. induction 1 as [|x k v ks Hx _ IH]; simpl; [reflexivity|].
  f_equal; [|exact IH].
  unfold keyIn in Hx.
  destruct (objs h !! x) as [o|]; simpl in Hx; [|discriminate].
  destruct (locations o !! Some self); simpl in Hx; [|discriminate].
  by injection Hx as <-.
Qed.

Lemma mapM_keyIn_site (h : Heap) (self : nat) (v : list nat)
      (keyed : list Keyed) (x : nat) :
  mapM (keyIn h self) v = Some keyed -> x ∈ v ->
  exists o, objs h !! x = Some o /\ is_Some (locations o !! Some self).
Proof.
  rewrite mapM_Some. intros HF Hx.
  apply list_elem_of_lookup in Hx as [i Hi].
  destruct (Forall2_lookup_l _ _ _ i x HF Hi) as (k & _ & Hk).
  unfold keyIn in Hk.
  destruct (objs h !! x) as [o|]; simpl in Hk; [|discriminate].
  destruct (locations o !! Some self) eqn:E; simpl in Hk; [|discriminate].
  exists o. split; [reflexivity|]. by rewrite E.
Qed.

(** ** Rules for runs that return *)

Lemma returns_bind {A B} (m : M A) (k : A -> M B) (post : B -> Heap -> Prop)
      (h : Heap) :
  returns m (fun a h1 => returns (k a) post h1) h -> returns (m ≫= k) post h.
Proof.
  intros (a & h1 & Hm & b & h2 & Hk & Hp). exists b, h2.
  split; [|exact Hp]. by rewrite (run_bind _ _ _ _ _ Hm).
Qed.

Lemma returns_ret {A} (a : A) (post : A -> Heap -> Prop) (h : Heap) :
  post a h -> returns (ret a) post h.
Proof. intros H. by exists a, h. Qed.

Lemma returns_mono {A} (m : M A) (post post' : A -> Heap -> Prop) (h : Heap) :
  returns m post h -> (forall a h', post a h' -> post' a h') ->
  returns m post' h.
Proof. intros (a & h' & Hm & Hp) H. exists a, h'. auto. Qed.

Lemma returns_getObj (x : nat) (o : Obj) (post : Obj -> Heap -> Prop)
      (h : Heap) :
  objs h !! x = Some o -> post o h -> returns (getObj x) post h.
Proof. intros Hx Hp. exists o, h. split; [by apply getObj_Some | exact Hp]. Qed.

Lemma returns_getList (l : nat) (v : list nat)
      (post : list nat -> Heap -> Prop) (h : Heap) :
  lists h !! l = Some v -> post v h -> returns (getList l) post h.
Proof. intros Hx Hp. exists v, h. split; [by apply getList_Some | exact Hp]. Qed.

Lemma returns_putObj (x : nat) (o : Obj) (post : unit -> Heap -> Prop)
      (h : Heap) :
  post tt (mkHeap (<[x := o]> (objs h)) (lists h) (next h)) ->
  returns (putObj x o) post h.
Proof. intros Hp. by eexists tt, _. Qed.

Lemma returns_putList (l : nat) (v : list nat) (post : unit -> Heap -> Prop)
      (h : Heap) :
  post tt (mkHeap (objs h) (<[l := v]> (lists h)) (next h)) ->
  returns (putList l v) post h.
Proof. intros Hp. by eexists tt, _. Qed.

Lemma returns_fresh (post : nat -> Heap -> Prop) (h : Heap) :
  post (next h) (mkHeap (objs h) (lists h) (S (next h))) ->
  returns fresh post h.
Proof. intros Hp. by eexists _, _. Qed.

Lemma returns_getStream (x : nat) (o : Obj) (s : StreamAttrs)
      (post : StreamAttrs -> Heap -> Prop) (h : Heap) :
  objs h !! x = Some o -> body o = Container s -> post s h ->
  returns (getStream x) post h.
Proof.
  intros Hx Hb Hp. exists s, h. split; [by eapply getStream_Some | exact Hp].
Qed.

Lemma returns_putStream (x : nat) (o : Obj) (s : StreamAttrs)
      (post : unit -> Heap -> Prop) (h : Heap) :
  objs h !! x = Some o ->
  post tt (mkHeap (<[x := mkObj (classOf o) (priority o) (locations o)
                              (parent o) (Container s)]> (objs h))
                  (lists h) (next h)) ->
  returns (putStream x s) post h.
Proof.
  intros Hx Hp. unfold putStream. apply returns_bind.
  eapply returns_getObj; [exact Hx|]. by apply returns_putObj.
Qed.

Lemma returns_modifyStream (x : nat) (o : Obj) (s : StreamAttrs)
      (f : StreamAttrs -> StreamAttrs)
      (post : unit -> Heap -> Prop) (h : Heap) :
  objs h !! x = Some o -> body o = Container s ->
  post tt (mkHeap (<[x := mkObj (classOf o) (priority o) (locations o)
                              (parent o) (Container (f s))]> (objs h))
                  (lists h) (next h)) ->
  returns (modifyStream x f) post h.
Proof.
  intros Hx Hb Hp. unfold modifyStream. apply returns_bind.
  eapply returns_getStream; [exact Hx | exact Hb|].
  by eapply returns_putStream.
Qed.

Lemma returns_locations_add (x : nat) (o : Obj) (q : Q) (site : option nat)
      (post : unit -> Heap -> Prop) (h : Heap) :
  objs h !! x = Some o ->
  post tt (mkHeap (<[x := mkObj (classOf o) (priority o)
                              (<[site := q]> (locations o))
                              (parent o) (body o)]> (objs h))
                  (lists h) (next h)) ->
  returns (locations_add x q site) post h.
Proof.
  intros Hx Hp. unfold locations_add. apply returns_bind.
  eapply returns_getObj; [exact Hx|]. by apply returns_putObj.
Qed.

Lemma returns_setParent (x : nat) (o : Obj) (site : option nat)
      (post : unit -> Heap -> Prop) (h : Heap) :
  objs h !! x = Some o ->
  post tt (mkHeap (<[x := mkObj (classOf o) (priority o) (locations o)
                              site (body o)]> (objs h))
                  (lists h) (next h)) ->
  returns (setParent x site) post h.
Proof.
  intros Hx Hp. unfold setParent. apply returns_bind.
  eapply returns_getObj; [exact Hx|]. by apply returns_putObj.
Qed.

Lemma returns_getOffsetBySite (x : nat) (o : Obj) (q : Q) (site : option nat)
      (post : Q -> Heap -> Prop) (h : Heap) :
  objs h !! x = Some o -> locations o !! site = Some q -> post q h ->
  returns (getOffsetBySite x site) post h.
Proof.
  intros Hx Hq Hp. unfold getOffsetBySite. apply returns_bind.
  eapply returns_getObj; [exact Hx|]. rewrite Hq. by apply returns_ret.
Qed.

Lemma returns_forEach {A} (I : Heap -> Prop) (l : list A) (body : A -> M unit)
      (post : unit -> Heap -> Prop) (h : Heap) :
  I h ->
  (forall x h0, x ∈ l -> I h0 -> returns (body x) (fun _ => I) h0) ->
  (forall h1, I h1 -> post tt h1) ->
  returns (forEach l body) post h.
Proof.
  intros HI Hbody Hpost.
  destruct (forEach_total I l body h HI) as (h' & Hrun & HI').
  - intros x h0 Hx H0. destruct (Hbody x h0 Hx H0) as ([] & h1 & ? & ?).
    by exists h1.
  - exists tt, h'. auto.
Qed.

Lemma returns_noneIsStream (l : list nat) (post : bool -> Heap -> Prop)
      (h : Heap) :
  (forall x, x ∈ l -> is_Some (objs h !! x)) ->
  (forall f, post f h) ->
  returns (noneIsStream l) post h.
Proof.
  intros Hl Hp. destruct (noneIsStream_total h l Hl) as [f Hf].
  exists f, h. auto.
Qed.

(** ** What [sorted] does to the store *)

Lemma getSorted_result (h : Heap) (self : nat) (keyed : list Keyed) :
  wfHeap h -> keysIn h self = Some keyed ->
  exists h',
    _getSorted self h = Ok (next h) h' /\
    isSortedIn h' (next h) = Some true /\
    elementsIn h' (next h) = Some (keyElement <$> list_sort sortedCmp keyed) /\
    elementsIn h' self = Some (keyElement <$> list_sort sortedCmp keyed) /\
    listIdIn h' (next h) = listIdIn h self.
Proof.
  intros [Hwo Hwl] Hk. unfold keysIn in Hk.
  destruct (elementsIn h self) as [v|] eqn:Hv; simpl in Hk; [|discriminate].
  apply elementsIn_Some in Hv as (o & s & Ho & Hb & Hl).
  set (sl := keyElement <$> list_sort sortedCmp keyed).
  set (y := next h).
  assert (Hsl : forall x, x ∈ sl ->
            exists ox, objs h !! x = Some ox /\
                       is_Some (locations ox !! Some self)).
  { intros x Hx. apply (mapM_keyIn_site h self v keyed); [exact Hk|].
    rewrite <- (mapM_keyIn_elements _ _ _ _ Hk).
    unfold sl in Hx. rewrite list_sort_perm in Hx. exact Hx. }
  assert (Hself : self <> y).
  { assert (self < y)%nat by (apply Hwo; by rewrite Ho). lia. }
  assert (Hlt : forall x, x ∈ sl -> x <> y).
  { intros x Hx. destruct (Hsl x Hx) as (ox & Hox & _).
    assert (x < y)%nat by (apply Hwo; by rewrite Hox). lia. }
  destruct o as [c p loc par b]. simpl in Hb. subst b.
  destruct s as [post ud srt flt fro ch]. simpl in Hl.
  cut (returns (_getSorted self)
         (fun a h' => a = y /\
            isSortedIn h' y = Some true /\
            elementsIn h' y = Some sl /\
            elementsIn h' self = Some sl /\
            listIdIn h' y = listIdIn h self) h).
  { intros (a & h' & Hrun & -> & H). by exists h'. }
  unfold _getSorted. apply returns_bind.
  unfold _getElements. apply returns_bind.
  eapply returns_getStream; [exact Ho | reflexivity|]. apply returns_ret.
  cbn [_elements].
  apply returns_bind. eapply returns_getList; [exact Hl|].
  apply returns_bind. exists keyed, h. split; [by apply mapM_keyOf|].
  apply returns_bind. apply returns_putList. fold sl.
  apply returns_bind. unfold copy_copy. apply returns_bind.
  eapply returns_getObj; [exact Ho|].
  apply returns_bind. apply returns_fresh.
  apply returns_bind. apply returns_putObj. apply returns_ret. cbn [objs lists next].
  fold y.
  apply returns_bind. unfold _setElements. apply returns_bind.
  eapply returns_modifyStream; [apply lookup_insert_eq | reflexivity|].
  cbn [objs lists next classOf priority locations parent set_elements
       _elements _unlinkedDuration isSorted isFlat flattenedRepresentationOf _cache].
  unfold _elementsChanged. apply returns_bind.
  eapply returns_getStream; [apply lookup_insert_eq | reflexivity|].
  apply returns_bind. eapply returns_getList; [apply lookup_insert_eq|].
  apply returns_bind. apply returns_noneIsStream.
  { intros x Hx. destruct (Hsl x Hx) as (ox & Hox & _). cbn [objs].
    rewrite !lookup_insert_ne by (symmetry; by apply Hlt). by rewrite Hox. }
  intros f.
  eapply returns_putStream; [apply lookup_insert_eq|].
  cbn [objs lists next classOf priority locations parent set_cache set_isFlat
       set_isSorted _elements _unlinkedDuration isSorted isFlat
       flattenedRepresentationOf _cache].
  match goal with |- returns _ _ ?hh => set (h3 := hh) end.
  assert (exists oy, objs h3 !! y = Some oy /\
            body oy = Container (mkStreamAttrs post ud false f fro defHash))
    as (oy & Hy3 & Hby).
  { eexists. split; [apply lookup_insert_eq | reflexivity]. }
  assert (Hl3 : lists h3 !! post = Some sl) by apply lookup_insert_eq.
  set (I := fun h0 : Heap =>
              lists h0 = lists h3 /\
              objs h0 !! y = Some oy /\
              (forall x, x <> y ->
                 match objs h !! x, objs h0 !! x with
                 | Some o1, Some o2 =>
                     body o2 = body o1 /\
                     (forall site, is_Some (locations o1 !! site) ->
                                   is_Some (locations o2 !! site))
                 | None, None => True
                 | _, _ => False
                 end)).
  assert (HI3 : I h3).
  { split; [reflexivity|]. split; [exact Hy3|].
    intros x Hxy. unfold h3. cbn [objs].
    rewrite !lookup_insert_ne by done.
    destruct (objs h !! x); [split; [reflexivity | tauto] | exact Logic.I]. }
  clearbody h3.
  apply returns_bind. eapply returns_getList; [exact Hl3|].
  apply returns_bind. apply (returns_forEach I); [exact HI3 | |].
  - intros x h0 Hx (HIl & HIy & HIo).
    destruct (Hsl x Hx) as (ox & Hox & Hsite).
    pose proof (Hlt x Hx) as Hxy.
    pose proof (HIo x Hxy) as Hx0. rewrite Hox in Hx0.
    destruct (objs h0 !! x) as [o2|] eqn:Ho2; [|contradiction].
    destruct Hx0 as [Hbody Hsites].
    destruct (Hsites _ Hsite) as [q Hq].
    apply returns_bind.
    eapply returns_getOffsetBySite; [exact Ho2 | exact Hq|].
    apply returns_bind.
    eapply returns_locations_add; [exact Ho2|].
    eapply returns_setParent; [apply lookup_insert_eq|].
    cbn [objs lists next classOf priority locations parent body].
    split; [exact HIl|]. cbn [objs]. split.
    + rewrite !lookup_insert_ne by done. exact HIy.
    + intros x' Hx'y. destruct (decide (x' = x)) as [->|Hne].
      * rewrite Hox, !lookup_insert_eq. cbn [body locations].
        split; [exact Hbody|].
        intros site Hs. destruct (decide (site = Some y)) as [->|Hsy].
        -- by rewrite lookup_insert_eq.
        -- rewrite lookup_insert_ne by done. by apply Hsites.
      * rewrite !lookup_insert_ne by done. by apply HIo.
  - intros h1 (HIl & HIy & HIo).
    apply returns_bind.
    eapply returns_modifyStream; [exact HIy | exact Hby|].
    apply returns_ret. split; [reflexivity|].
    unfold isSortedIn, elementsIn, listIdIn, streamIn.
    cbn [objs lists next].
    rewrite !lookup_insert_eq. cbn.
    rewrite HIl, Hl3.
    split; [reflexivity|]. split; [reflexivity|].
    rewrite lookup_insert_ne by done.
    pose proof (HIo self Hself) as Hs. rewrite Ho in Hs.
    destruct (objs h1 !! self) as [o2|]; [|contradiction].
    destruct Hs as [Hs _]. cbn in Hs |- *. rewrite Hs. cbn.
    split; [exact Hl3|]. by rewrite Ho.
Qed.

(** C2, amended.  For every container whose elements all have a site for
    it, [sorted] returns a container marked sorted whose element list is
    the source's list in the strict order by (offset, explicit priority,
    position in the source's list); the class of an element is not part of
    the key.  Two containers with the same set of (offset, priority,
    object) keys get the same sorted order when no two of the keys agree on
    both offset and priority. *)
Theorem sorted_orders_by_offset_priority_position
        (h : Heap) (self : nat) (keyed : list Keyed) :
  wfHeap h -> keysIn h self = Some keyed ->
  exists y h' ks,
    _getSorted self h = Ok y h' /\
    isSortedIn h' y = Some true /\
    elementsIn h' y = Some (keyElement <$> ks.*1) /\
    ks ≡ₚ withPosition keyed /\
    StronglySorted canonicalLt ks /\
    (forall h2 self2 keyed2 y2 h2',
        wfHeap h2 -> keysIn h2 self2 = Some keyed2 ->
        noTies keyed -> keyed2 ≡ₚ keyed ->
        _getSorted self2 h2 = Ok y2 h2' ->
        elementsIn h2' y2 = elementsIn h' y).
Proof.
  intros Hwf Hk.
  destruct (getSorted_result h self keyed Hwf Hk)
    as (h' & Hrun & Hsorted & Hels & _ & _).
  exists (next h), h',
    (list_sort (fun a b => sortedCmp (fst a) (fst b)) (withPosition keyed)).
  split; [exact Hrun|]. split; [exact Hsorted|].
  split; [by rewrite list_sort_fst, withPosition_fst|].
  split; [apply list_sort_perm|].
  split; [apply list_sort_canonical, withPosition_increasing|].
  intros h2 self2 keyed2 y2 h2' Hwf2 Hk2 Hnt Hp Hrun2.
  destruct (getSorted_result h2 self2 keyed2 Hwf2 Hk2)
    as (h2'' & Hrun2' & _ & Hels2 & _ & _).
  rewrite Hrun2 in Hrun2'. injection Hrun2' as -> ->.
  rewrite Hels, Hels2. by rewrite (list_sort_order_independent keyed keyed2).
Qed.

Lemma wfHeap_decide (h : Heap) :
  bool_decide (map_Forall (fun x _ => (x < next h)%nat) (objs h)) = true ->
  bool_decide (map_Forall (fun x _ => (x < next h)%nat) (lists h)) = true ->
  wfHeap h.
Proof.
  intros H1 H2. apply bool_decide_eq_true in H1, H2.
  split; intros x [v Hx]; [exact (H1 x v Hx) | exact (H2 x v Hx)].
Qed.

Lemma sorted_orders_by_offset_priority_position_witness :
  exists s h,
    streamOfNotes [(2, 1); (0, 1); (1, 1)] emptyHeap = Ok s h /\
    wfHeap h /\
    keysIn h s = Some [(2, 0%Z, 2%nat); (0, 0%Z, 3%nat); (1, 0%Z, 4%nat)] /\
    exists y h' ks,
      _getSorted s h = Ok y h' /\
      isSortedIn h' y = Some true /\
      elementsIn h' y = Some (keyElement <$> ks.*1) /\
      ks ≡ₚ withPosition [(2, 0%Z, 2%nat); (0, 0%Z, 3%nat); (1, 0%Z, 4%nat)] /\
      StronglySorted canonicalLt ks /\
      (forall h2 self2 keyed2 y2 h2',
          wfHeap h2 -> keysIn h2 self2 = Some keyed2 ->
          noTies [(2, 0%Z, 2%nat); (0, 0%Z, 3%nat); (1, 0%Z, 4%nat)] ->
          keyed2 ≡ₚ [(2, 0%Z, 2%nat); (0, 0%Z, 3%nat); (1, 0%Z, 4%nat)] ->
          _getSorted self2 h2 = Ok y2 h2' ->
          elementsIn h2' y2 = elementsIn h' y).
Proof.
  eexists _, _. split; [vm_compute; reflexivity|].
  split; [apply wfHeap_decide; vm_compute; reflexivity|].
  split; [vm_compute; reflexivity|].
  apply sorted_orders_by_offset_priority_position.
  - apply wfHeap_decide; vm_compute; reflexivity.
  - vm_compute. reflexivity.
Defined.


(** ** What reading [highestTime] changes *)

Lemma sameButCache_refl (b : Body) : sameButCache b b.
Proof. destruct b; simpl; auto. Qed.

Lemma sameButCache_trans (b1 b2 b3 : Body) :
  sameButCache b1 b2 -> sameButCache b2 b3 -> sameButCache b1 b3.
Proof.
  destruct b1, b2, b3; simpl; try tauto; try congruence.
  intros (-> & -> & -> & -> & ->) (-> & -> & -> & -> & ->). auto.
Qed.

Lemma cacheOnly_refl (h : Heap) : cacheOnly h h.
Proof.
  split; [reflexivity|]. split; [reflexivity|].
  intros x. destruct (objs h !! x); [|exact I].
  split; [reflexivity|]. split; [reflexivity|]. split; [reflexivity|].
  apply sameButCache_refl.
Qed.

Lemma cacheOnly_trans (h1 h2 h3 : Heap) :
  cacheOnly h1 h2 -> cacheOnly h2 h3 -> cacheOnly h1 h3.
Proof.
  intros (Hl & Hn & Ho) (Hl' & Hn' & Ho').
  split; [congruence|]. split; [congruence|].
  intros x. specialize (Ho x). specialize (Ho' x).
  destruct (objs h1 !! x), (objs h2 !! x), (objs h3 !! x); try tauto.
  destruct Ho as (Hc & Hp & Hloc & Hb), Ho' as (Hc' & Hp' & Hloc' & Hb').
  split; [congruence|]. split; [congruence|]. split; [congruence|].
  eapply sameButCache_trans; eassumption.
Qed.

#[local] Instance cacheOnly_preorder : PreOrder cacheOnly.
Proof. split; [exact cacheOnly_refl | exact cacheOnly_trans]. Qed.

Lemma ret_Ok {A} (a b : A) (h h' : Heap) : ret a h = Ok b h' -> a = b /\ h = h'.
Proof. by intros [= -> ->]. Qed.

Lemma getObj_Ok (x : nat) (h h' : Heap) (o : Obj) :
  getObj x h = Ok o h' -> h' = h /\ objs h !! x = Some o.
Proof.
  unfold getObj. destruct (objs h !! x); [|discriminate]. by intros [= -> ->].
Qed.

Lemma getList_Ok (l : nat) (h h' : Heap) (v : list nat) :
  getList l h = Ok v h' -> h' = h /\ lists h !! l = Some v.
Proof.
  unfold getList. destruct (lists h !! l); [|discriminate]. by intros [= -> ->].
Qed.

Lemma getStream_Ok (x : nat) (h h' : Heap) (s : StreamAttrs) :
  getStream x h = Ok s h' -> h' = h /\ streamIn h x = Some s.
Proof.
  unfold getStream, streamIn. intros H.
  apply bind_Ok in H as (o & h1 & Ho & H).
  apply getObj_Ok in Ho as [-> Ho]. rewrite Ho. simpl.
  destruct (body o); [discriminate|]. by apply ret_Ok in H as [-> ->].
Qed.

Lemma getOffsetBySite_Ok (x : nat) (site : option nat) (h h' : Heap) (q : Q) :
  getOffsetBySite x site h = Ok q h' ->
  h' = h /\ exists o, objs h !! x = Some o /\ locations o !! site = Some q.
Proof.
  unfold getOffsetBySite. intros H.
  apply bind_Ok in H as (o & h1 & Ho & H).
  apply getObj_Ok in Ho as [-> Ho].
  destruct (locations o !! site) eqn:E; [|discriminate].
  apply ret_Ok in H as [-> ->]. split; [reflexivity|]. by exists o.
Qed.

(** An object replaced by one with the same class, priority and sites and
    the same body up to the cache. *)
Lemma putObj_cacheOnly (x : nat) (o o' : Obj) (h : Heap) :
  objs h !! x = Some o ->
  classOf o' = classOf o -> priority o' = priority o ->
  locations o' = locations o -> sameButCache (body o) (body o') ->
  cacheOnly h (mkHeap (<[x := o']> (objs h)) (lists h) (next h)).
Proof.
  intros Hx Hc Hp Hl Hb. split; [reflexivity|]. split; [reflexivity|].
  intros y. cbn [objs]. destruct (decide (y = x)) as [->|Hne].
  - rewrite Hx, lookup_insert_eq. auto.
  - rewrite lookup_insert_ne by done. destruct (objs h !! y); [|exact I].
    split; [reflexivity|]. split; [reflexivity|]. split; [reflexivity|].
    apply sameButCache_refl.
Qed.

Lemma setParent_cacheOnly (x : nat) (p : option nat) (h h' : Heap) :
  setParent x p h = Ok tt h' -> cacheOnly h h'.
Proof.
  unfold setParent, putObj. intros H.
  apply bind_Ok in H as (o & h1 & Ho & H).
  apply getObj_Ok in Ho as [-> Ho]. injection H as <-.
  apply (putObj_cacheOnly x o); auto. apply sameButCache_refl.
Qed.

Lemma modifyStream_cacheOnly (x : nat) (c : Cache -> Cache) (h h' : Heap) :
  modifyStream x (fun s => set_cache (c (_cache s)) s) h = Ok tt h' ->
  cacheOnly h h' /\
  exists s, streamIn h x = Some s /\
            streamIn h' x = Some (set_cache (c (_cache s)) s).
Proof.
  unfold modifyStream, putStream, putObj. intros H.
  apply bind_Ok in H as (s & h1 & Hs & H).
  apply getStream_Ok in Hs as [-> Hs].
  apply bind_Ok in H as (o & h1 & Ho & H).
  apply getObj_Ok in Ho as [-> Ho]. injection H as <-.
  pose proof Hs as Hs'. unfold streamIn in Hs'. rewrite Ho in Hs'. simpl in Hs'.
  destruct (body o) as [|s0] eqn:Hb; [discriminate|]. injection Hs' as ->.
  split.
  - apply (putObj_cacheOnly x o); auto. rewrite Hb. simpl. auto.
  - exists s. split; [exact Hs|]. unfold streamIn. cbn [objs].
    by rewrite lookup_insert_eq.
Qed.

Lemma foldM_preserves {A S} (R : relation Heap) `{!PreOrder R}
      (l : list A) (body : S -> A -> M S) :
  (forall a x h0 r0 h1, body a x h0 = Ok r0 h1 -> R h0 h1) ->
  forall acc h r h', foldM l acc body h = Ok r h' -> R h h'.
Proof.
  intros Hbody. induction l as [|x l IH]; intros acc h r h' H; simpl in H.
  - apply ret_Ok in H as [_ ->]. reflexivity.
  - apply bind_Ok in H as (a & h1 & Hx & H).
    transitivity h1; [by eapply Hbody | by eapply IH].
Qed.

Lemma forEach_preserves {A} (R : relation Heap) `{!PreOrder R}
      (l : list A) (body : A -> M unit) :
  (forall x h0 h1, x ∈ l -> body x h0 = Ok tt h1 -> R h0 h1) ->
  forall h h', forEach l body h = Ok tt h' -> R h h'.
Proof.
  induction l as [|x l IH]; intros Hbody h h' H; simpl in H.
  - apply ret_Ok in H as [_ ->]. reflexivity.
  - apply bind_Ok in H as ([] & h1 & Hx & H).
    transitivity h1; [eapply Hbody; [by left | exact Hx]|].
    eapply IH; [|exact H]. intros y h0 h2 Hy. apply Hbody. by right.
Qed.

Lemma elementsOf_Ok (self : nat) (h h' : Heap) (v : list nat) :
  elementsOf self h = Ok v h' -> h' = h /\ elementsIn h self = Some v.
Proof.
  unfold elementsOf, _getElements. intros H.
  apply bind_Ok in H as (l & h1 & Hl & H).
  apply bind_Ok in Hl as (s & h2 & Hs & Hl).
  apply getStream_Ok in Hs as [-> Hs].
  apply ret_Ok in Hl as [<- <-].
  apply getList_Ok in H as [-> H]. split; [reflexivity|].
  apply streamIn_Some in Hs as (o & Ho & Hb).
  unfold elementsIn. rewrite Ho. simpl. by rewrite Hb.
Qed.

Lemma quarterLengthOf_cacheOnly (rec : nat -> M Q) :
  (forall x h t h', rec x h = Ok t h' -> cacheOnly h h') ->
  forall x h d h', quarterLengthOf rec x h = Ok d h' -> cacheOnly h h'.
Proof.
  intros Hrec x h d h' H. unfold quarterLengthOf in H.
  apply bind_Ok in H as (o & h1 & Ho & H).
  apply getObj_Ok in Ho as [-> Ho].
  destruct (body o) as [d0|s]; [apply ret_Ok in H as [_ ->]; reflexivity|].
  destruct (_unlinkedDuration s); [apply ret_Ok in H as [_ ->]; reflexivity|].
  destruct (CachedDuration (_cache s));
    [apply ret_Ok in H as [_ ->]; reflexivity|].
  apply bind_Ok in H as (t & h1 & Ht & H).
  apply bind_Ok in H as ([] & h2 & Hm & H).
  apply ret_Ok in H as [_ ->].
  transitivity h1; [by eapply Hrec|].
  by apply (modifyStream_cacheOnly x (set_CachedDuration (Some t))) in Hm as [? _].
Qed.

Lemma getHighestTime_cacheOnly (fuel : nat) :
  forall self h t h',
    _getHighestTime fuel self h = Ok t h' ->
    cacheOnly h h' /\ HighestTime <$> cacheIn h' self = Some (Some t).
Proof.
  induction fuel as [|fuel IH]; intros self h t h' H; simpl in H;
    [discriminate|].
  apply bind_Ok in H as (s & h1 & Hs & H).
  apply getStream_Ok in Hs as [-> Hs].
  destruct (HighestTime (_cache s)) as [t0|] eqn:Hc.
  { apply ret_Ok in H as [-> ->]. split; [reflexivity|].
    unfold cacheIn. rewrite Hs. simpl. by rewrite Hc. }
  apply bind_Ok in H as (v & h1 & Hv & H).
  apply getList_Ok in Hv as [-> Hv].
  apply bind_Ok in H as (t1 & h1 & Ht & H).
  apply bind_Ok in H as ([] & h2 & Hm & H).
  apply ret_Ok in H as [-> ->].
  apply (modifyStream_cacheOnly self (set_HighestTime (Some t))) in Hm
    as (Hm & s' & Hs1 & Hs2).
  assert (Hrec : forall x h t h',
             quarterLengthOf (_getHighestTime fuel) x h = Ok t h' ->
             cacheOnly h h').
  { apply quarterLengthOf_cacheOnly. intros x h0 t0 h0' H0.
    by apply IH in H0 as [? _]. }
  split.
  - transitivity h1; [|exact Hm]. clear Hm Hs1 Hs2.
    destruct (length v =? 0)%nat; [apply ret_Ok in Ht as [_ ->]; reflexivity|].
    destruct (isSorted s).
    + apply bind_Ok in Ht as (lastEl & h2 & Hlast & Ht).
      assert (h2 = h) as ->.
      { unfold lastOf in Hlast. destruct (last v); [|discriminate].
        by apply ret_Ok in Hlast as [_ ->]. }
      apply bind_Ok in Ht as (d & h2 & Hd & Ht).
      apply bind_Ok in Ht as (o & h3 & Ho & Ht).
      apply getOffsetBySite_Ok in Ho as [-> _].
      apply ret_Ok in Ht as [_ ->]. by eapply Hrec.
    + apply bind_Ok in Ht as (m & h2 & Hfold & Ht).
      assert (h1 = h2) as ->.
      { destruct m; [by apply ret_Ok in Ht as [_ ->] | discriminate]. }
      unfold foldIn in Hfold.
      apply bind_Ok in Hfold as (l & h3 & Hl & Hfold).
      apply elementsOf_Ok in Hl as [-> _].
      eapply (foldM_preserves cacheOnly); [|exact Hfold].
      intros a x h0 r0 h4 Hbody.
      apply bind_Ok in Hbody as ([] & h5 & Hp & Hbody).
      apply bind_Ok in Hbody as (d & h6 & Hd & Hbody).
      apply bind_Ok in Hbody as (o & h7 & Ho & Hbody).
      apply getOffsetBySite_Ok in Ho as [-> _].
      apply ret_Ok in Hbody as [_ ->].
      transitivity h5; [by eapply setParent_cacheOnly | by eapply Hrec].
  - unfold cacheIn. rewrite Hs2. reflexivity.
Qed.

(** ** What a change of caches keeps *)

Lemma cacheOnly_streamIn (h h' : Heap) (x : nat) (s : StreamAttrs) :
  cacheOnly h h' -> streamIn h x = Some s ->
  exists s', streamIn h' x = Some s' /\
             _elements s' = _elements s /\ isSorted s' = isSorted s /\
             isFlat s' = isFlat s.
Proof.
  intros (_ & _ & Ho) Hs. specialize (Ho x). unfold streamIn in *.
  destruct (objs h !! x) as [o|]; simpl in Hs; [|discriminate].
  destruct (objs h' !! x) as [o'|]; [|contradiction].
  destruct Ho as (_ & _ & _ & Hb). simpl.
  destruct (body o) as [|s0]; [discriminate|]. injection Hs as ->.
  destruct (body o') as [|s']; simpl in Hb; [contradiction|].
  exists s'. tauto.
Qed.

Lemma cacheOnly_is_Some (h h' : Heap) (x : nat) :
  cacheOnly h h' -> is_Some (objs h !! x) -> is_Some (objs h' !! x).
Proof.
  intros (_ & _ & Ho) [o Hx]. specialize (Ho x). rewrite Hx in Ho.
  destruct (objs h' !! x); [by eexists | contradiction].
Qed.

(** ** [insert] from any state of a sorted container *)



(** ** Reading [highestTime] with and without the site of [x] at [C] *)

Section site_of_x.
Variables x C : nat.











End site_of_x.




(** The site is registered before the test: [s.insert(0, x);
    s.insert(5, x)] for a note [x] of quarter length 1 leaves [isSorted]
    false, although [highestTime] was 1 before the second call. *)
Lemma reinserting_the_last_element_unsorts :
  valueOf (reinsertLast emptyHeap) = Some (1, true, false) /\ 1 <= 5.
Proof. split; [vm_compute; reflexivity | lra]. Qed.

(** ** The overlap test *)

Lemma cmpSpan_neg (x y : DurSpan) :
  (cmpSpan x y <? 0)%Z = true <->
  (fst x < fst y \/ (fst x == fst y /\ snd x < snd y)).
Proof.
  unfold cmpSpan, orZ.
  destruct (Z.eqb_spec (cmpQ (fst x) (fst y)) 0) as [E|E].
  - apply cmpQ_zero in E. rewrite cmpQ_neg. split; [intros; right; tauto|].
    intros [H|[_ H]]; [lra | exact H].
  - rewrite cmpQ_neg. split; [tauto|].
    intros [H|[H _]]; [exact H|]. apply cmpQ_zero in H. contradiction.
Qed.

Lemma Qmax_lt (a b c : Q) : Qmax a b < c <-> a < c /\ b < c.
Proof.
  unfold Qmax. destruct (Qle_bool a b) eqn:E.
  - apply Qle_bool_iff in E. split; [intros; split; lra | tauto].
  - apply Qle_bool_false_iff in E. split; [intros; split; lra | tauto].
Qed.

Lemma Qlt_min (a b c : Q) : c < Qmin a b <-> c < a /\ c < b.
Proof.
  unfold Qmin. destruct (Qle_bool a b) eqn:E.
  - apply Qle_bool_iff in E. split; [intros; split; lra | tauto].
  - apply Qle_bool_false_iff in E. split; [intros; split; lra | tauto].
Qed.

Lemma spansIntersect_iff (a b : DurSpan) :
  spansIntersect a b <->
  fst a < snd a /\ fst a < snd b /\ fst b < snd a /\ fst b < snd b.
Proof. unfold spansIntersect. rewrite Qmax_lt, !Qlt_min. tauto. Qed.

(** What the test computes: with the two spans in lexicographic order, the
    second starts before the end of the first. *)
Lemma durSpanOverlap_unfold (a b : DurSpan) (flag : bool) :
  _durSpanOverlap a b flag =
  if (cmpSpan b a <? 0)%Z
  then (if flag then Qle_bool (fst a) (snd b) else Qlt_bool (fst a) (snd b))
  else (if flag then Qle_bool (fst b) (snd a) else Qlt_bool (fst b) (snd a)).
Proof.
  unfold _durSpanOverlap. simpl. by destruct (cmpSpan b a <? 0)%Z.
Qed.

(** C8 fails as stated: the point span at 5 and the span from 0 to 10 are
    reported as overlapping, where [max(starts) < min(ends)] is [5 < 5]. *)
Lemma point_inside_span_overlaps :
  _durSpanOverlap (0, 10) (5, 5) false = true /\
  ~ spansIntersect (0, 10) (5, 5).
Proof.
  split; [reflexivity|]. rewrite spansIntersect_iff. simpl. lra.
Qed.

(** C8, amended.  For spans with start <= end, the test without the flag
    reports an overlap exactly when [max(starts) < min(ends)] or one span
    is a degenerate point strictly inside the other; with the flag set,
    spans that touch (the end of one is the start of the other) count in
    addition.  [0,12) and [11,14) overlap; [0,3) and [3,6) overlap only
    with the flag. *)
Theorem durSpanOverlap_characterised (a b : DurSpan) :
  fst a <= snd a -> fst b <= snd b ->
  (_durSpanOverlap a b false = true <->
     spansIntersect a b \/ pointInside a b \/ pointInside b a) /\
  (_durSpanOverlap a b true = true <->
     _durSpanOverlap a b false = true \/
     snd a == fst b \/ snd b == fst a) /\
  _durSpanOverlap (0, 12) (11, 14) false = true /\
  _durSpanOverlap (0, 3) (3, 6) false = false /\
  _durSpanOverlap (0, 3) (3, 6) true = true.
Proof.
  intros Ha Hb.
  split; [|split; [|split; [reflexivity | split; reflexivity]]].
  - rewrite durSpanOverlap_unfold, spansIntersect_iff. unfold pointInside.
    destruct (cmpSpan b a <? 0)%Z eqn:E.
    + apply cmpSpan_neg in E. rewrite Qlt_bool_iff.
      split; [intros H | intros [H|[H|H]]; lra].
      destruct (Qlt_le_dec (fst a) (snd a)) as [Hpos|Hpt].
      * destruct E as [E|[E E']]; [|left; lra].
        destruct (Qlt_le_dec (fst b) (snd b)); [left; lra|].
        exfalso. lra.
      * right; left. destruct E as [E|[E E']]; lra.
    + assert (~ (fst b < fst a \/ (fst b == fst a /\ snd b < snd a))) as E'.
      { intros H. apply cmpSpan_neg in H. congruence. }
      rewrite Qlt_bool_iff.
      split; [intros H | intros [H|[H|H]]; lra].
      destruct (Qlt_le_dec (fst b) (snd b)) as [Hpos|Hpt].
      * left. lra.
      * right; right.
        destruct (Qlt_le_dec (fst a) (fst b)); [lra|].
        exfalso. apply E'. destruct (Qlt_le_dec (fst b) (fst a)); [tauto|].
        right. split; lra.
  - rewrite !durSpanOverlap_unfold.
    destruct (cmpSpan b a <? 0)%Z eqn:E.
    + apply cmpSpan_neg in E. rewrite Qlt_bool_iff, Qle_bool_iff.
      split; [intros H | intros [H|[H|H]]; lra].
      destruct (Qlt_le_dec (fst a) (snd b)); [tauto | right; right; lra].
    + assert (~ (fst b < fst a \/ (fst b == fst a /\ snd b < snd a))) as E'.
      { intros H. apply cmpSpan_neg in H. congruence. }
      rewrite Qlt_bool_iff, Qle_bool_iff.
      split; [intros H | intros [H|[H|H]]; lra].
      destruct (Qlt_le_dec (fst b) (snd a)); [tauto | right; left; lra].
Qed.

Lemma durSpanOverlap_characterised_witness :
  0 <= 12 /\ 11 <= 14 /\
  (_durSpanOverlap (0, 12) (11, 14) false = true <->
     spansIntersect (0, 12) (11, 14) \/ pointInside (0, 12) (11, 14)
     \/ pointInside (11, 14) (0, 12)) /\
  (_durSpanOverlap (0, 12) (11, 14) true = true <->
     _durSpanOverlap (0, 12) (11, 14) false = true \/
     12 == 11 \/ 14 == 0).
Proof.
  assert (0 <= 12) as H1 by lra. assert (11 <= 14) as H2 by lra.
  split; [exact H1|]. split; [exact H2|].
  destruct (durSpanOverlap_characterised (0, 12) (11, 14) H1 H2)
    as (Ha & Hb & _).
  split; [exact Ha | exact Hb].
Defined.

(** ** The layering maps *)

(** C9, with durationless elements excluded
    ([includeDurationless=False]).  A durationless object and a note of
    quarter length 1, both at offset 0: index 0 is in the simultaneity
    list of element 1, and the list of element 0 is empty.  A note of
    quarter length 3 at offset 0 and a durationless object at offset 1:
    index 1 is in the overlap list of element 0, and the list of element 1
    is empty.  The rows of the durationless elements are skipped, but the
    other rows still list them. *)
Theorem findLayering_not_symmetric_without_durationless :
  valueOf (layeringOfObjects
             [(C_Music21Object, None, 0); (C_Note, Some 1, 0)]
             false false emptyHeap)
  = Some ([[]; [0%nat]], [[]; []]) /\
  valueOf (layeringOfObjects
             [(C_Note, Some 3, 0); (C_Music21Object, None, 1)]
             false false emptyHeap)
  = Some ([[]; []], [[1%nat]; []]).
Proof. split; vm_compute; reflexivity. Qed.
(** ** The overlap test and the layering maps, in general *)

Lemma durSpanOverlap_comm (a b : DurSpan) (flag : bool) :
  _durSpanOverlap a b flag = _durSpanOverlap b a flag.
Proof.
  rewrite (durSpanOverlap_unfold a b), (durSpanOverlap_unfold b a).
  destruct (cmpSpan b a <? 0)%Z eqn:E1, (cmpSpan a b <? 0)%Z eqn:E2;
    try reflexivity.
  - apply cmpSpan_neg in E1, E2. exfalso. lra.
  - assert (~ (fst b < fst a \/ (fst b == fst a /\ snd b < snd a))) as N1
      by (intros H; apply cmpSpan_neg in H; congruence).
    assert (~ (fst a < fst b \/ (fst a == fst b /\ snd a < snd b))) as N2
      by (intros H; apply cmpSpan_neg in H; congruence).
    assert (fst a == fst b) as Hf by lra.
    assert (snd a == snd b) as Hs by lra.
    destruct flag.
    + destruct (Qle_bool (fst b) (snd a)) eqn:L1,
               (Qle_bool (fst a) (snd b)) eqn:L2; try reflexivity.
      * apply Qle_bool_iff in L1. apply Qle_bool_false_iff in L2. lra.
      * apply Qle_bool_iff in L2. apply Qle_bool_false_iff in L1. lra.
    + destruct (Qlt_bool (fst b) (snd a)) eqn:L1,
               (Qlt_bool (fst a) (snd b)) eqn:L2; try reflexivity.
      * apply Qlt_bool_iff in L1.
        assert (~ fst a < snd b) by (intros H; apply Qlt_bool_iff in H; congruence).
        lra.
      * apply Qlt_bool_iff in L2.
        assert (~ fst b < snd a) by (intros H; apply Qlt_bool_iff in H; congruence).
        lra.
Qed.

(** The overlap test does not depend on the order of its two spans. *)
Theorem durSpanOverlap_symmetric (a b : DurSpan) (flag : bool) :
  _durSpanOverlap a b flag = _durSpanOverlap b a flag.
Proof. apply durSpanOverlap_comm. Qed.

Lemma layeringRow_spec (spans : list DurSpan) (flag : bool) (i : nat)
      (src : DurSpan) (j : nat) :
  (j ∈ fst (layeringRow spans flag i src) <->
   j <> i /\ exists dst, spans !! j = Some dst /\
                        Qeq_bool (fst src) (fst dst) = true) /\
  (j ∈ snd (layeringRow spans flag i src) <->
   j <> i /\ exists dst, spans !! j = Some dst /\
                        _durSpanOverlap src dst flag = true).
Proof.
  unfold layeringRow.
  induction spans as [|x spans IH] using rev_ind.
  - cbn. split; (split; [intros H; inversion H|intros (_ & dst & H & _); done]).
  - rewrite imap_app, fold_left_app. cbn [imap fold_left fst snd].
    rewrite Nat.add_0_r.
    set (acc := fold_left _ _ _) in *.
    destruct IH as [IH1 IH2].
    assert (forall P : DurSpan -> Prop,
               (exists dst, (spans ++ [x]) !! j = Some dst /\ P dst) <->
               (exists dst, spans !! j = Some dst /\ P dst) \/
               (j = length spans /\ P x)) as Hsnoc.
    { intros P. split.
      - intros (dst & Hd & HP).
        apply lookup_snoc_Some in Hd as [[_ Hd]|[-> ->]]; [left|right]; eauto.
      - intros [(dst & Hd & HP)|[-> HP]].
        + exists dst. split; [|done]. apply lookup_app_l_Some. done.
        + exists x. split; [|done]. by rewrite list_lookup_middle. }
    destruct (Nat.eqb_spec (length spans) i) as [Ei|Ei].
    + split.
      * rewrite IH1, (Hsnoc (fun dst => Qeq_bool (fst src) (fst dst) = true)).
        split; [tauto|]. intros [Hne [H|[-> _]]]; [tauto|congruence].
      * rewrite IH2, (Hsnoc (fun dst => _durSpanOverlap src dst flag = true)).
        split; [tauto|]. intros [Hne [H|[-> _]]]; [tauto|congruence].
    + cbn [fst snd]. split.
      * rewrite (Hsnoc (fun dst => Qeq_bool (fst src) (fst dst) = true)).
        destruct (Qeq_bool (fst src) (fst x)) eqn:E.
        -- rewrite elem_of_app, list_elem_of_singleton, IH1.
           split; [intros [H| ->]; [tauto|split; [done|by right]]|].
           intros [Hne [H|[-> _]]]; [left; tauto|by right].
        -- rewrite IH1. split; [tauto|].
           intros [Hne [H|[_ H]]]; [tauto|discriminate].
      * rewrite (Hsnoc (fun dst => _durSpanOverlap src dst flag = true)).
        destruct (_durSpanOverlap src x flag) eqn:E.
        -- rewrite elem_of_app, list_elem_of_singleton, IH2.
           split; [intros [H| ->]; [tauto|split; [done|by right]]|].
           intros [Hne [H|[-> _]]]; [left; tauto|by right].
        -- rewrite IH2. split; [tauto|].
           intros [Hne [H|[_ H]]]; [tauto|discriminate].
Qed.

Lemma layeringOf_lookup (spans : list DurSpan) (dl : list bool)
      (incl flag : bool) (i : nat) (row : list nat) (second : bool) :
  (if second then snd (layeringOf spans dl incl flag)
   else fst (layeringOf spans dl incl flag)) !! i = Some row ->
  exists src, spans !! i = Some src /\
    row = (if negb incl && default false (dl !! i) then []
           else if second then snd (layeringRow spans flag i src)
                else fst (layeringRow spans flag i src)).
Proof.
  unfold layeringOf. intros H.
  assert (exists src, spans !! i = Some src) as [src Hsrc].
  { destruct (spans !! i) as [src|] eqn:E; [by eexists|].
    exfalso. apply lookup_ge_None in E.
    destruct second; cbn [fst snd] in H;
      apply lookup_lt_Some in H; rewrite length_map, length_imap in H; lia. }
  exists src. split; [done|].
  destruct second; cbn [fst snd] in H;
    rewrite (list_lookup_fmap _ _ i), list_lookup_imap, Hsrc in H;
    cbn in H; injection H as <-;
    by destruct (negb incl && default false (dl !! i)).
Qed.

(** No element is in its own list, in either map and whatever the
    configuration. *)
Theorem layering_self_excluded (spans : list DurSpan) (dl : list bool)
        (incl flag : bool) (i : nat) (row : list nat) :
  fst (layeringOf spans dl incl flag) !! i = Some row \/
  snd (layeringOf spans dl incl flag) !! i = Some row ->
  i ∉ row.
Proof.
  intros [H|H].
  - apply (layeringOf_lookup _ _ _ _ _ _ false) in H as (src & Hs & ->).
    destruct (negb incl && default false (dl !! i)); [apply not_elem_of_nil|].
    intros Hi. apply layeringRow_spec in Hi as [Hi _]. done.
  - apply (layeringOf_lookup _ _ _ _ _ _ true) in H as (src & Hs & ->).
    destruct (negb incl && default false (dl !! i)); [apply not_elem_of_nil|].
    intros Hi. apply layeringRow_spec in Hi as [Hi _]. done.
Qed.

Lemma layering_self_excluded_witness :
  (0%nat ∉ [1%nat; 2%nat]).
Proof.
  apply (layering_self_excluded [(0, 12); (11, 14); (3, 4)] [] true false 0).
  right. reflexivity.
Defined.

(** With the durationless elements included, the two maps are symmetric:
    [j] is in the list of [i] exactly when [i] is in the list of [j]. *)
Theorem layering_symmetric (spans : list DurSpan) (dl : list bool)
        (flag : bool) (i j : nat) (si sj oi oj : list nat) :
  fst (layeringOf spans dl true flag) !! i = Some si ->
  fst (layeringOf spans dl true flag) !! j = Some sj ->
  snd (layeringOf spans dl true flag) !! i = Some oi ->
  snd (layeringOf spans dl true flag) !! j = Some oj ->
  (j ∈ si <-> i ∈ sj) /\ (j ∈ oi <-> i ∈ oj).
Proof.
  intros H1 H2 H3 H4.
  apply (layeringOf_lookup _ _ _ _ _ _ false) in H1 as (a & Ha & ->).
  apply (layeringOf_lookup _ _ _ _ _ _ false) in H2 as (b & Hb & ->).
  apply (layeringOf_lookup _ _ _ _ _ _ true) in H3 as (a' & Ha' & ->).
  apply (layeringOf_lookup _ _ _ _ _ _ true) in H4 as (b' & Hb' & ->).
  rewrite Ha in Ha'. injection Ha' as <-.
  rewrite Hb in Hb'. injection Hb' as <-.
  cbn [negb andb].
  split.
  - destruct (layeringRow_spec spans flag i a j) as [-> _].
    destruct (layeringRow_spec spans flag j b i) as [-> _].
    split; intros [Hne (c & Hc & E)].
    + assert (c = b) as -> by (apply (inj Some); by etrans; [symmetry; exact Hc|]). split; [done|]. exists a.
      split; [done|]. apply Qeq_bool_iff in E. apply Qeq_bool_iff. lra.
    + assert (c = a) as -> by (apply (inj Some); by etrans; [symmetry; exact Hc|]). split; [done|]. exists b.
      split; [done|]. apply Qeq_bool_iff in E. apply Qeq_bool_iff. lra.
  - destruct (layeringRow_spec spans flag i a j) as [_ ->].
    destruct (layeringRow_spec spans flag j b i) as [_ ->].
    split; intros [Hne (c & Hc & E)].
    + assert (c = b) as -> by (apply (inj Some); by etrans; [symmetry; exact Hc|]). split; [done|]. exists a.
      split; [done|]. by rewrite durSpanOverlap_comm.
    + assert (c = a) as -> by (apply (inj Some); by etrans; [symmetry; exact Hc|]). split; [done|]. exists b.
      split; [done|]. by rewrite durSpanOverlap_comm.
Qed.

Lemma layering_symmetric_witness :
  (1%nat ∈ ([] : list nat) <-> 0%nat ∈ ([] : list nat)) /\
  (1%nat ∈ [1%nat] <-> 0%nat ∈ [0%nat]).
Proof.
  apply (layering_symmetric [(0, 12); (11, 14)] [] false 0 1); reflexivity.
Defined.
(** ** Frames *)

Lemma returns_det {A} (m : M A) (post : A -> Heap -> Prop) (h h' : Heap) (a : A) :
  m h = Ok a h' -> returns m post h -> post a h'.
Proof.
  intros Hm (a' & h'' & Hm' & Hp). rewrite Hm in Hm'. by injection Hm' as <- <-.
Qed.

Lemma framed_refl (PO PL : nat -> Prop) (h : Heap) : framed PO PL h h.
Proof.
  split; [reflexivity|]. intros x _. destruct (objs h !! x); [|exact I].
  split; [reflexivity|]. split; [reflexivity|].
  split; [apply sameButCache_refl|]. by intros site _.
Qed.

Lemma framed_trans (PO PL : nat -> Prop) (h1 h2 h3 : Heap) :
  framed PO PL h1 h2 -> framed PO PL h2 h3 -> framed PO PL h1 h3.
Proof.
  intros [Hl Ho] [Hl' Ho']. split.
  - intros l Hp. rewrite Hl', Hl; auto.
  - intros x Hp. specialize (Ho x Hp). specialize (Ho' x Hp).
    destruct (objs h1 !! x), (objs h2 !! x), (objs h3 !! x); try tauto.
    destruct Ho as (Hc & Hpr & Hb & Hs), Ho' as (Hc' & Hpr' & Hb' & Hs').
    split; [congruence|]. split; [congruence|].
    split; [eapply sameButCache_trans; eassumption|].
    intros site Hsite. rewrite Hs', Hs; auto.
Qed.

Lemma framed_weaken (PO PL PO' PL' : nat -> Prop) (h h' : Heap) :
  (forall x, PO' x -> PO x) -> (forall l, PL' l -> PL l) ->
  framed PO PL h h' -> framed PO' PL' h h'.
Proof.
  intros HO HL [Hl Ho]. split; [auto|].
  intros x Hp. specialize (Ho x (HO x Hp)).
  destruct (objs h !! x), (objs h' !! x); try tauto.
  destruct Ho as (Hc & Hpr & Hb & Hs). repeat (split; [assumption|]).
  intros site Hsite. apply Hs. destruct site; auto.
Qed.

Lemma cacheOnly_framed (PO PL : nat -> Prop) (h h' : Heap) :
  cacheOnly h h' -> framed PO PL h h'.
Proof.
  intros (Hl & _ & Ho). split; [intros l _; by rewrite Hl|].
  intros x _. specialize (Ho x).
  destruct (objs h !! x), (objs h' !! x); try tauto.
  destruct Ho as (Hc & Hpr & Hloc & Hb). repeat (split; [assumption|]).
  intros site _. by rewrite Hloc.
Qed.

(** [insert] into a container that is not marked sorted. *)
Lemma returns_insert_unsorted (fuel : nat) (N x : nat) (q : Q) (h : Heap)
      (oN ox : Obj) (s : StreamAttrs) (v : list nat) :
  objs h !! N = Some oN -> body oN = Container s -> isSorted s = false ->
  lists h !! _elements s = Some v ->
  (forall e, e ∈ v -> is_Some (objs h !! e)) ->
  objs h !! x = Some ox -> hasElements ox = false ->
  returns (insert fuel N q x)
    (fun _ h' =>
       next h' = next h /\
       (forall y, is_Some (objs h' !! y) <-> is_Some (objs h !! y)) /\
       (forall l, is_Some (lists h' !! l) <-> is_Some (lists h !! l)) /\
       framed (isNot N) (isNot (_elements s)) h h' /\
       (exists oN' s', objs h' !! N = Some oN' /\ body oN' = Container s' /\
                   _elements s' = _elements s /\ isSorted s' = false /\
                   classOf oN' = classOf oN /\ priority oN' = priority oN /\
                   locations oN' = locations oN) /\
       lists h' !! _elements s = Some (v ++ [x]) /\
       (exists ox', objs h' !! x = Some ox' /\ hasElements ox' = false /\
                    locations ox' !! Some N = Some q) /\
       (forall y, y <> x -> y <> N -> objs h' !! y = objs h !! y)) h.
Proof.
  intros HN HbN Hsrt Hv Hex Hx Hpl.
  assert (x <> N) as HxN.
  { intros ->. rewrite HN in Hx. injection Hx as <-.
    unfold hasElements in Hpl. by rewrite HbN in Hpl. }
  unfold insert. apply returns_bind.
  eapply returns_locations_add; [exact Hx|].
  apply returns_bind.
  eapply returns_setParent; [apply lookup_insert_eq|].
  cbn [objs lists next classOf priority locations parent body].
  rewrite insert_insert_eq.
  set (ox' := mkObj (classOf ox) (priority ox)
                    (<[Some N := q]> (locations ox)) (Some N) (body ox)).
  apply returns_bind.
  eapply returns_getStream;
    [cbn [objs]; rewrite lookup_insert_ne by done; exact HN | exact HbN|].
  rewrite Hsrt. apply returns_bind. apply returns_ret.
  apply returns_bind. unfold _getElements. apply returns_bind.
  eapply returns_getStream;
    [cbn [objs]; rewrite lookup_insert_ne by done; exact HN | exact HbN|].
  apply returns_ret.
  apply returns_bind. unfold list_append. apply returns_bind.
  eapply returns_getList; [exact Hv|]. apply returns_putList.
  cbn [objs lists next].
  apply returns_bind. unfold _elementsChanged. apply returns_bind.
  eapply returns_getStream;
    [cbn [objs]; rewrite lookup_insert_ne by done; exact HN | exact HbN|].
  apply returns_bind.
  eapply returns_getList; [apply lookup_insert_eq|].
  apply returns_bind. apply returns_noneIsStream.
  { intros e He. cbn [objs]. destruct (decide (e = x)) as [->|Hne];
      [by rewrite lookup_insert_eq|].
    rewrite lookup_insert_ne by done.
    apply elem_of_app in He as [He|He]; [by apply Hex|].
    apply list_elem_of_singleton in He. contradiction. }
  intros f.
  eapply returns_putStream;
    [cbn [objs]; rewrite lookup_insert_ne by done; exact HN|].
  eapply returns_modifyStream; [apply lookup_insert_eq | reflexivity|].
  cbn [objs lists next classOf priority locations parent body].
  rewrite insert_insert_eq.
  split; [reflexivity|].
  split.
  { intros y. destruct (decide (y = N)) as [->|HyN].
    - rewrite lookup_insert_eq, HN. split; intros _; by eexists.
    - rewrite lookup_insert_ne by done.
      destruct (decide (y = x)) as [->|Hyx].
      + rewrite lookup_insert_eq, Hx. split; intros _; by eexists.
      + by rewrite lookup_insert_ne by done. }
  split.
  { intros l. destruct (decide (l = _elements s)) as [->|Hl].
    - rewrite lookup_insert_eq, Hv. split; intros _; by eexists.
    - by rewrite lookup_insert_ne by done. }
  split.
  { split.
    - intros l Hl. cbn [lists]. by rewrite lookup_insert_ne by done.
    - intros y HyN. cbn [objs]. unfold isNot in HyN.
      rewrite lookup_insert_ne by done.
      destruct (decide (y = x)) as [->|Hyx].
      + rewrite lookup_insert_eq, Hx. unfold ox'. cbn.
        split; [reflexivity|]. split; [reflexivity|].
        split; [apply sameButCache_refl|].
        intros [c|] Hc; cbn in Hc |- *.
        * unfold isNot in Hc. rewrite lookup_insert_ne; [done|congruence].
        * by rewrite lookup_insert_ne.
      + rewrite lookup_insert_ne by done.
        destruct (objs h !! y); [|exact I].
        split; [reflexivity|]. split; [reflexivity|].
        split; [apply sameButCache_refl|]. by intros site _. }
  split.
  { eexists _, _. split; [apply lookup_insert_eq|].
    split; [reflexivity|]. cbn. auto. }
  split; [apply lookup_insert_eq|].
  split.
  { exists ox'. split; [by rewrite lookup_insert_ne, lookup_insert_eq by done|].
    split; [exact Hpl|]. unfold ox'. cbn. apply lookup_insert_eq. }
  intros y Hyx HyN. by rewrite !lookup_insert_ne by done.
Qed.

Lemma setParent_Ok (x : nat) (p : option nat) (h h' : Heap) :
  setParent x p h = Ok tt h' ->
  exists o, objs h !! x = Some o /\
    h' = mkHeap (<[x := mkObj (classOf o) (priority o) (locations o) p (body o)]>
                   (objs h)) (lists h) (next h).
Proof.
  unfold setParent, putObj. intros H.
  apply bind_Ok in H as (o & h1 & Ho & H).
  apply getObj_Ok in Ho as [-> Ho]. injection H as <-. by exists o.
Qed.

Lemma modifyStream_Ok (x : nat) (f : StreamAttrs -> StreamAttrs) (h h' : Heap) :
  modifyStream x f h = Ok tt h' ->
  exists o s, objs h !! x = Some o /\ body o = Container s /\
    h' = mkHeap (<[x := mkObj (classOf o) (priority o) (locations o) (parent o)
                           (Container (f s))]> (objs h)) (lists h) (next h).
Proof.
  unfold modifyStream, putStream, putObj. intros H.
  apply bind_Ok in H as (s & h1 & Hs & H).
  apply getStream_Ok in Hs as [-> Hs].
  apply bind_Ok in H as (o & h1 & Ho & H).
  apply getObj_Ok in Ho as [-> Ho]. injection H as <-.
  apply streamIn_Some in Hs as (o' & Ho' & Hb).
  rewrite Ho in Ho'. injection Ho' as <-. by exists o, s.
Qed.

(** Replacing an object by one of the same kind keeps the heap well
    formed. *)
Lemma wfHeap_putObj (h : Heap) (x : nat) (o : Obj) :
  wfHeap h -> is_Some (objs h !! x) ->
  wfHeap (mkHeap (<[x := o]> (objs h)) (lists h) (next h)).
Proof.
  intros [Hwo Hwl] Hx. split; [|exact Hwl].
  intros y Hy. cbn [objs next] in *. destruct (decide (y = x)) as [->|Hne].
  - by apply Hwo.
  - rewrite lookup_insert_ne in Hy by done. by apply Hwo.
Qed.

Lemma wfHeap_same_domains (h h' : Heap) :
  wfHeap h -> next h' = next h ->
  (forall y, is_Some (objs h' !! y) <-> is_Some (objs h !! y)) ->
  (forall l, is_Some (lists h' !! l) <-> is_Some (lists h !! l)) ->
  wfHeap h'.
Proof.
  intros [Hwo Hwl] Hn Ho Hl. split; intros y Hy; rewrite Hn.
  - apply Hwo. by apply Ho.
  - apply Hwl. by apply Hl.
Qed.

Lemma plainAt_framed (PO PL : nat -> Prop) (h h' : Heap) (site x : nat) :
  framed PO PL h h' -> PO x -> PO site ->
  plainAt h site x -> plainAt h' site x.
Proof.
  intros [_ Ho] Hx Hsite (o & Hox & Hpl & Hs).
  specialize (Ho x Hx). rewrite Hox in Ho.
  destruct (objs h' !! x) as [o'|] eqn:Ho'; [|contradiction].
  destruct Ho as (_ & _ & Hb & Hk).
  exists o'. split; [exact Ho'|]. split.
  - unfold hasElements in *. destruct (body o), (body o'); simpl in Hb; done.
  - rewrite (Hk (Some site)); [exact Hs | exact Hsite].
Qed.

Lemma plainAt_put_parent (h : Heap) (site x y : nat) (o : Obj) (p : option nat) :
  objs h !! y = Some o ->
  plainAt h site x ->
  plainAt (mkHeap (<[y := mkObj (classOf o) (priority o) (locations o) p
                              (body o)]> (objs h)) (lists h) (next h)) site x.
Proof.
  intros Hy (ox & Hox & Hpl & Hs). unfold plainAt. cbn [objs].
  destruct (decide (x = y)) as [->|Hne].
  - rewrite Hy in Hox. injection Hox as <-.
    eexists. split; [apply lookup_insert_eq|]. by split.
  - exists ox. by rewrite lookup_insert_ne by done.
Qed.

Lemma framed_put_parent (PO PL : nat -> Prop) (h : Heap) (y : nat) (o : Obj)
      (p : option nat) :
  objs h !! y = Some o ->
  framed PO PL h
    (mkHeap (<[y := mkObj (classOf o) (priority o) (locations o) p (body o)]>
               (objs h)) (lists h) (next h)).
Proof.
  intros Hy. apply cacheOnly_framed. apply (putObj_cacheOnly y o); auto.
  apply sameButCache_refl.
Qed.

(** A loop whose steps keep an invariant, seen from its result. *)
Lemma forEach_invariant {A} (I : Heap -> Prop) (l : list A)
      (body : A -> M unit) :
  (forall x h0 h1, x ∈ l -> I h0 -> body x h0 = Ok tt h1 -> I h1) ->
  forall h h', I h -> forEach l body h = Ok tt h' -> I h'.
Proof.
  induction l as [|x l IH]; intros Hbody h h' HI H; simpl in H.
  - apply ret_Ok in H as [_ ->]. exact HI.
  - apply bind_Ok in H as ([] & h1 & Hx & H).
    eapply IH; [|eapply Hbody; [by left | exact HI | exact Hx] | exact H].
    intros y h0 h2 Hy. apply Hbody. by right.
Qed.
Lemma collecting_insert (fuel : nat) (N lN x : nat) (q : Q) (h h' : Heap)
      (vN : list nat) (ox : Obj) :
  collecting h N lN vN ->
  objs h !! x = Some ox -> hasElements ox = false ->
  insert fuel N q x h = Ok tt h' ->
  next h' = next h /\
  (forall y, is_Some (objs h' !! y) <-> is_Some (objs h !! y)) /\
  (forall l, is_Some (lists h' !! l) <-> is_Some (lists h !! l)) /\
  framed (isNot N) (isNot lN) h h' /\
  collecting h' N lN (vN ++ [x]) /\
  locations <$> (objs h' !! x) = Some (<[Some N := q]> (locations ox)) /\
  (forall y, y <> x -> y <> N -> objs h' !! y = objs h !! y).
Proof.
  intros (oN & sN & HN & HbN & HlN & Hsrt & Hv & Hpl) Hx Hplx Hrun.
  subst lN.
  assert (forall e, e ∈ vN -> is_Some (objs h !! e)) as Hex.
  { intros e He. destruct (Hpl e He) as (oe & Hoe & _). by rewrite Hoe. }
  pose proof (returns_det _ _ _ _ _ Hrun
                (returns_insert_unsorted fuel N x q h oN ox sN vN
                   HN HbN Hsrt Hv Hex Hx Hplx))
    as (Hn & Hdo & Hdl & Hfr & (oN' & s' & HN' & HbN' & Hel' & Hsrt' & _)
        & Hv' & (ox' & Hx' & Hplx' & Hqx') & Hsame).
  split; [exact Hn|]. split; [exact Hdo|]. split; [exact Hdl|].
  split; [exact Hfr|]. split.
  - exists oN', s'. split; [exact HN'|]. split; [exact HbN'|].
    split; [exact Hel'|]. split; [exact Hsrt'|]. split; [exact Hv'|].
    intros e He.
    destruct (decide (e = x)) as [->|Hne].
    + exists ox'. split; [exact Hx'|]. split; [exact Hplx'|]. by rewrite Hqx'.
    + apply elem_of_app in He as [He|He];
        [|apply list_elem_of_singleton in He; contradiction].
      destruct (Hpl e He) as (oe & Hoe & Hple & Hse).
      exists oe. split; [|by split].
      rewrite Hsame; [exact Hoe | exact Hne|].
      intros ->. rewrite HN in Hoe. injection Hoe as <-.
      unfold hasElements in Hple. by rewrite HbN in Hple.
  - split; [|exact Hsame].
    destruct Hfr as [_ Hfo].
    assert (x <> N) as HxN.
    { intros ->. rewrite HN in Hx. injection Hx as <-.
      unfold hasElements in Hplx. by rewrite HbN in Hplx. }
    specialize (Hfo x HxN). rewrite Hx, Hx' in Hfo.
    destruct Hfo as (_ & _ & _ & Hk). rewrite Hx'. cbn. f_equal.
    apply (map_eq (locations ox')). intros site.
    destruct (decide (site = Some N)) as [->|Hs].
    + by rewrite lookup_insert_eq.
    + rewrite lookup_insert_ne by done. apply Hk.
      destruct site as [c|]; [|exact I]. unfold isNot. congruence.
Qed.
Lemma copy_copy_Ok (x y : nat) (h h' : Heap) :
  copy_copy x h = Ok y h' ->
  exists o, objs h !! x = Some o /\ y = next h /\
    h' = mkHeap (<[next h := o]> (objs h)) (lists h) (S (next h)).
Proof.
  unfold copy_copy. intros H.
  apply bind_Ok in H as (o & h1 & Ho & H).
  apply getObj_Ok in Ho as [-> Ho].
  apply bind_Ok in H as (y' & h1 & Hf & H).
  injection Hf as <- <-.
  apply bind_Ok in H as ([] & h2 & Hp & H).
  injection Hp as <-. apply ret_Ok in H as [<- <-]. by exists o.
Qed.

Lemma newList_Ok (v : list nat) (l : nat) (h h' : Heap) :
  newList v h = Ok l h' ->
  l = next h /\
  h' = mkHeap (objs h) (<[next h := v]> (lists h)) (S (next h)).
Proof.
  unfold newList. intros H.
  apply bind_Ok in H as (y' & h1 & Hf & H).
  injection Hf as <- <-.
  apply bind_Ok in H as ([] & h2 & Hp & H).
  injection Hp as <-. by apply ret_Ok in H as [<- <-].
Qed.

Lemma noneIsStream_Ok (l : list nat) (h h' : Heap) (f : bool) :
  noneIsStream l h = Ok f h' -> h' = h.
Proof.
  induction l as [|x l IH]; simpl; intros H.
  - by apply ret_Ok in H as [_ ->].
  - apply bind_Ok in H as (o & h1 & Ho & H).
    apply getObj_Ok in Ho as [-> Ho].
    destruct (isStreamClass (classOf o));
      [by apply ret_Ok in H as [_ ->] | by apply IH].
Qed.

Lemma elementsChanged_Ok (x : nat) (h h' : Heap) :
  _elementsChanged x h = Ok tt h' ->
  exists o s f, objs h !! x = Some o /\ body o = Container s /\
    h' = mkHeap (<[x := mkObj (classOf o) (priority o) (locations o) (parent o)
                           (Container (set_cache defHash
                              (set_isFlat f (set_isSorted false s))))]>
                   (objs h)) (lists h) (next h).
Proof.
  unfold _elementsChanged, putStream, putObj. intros H.
  apply bind_Ok in H as (s & h1 & Hs & H).
  apply getStream_Ok in Hs as [-> Hs].
  apply bind_Ok in H as (l & h1 & Hl & H).
  apply getList_Ok in Hl as [-> Hl].
  apply bind_Ok in H as (f & h1 & Hf & H).
  apply noneIsStream_Ok in Hf as ->.
  apply bind_Ok in H as (o & h1 & Ho & H).
  apply getObj_Ok in Ho as [-> Ho]. injection H as <-.
  apply streamIn_Some in Hs as (o' & Ho' & Hb).
  rewrite Ho in Ho'. injection Ho' as <-. by exists o, s, f.
Qed.

Lemma framed_put_outside (PO PL : nat -> Prop) (h : Heap) (x : nat) (o : Obj) :
  ~ PO x ->
  framed PO PL h (mkHeap (<[x := o]> (objs h)) (lists h) (next h)).
Proof.
  intros Hx. split; [reflexivity|]. intros y Hy. cbn [objs].
  rewrite lookup_insert_ne by (intros ->; contradiction).
  destruct (objs h !! y); [|exact I].
  split; [reflexivity|]. split; [reflexivity|].
  split; [apply sameButCache_refl|]. by intros site _.
Qed.

(** Changing attributes other than the list and the sorted flag of the
    container under construction. *)
Lemma collecting_modify (h : Heap) (N lN : nat) (vN : list nat) (o : Obj)
      (s : StreamAttrs) (f : StreamAttrs -> StreamAttrs) :
  collecting h N lN vN ->
  objs h !! N = Some o -> body o = Container s ->
  _elements (f s) = _elements s -> isSorted (f s) = isSorted s ->
  collecting (mkHeap (<[N := mkObj (classOf o) (priority o) (locations o)
                                (parent o) (Container (f s))]> (objs h))
                     (lists h) (next h)) N lN vN.
Proof.
  intros (oN & sN & HN & HbN & HlN & Hsrt & Hv & Hpl) Ho Hb Hel Hso.
  rewrite HN in Ho. injection Ho as <-. rewrite HbN in Hb. injection Hb as <-.
  eexists _, _. split; [apply lookup_insert_eq|]. split; [reflexivity|].
  split; [by rewrite Hel|]. split; [by rewrite Hso|]. split; [exact Hv|].
  intros x Hx. destruct (Hpl x Hx) as (ox & Hox & Hplx & Hsx).
  exists ox. split; [|by split]. cbn [objs].
  rewrite lookup_insert_ne; [exact Hox|].
  intros <-. rewrite HN in Hox. injection Hox as <-.
  unfold hasElements in Hplx. by rewrite HbN in Hplx.
Qed.
Lemma getFlat_unfold (fuel : nat) (self : nat) :
  _getFlatOrSemiFlat (S fuel) self false =
  (newStream ← copy_copy self;
   l ← newList [];
   modifyStream newStream (set_elements l);;
   _elementsChanged newStream;;
   v ← elementsOf self;
   forEach v (fun myEl =>
     o ← getObj myEl;
     if hasElements o then
       recurseStream ← _getFlatOrSemiFlat fuel myEl false;
       recurseStreamOffset ← getOffsetBySite myEl (Some self);
       forEachIn recurseStream (fun subEl =>
         oldOffset ← getOffsetBySite subEl (Some recurseStream);
         insert fuel newStream (oldOffset + recurseStreamOffset) subEl)
     else
       off ← getOffsetBySite myEl (Some self);
       insert fuel newStream off myEl);;
   modifyStream newStream (set_isFlat true);;
   modifyStream newStream (set_flattenedRepresentationOf (Some self));;
   ret newStream).
Proof. reflexivity. Qed.

Lemma collecting_not_plain (h : Heap) (N lN site x : nat) (vN : list nat) :
  collecting h N lN vN -> plainAt h site x -> x <> N.
Proof.
  intros (oN & sN & HN & HbN & _) (ox & Hox & Hpl & _) ->.
  rewrite HN in Hox. injection Hox as <-.
  unfold hasElements in Hpl. by rewrite HbN in Hpl.
Qed.

Lemma collecting_framed (PO PL : nat -> Prop) (h h' : Heap) (N lN : nat)
      (vN : list nat) :
  framed PO PL h h' -> PO N -> PL lN -> (forall x, x ∈ vN -> PO x) ->
  collecting h N lN vN -> collecting h' N lN vN.
Proof.
  intros Hfr HPN HPl HPv (oN & sN & HN & HbN & HlN & Hsrt & Hv & Hpl).
  pose proof Hfr as [Hfl Hfo].
  specialize (Hfo N HPN). rewrite HN in Hfo.
  destruct (objs h' !! N) as [oN'|] eqn:HN'; [|contradiction].
  destruct Hfo as (_ & _ & Hb & _). rewrite HbN in Hb.
  destruct (body oN') as [|sN'] eqn:HbN'; simpl in Hb; [contradiction|].
  destruct Hb as (Hel & _ & Hso & _).
  exists oN', sN'. split; [exact HN'|]. split; [exact HbN'|].
  split; [congruence|]. split; [congruence|].
  split; [rewrite Hfl; [exact Hv | exact HPl]|].
  intros x Hx. eapply plainAt_framed; eauto.
Qed.

Lemma collecting_put_parent (h : Heap) (N lN y : nat) (vN : list nat)
      (o : Obj) (p : option nat) :
  objs h !! y = Some o -> collecting h N lN vN ->
  collecting (mkHeap (<[y := mkObj (classOf o) (priority o) (locations o) p
                                (body o)]> (objs h)) (lists h) (next h))
             N lN vN.
Proof.
  intros Hy (oN & sN & HN & HbN & HlN & Hsrt & Hv & Hpl).
  destruct (decide (N = y)) as [->|Hne].
  - rewrite HN in Hy. injection Hy as <-.
    eexists _, sN. split; [apply lookup_insert_eq|]. split; [exact HbN|].
    split; [exact HlN|]. split; [exact Hsrt|]. split; [exact Hv|].
    intros x Hx. apply plainAt_put_parent; [exact HN | by apply Hpl].
  - exists oN, sN. split; [cbn [objs]; by rewrite lookup_insert_ne|].
    split; [exact HbN|]. split; [exact HlN|]. split; [exact Hsrt|].
    split; [exact Hv|].
    intros x Hx. apply plainAt_put_parent; [exact Hy | by apply Hpl].
Qed.

Lemma getFlat_post (fuel : nat) :
  forall self h f h1,
    wfHeap h ->
    _getFlatOrSemiFlat fuel self false h = Ok f h1 ->
    f = next h /\ wfHeap h1 /\ (S (S (next h)) <= next h1)%nat /\
    framed (below (next h)) (below (next h)) h h1 /\
    exists vf, collecting h1 f (S (next h)) vf.
Proof.
  induction fuel as [|fuel IH]; intros self h f h1 Hwf H; [discriminate|].
  rewrite getFlat_unfold in H.
  apply bind_Ok in H as (N & ha & Hcopy & H).
  apply copy_copy_Ok in Hcopy as (o & Ho & -> & ->).
  apply bind_Ok in H as (lN & hb & Hnl & H).
  apply newList_Ok in Hnl as [-> ->]. cbn [objs lists next] in H.
  apply bind_Ok in H as ([] & hc & Hms & H).
  apply modifyStream_Ok in Hms as (o1 & s1 & Ho1 & Hb1 & ->).
  cbn [objs lists next] in Ho1, H.
  rewrite lookup_insert_eq in Ho1. injection Ho1 as <-.
  apply bind_Ok in H as ([] & hd & Hec & H).
  apply elementsChanged_Ok in Hec as (o2 & s2 & fl & Ho2 & Hb2 & ->).
  cbn [objs lists next] in Ho2, H.
  rewrite lookup_insert_eq in Ho2. injection Ho2 as <-.
  cbn [body classOf priority locations parent] in Hb2, H.
  injection Hb2 as <-.
  apply bind_Ok in H as (v & he & Hv & H).
  apply elementsOf_Ok in Hv as [-> _].
  apply bind_Ok in H as ([] & hf & Hloop & H).
  apply bind_Ok in H as ([] & hg & Hm1 & H).
  apply bind_Ok in H as ([] & hi & Hm2 & H).
  apply ret_Ok in H as [<- <-].
  set (n0 := next h) in *.
  match type of Hloop with forEach _ _ ?hh = _ => set (hc := hh) in * end.
  set (Inv := fun hx : Heap =>
                wfHeap hx /\ (S (S n0) <= next hx)%nat /\
                framed (below n0) (below n0) h hx /\
                exists vN, collecting hx n0 (S n0) vN).
  assert (Inv hc) as Hinv0.
  { destruct Hwf as [Hwo Hwl]. split; [split|].
    - intros y Hy. unfold hc in *. cbn [objs next] in *.
      destruct (decide (y = n0)) as [->|Hne]; [lia|].
      rewrite !lookup_insert_ne in Hy by done. apply Hwo in Hy. fold n0 in Hy. lia.
    - intros y Hy. unfold hc in *. cbn [lists next] in *.
      destruct (decide (y = S n0)) as [->|Hne]; [lia|].
      rewrite lookup_insert_ne in Hy by done. apply Hwl in Hy. fold n0 in Hy. lia.
    - split; [unfold hc; cbn [next]; lia|]. split.
      + split.
        * intros l Hl. unfold below in Hl. unfold hc. cbn [lists].
          rewrite lookup_insert_ne by lia. reflexivity.
        * intros x Hx. unfold below in Hx. unfold hc. cbn [objs].
          rewrite !lookup_insert_ne by lia.
          destruct (objs h !! x); [|exact I].
          split; [reflexivity|]. split; [reflexivity|].
          split; [apply sameButCache_refl|]. by intros site _.
      + exists []. unfold hc. eexists _, _.
        split; [apply lookup_insert_eq|]. split; [reflexivity|].
        split; [reflexivity|]. split; [reflexivity|].
        split; [apply lookup_insert_eq|]. intros x Hx. inv Hx. }
  clearbody hc.
  assert (Inv hf) as (Hwf_f & Hn_f & Hfr_f & vN & Hcol_f).
  { eapply (forEach_invariant Inv); [|exact Hinv0 | exact Hloop].
    clear Hloop Hinv0 Hm1 Hm2.
    intros myEl hx hy _ (Hwx & Hnx & Hfx & vx & Hcx) Hbody.
    apply bind_Ok in Hbody as (o1 & h' & Ho1 & Hbody).
    apply getObj_Ok in Ho1 as [-> Ho1].
    destruct (hasElements o1) eqn:Hpl1.
    - apply bind_Ok in Hbody as (rs & h2 & Hrec & Hbody).
      apply IH in Hrec as (-> & Hw2 & Hn2 & Hf2 & vr & Hcr); [|exact Hwx].
      apply bind_Ok in Hbody as (rso & h3 & Hrso & Hbody).
      apply getOffsetBySite_Ok in Hrso as [-> _].
      unfold forEachIn in Hbody.
      apply bind_Ok in Hbody as (vr' & h3 & Hvr & Hbody).
      apply elementsOf_Ok in Hvr as [-> Hvr].
      assert (vr' = vr) as ->.
      { destruct Hcr as (oR & sR & HR & HbR & HlR & _ & HvR & _).
        unfold elementsIn in Hvr. rewrite HR in Hvr. simpl in Hvr.
        rewrite HbR, HlR, HvR in Hvr. by injection Hvr as <-. }
      set (rs := next hx) in *.
      set (Inv2 := fun hz : Heap =>
                     Inv hz /\ forall x, x ∈ vr -> plainAt hz rs x).
      assert (Inv2 hy) as [Hy _]; [|exact Hy].
      eapply (forEach_invariant Inv2); [| |exact Hbody].
      + clear Hbody.
        intros subEl hz hz' Hin [(Hwz & Hnz & Hfz & vz & Hcz) Hrz] Hstep.
        apply bind_Ok in Hstep as ([] & hz1 & Hsp & Hstep).
        apply setParent_Ok in Hsp as (os & Hos & ->).
        apply bind_Ok in Hstep as (old & hz2 & Hold & Hstep).
        apply getOffsetBySite_Ok in Hold as [-> _].
        destruct (Hrz subEl Hin) as (osub & Hosub & Hplsub & Hssub).
        rewrite Hos in Hosub. injection Hosub as <-.
        pose proof (collecting_put_parent hz n0 (S n0) subEl vz os (Some rs)
                      Hos Hcz) as Hcz1.
        match type of Hstep with insert _ _ _ _ ?hh = _ =>
          set (hz1 := hh) in * end.
        assert (objs hz1 !! subEl
                = Some (mkObj (classOf os) (priority os) (locations os)
                              (Some rs) (body os))) as Hos1
          by apply lookup_insert_eq.
        pose proof (collecting_insert _ _ _ _ _ _ _ _ _
                      Hcz1 Hos1 Hplsub Hstep)
          as (Hn & Hdo & Hdl & Hfr & Hcol & _ & _).
        assert (wfHeap hz1) as Hwz1 by (apply wfHeap_putObj; [exact Hwz | by rewrite Hos]).
        assert (framed (below n0) (below n0) hz hz1) as Hfz1
          by (by apply framed_put_parent).
        split; [split; [|split; [|split]]|].
        * by eapply wfHeap_same_domains.
        * rewrite Hn. exact Hnz.
        * eapply framed_trans; [exact Hfz|].
          eapply framed_trans; [exact Hfz1|].
          eapply framed_weaken; [| |exact Hfr];
            unfold below, isNot; intros; lia.
        * by eexists.
        * intros x Hx.
          eapply (plainAt_framed _ _ hz1); [exact Hfr | | |].
          -- eapply collecting_not_plain; [exact Hcz|]. by apply Hrz.
          -- unfold isNot, rs. lia.
          -- apply plainAt_put_parent; [exact Hos | by apply Hrz].
      + split; [split; [exact Hw2 | split; [lia | split]]|].
        * eapply framed_trans; [exact Hfx|].
          eapply framed_weaken; [| |exact Hf2]; unfold below; intros; lia.
        * exists vx. eapply collecting_framed; [exact Hf2 | | | |exact Hcx].
          -- unfold below. lia.
          -- unfold below. lia.
          -- intros x Hx. destruct Hcx as (_ & _ & _ & _ & _ & _ & _ & Hp).
             destruct (Hp x Hx) as (ox & Hox & _).
             destruct Hwx as [Hwo _]. apply Hwo. by rewrite Hox.
        * destruct Hcr as (_ & _ & _ & _ & _ & _ & _ & Hp). exact Hp.
    - apply bind_Ok in Hbody as (off & h' & Hoff & Hbody).
      apply getOffsetBySite_Ok in Hoff as [-> _].
      pose proof (collecting_insert _ _ _ _ _ _ _ _ _ Hcx Ho1 Hpl1 Hbody)
        as (Hn & Hdo & Hdl & Hfr & Hcol & _ & _).
      split; [by eapply wfHeap_same_domains|].
      split; [rewrite Hn; exact Hnx|]. split; [|by eexists].
      eapply framed_trans; [exact Hfx|].
      eapply framed_weaken; [| |exact Hfr]; unfold below, isNot; intros; lia. }
  apply modifyStream_Ok in Hm1 as (om1 & sm1 & Hom1 & Hbm1 & Ehg).
  apply modifyStream_Ok in Hm2 as (om2 & sm2 & Hom2 & Hbm2 & Ehi).
  assert (wfHeap hg) as Hwg
    by (subst hg; apply wfHeap_putObj; [exact Hwf_f | by rewrite Hom1]).
  assert (wfHeap hi) as Hwi
    by (subst hi; apply wfHeap_putObj; [exact Hwg | by rewrite Hom2]).
  assert (framed (below n0) (below n0) hf hg) as Hfg
    by (subst hg; apply framed_put_outside; unfold below; lia).
  assert (framed (below n0) (below n0) hg hi) as Hfi
    by (subst hi; apply framed_put_outside; unfold below; lia).
  assert (collecting hg n0 (S n0) vN) as Hcg
    by (subst hg; by apply (collecting_modify hf n0 (S n0) vN om1 sm1
                              (set_isFlat true))).
  assert (collecting hi n0 (S n0) vN) as Hci
    by (subst hi; by apply (collecting_modify hg n0 (S n0) vN om2 sm2
                         (set_flattenedRepresentationOf (Some self)))).
  split; [reflexivity|]. split; [exact Hwi|].
  split; [subst hi hg; exact Hn_f|].
  split; [|by exists vN].
  eapply framed_trans; [exact Hfr_f|]. eapply framed_trans; eassumption.
Qed.
Lemma returns_forEach_prefix {A} (I : list A -> Heap -> Prop) (l : list A)
      (body : A -> M unit) (post : unit -> Heap -> Prop) (h : Heap) :
  I [] h ->
  (forall pre x h0, x ∈ l -> I pre h0 ->
                    returns (body x) (fun _ => I (pre ++ [x])) h0) ->
  (forall h1, I l h1 -> post tt h1) ->
  returns (forEach l body) post h.
Proof.
  intros H0 Hbody Hpost.
  assert (forall rest pre h0,
             (forall x, x ∈ rest -> x ∈ l) -> I pre h0 ->
             returns (forEach rest body) (fun _ => I (pre ++ rest)) h0) as Hgen.
  { induction rest as [|x rest IH]; intros pre h0 Hsub HI; simpl.
    - apply returns_ret. by rewrite app_nil_r.
    - apply returns_bind.
      eapply returns_mono; [apply (Hbody pre x h0); [apply Hsub; by left | exact HI]|].
      intros [] h1 HI1. simpl.
      replace (pre ++ x :: rest) with ((pre ++ [x]) ++ rest)
        by (by rewrite <- app_assoc).
      apply IH; [|exact HI1]. intros y Hy. apply Hsub. by right. }
  eapply returns_mono; [apply (Hgen l [] h); [auto | exact H0]|].
  intros [] h1 HI. by apply Hpost.
Qed.

Lemma mapM_option_ext {A B} (f g : A -> option B) (l : list A) :
  (forall x, x ∈ l -> f x = g x) -> mapM f l = mapM g l.
Proof.
  induction l as [|x l IH]; intros H; [reflexivity|].
  cbn. rewrite (H x) by (by left). rewrite IH; [reflexivity|].
  intros y Hy. apply H. by right.
Qed.

Lemma elementsIn_framed (PO PL : nat -> Prop) (h h' : Heap) (C : nat)
      (s : StreamAttrs) :
  framed PO PL h h' -> PO C -> streamIn h C = Some s -> PL (_elements s) ->
  elementsIn h' C = elementsIn h C.
Proof.
  intros [Hfl Hfo] HC Hs Hl.
  apply streamIn_Some in Hs as (o & Ho & Hb).
  specialize (Hfo C HC). rewrite Ho in Hfo.
  destruct (objs h' !! C) as [o'|] eqn:Ho'; [|contradiction].
  destruct Hfo as (_ & _ & Hsb & _). rewrite Hb in Hsb.
  destruct (body o') as [|s'] eqn:Hb'; simpl in Hsb; [contradiction|].
  destruct Hsb as (Hel & _).
  unfold elementsIn. rewrite Ho, Ho'. simpl. rewrite Hb, Hb', Hel.
  by apply Hfl.
Qed.
(** Flattening a container whose elements are not containers: it returns,
    and the result holds the same elements at the same offsets. *)
Lemma flat_of_collecting (fuel : nat) (h : Heap) (f lf : nat) (vf : list nat) :
  wfHeap h -> collecting h f lf vf ->
  exists h2,
    _getFlatOrSemiFlat (S fuel) f false h = Ok (next h) h2 /\
    is_Some (pairsIn h f) /\
    pairsIn h2 (next h) = pairsIn h f.
Proof.
  intros Hwf Hcol.
  pose proof Hcol as (oF & sF & HF & HbF & HlF & HsrtF & HvF & HplF).
  set (n0 := next h).
  assert (f < n0)%nat as Hfn by (destruct Hwf as [Hwo _]; apply Hwo; by rewrite HF).
  assert (lf < n0)%nat as Hlfn by (destruct Hwf as [_ Hwl]; apply Hwl; by rewrite HvF).
  assert (forall x, x ∈ vf -> (x < n0)%nat) as Hvn.
  { intros x Hx. destruct (HplF x Hx) as (ox & Hox & _).
    destruct Hwf as [Hwo _]. apply Hwo. by rewrite Hox. }
  assert (is_Some (pairsIn h f)) as Hsome.
  { unfold pairsIn, elementsIn. rewrite HF. simpl. rewrite HbF, HlF, HvF. simpl.
    apply mapM_is_Some. apply Forall_forall. intros x Hx.
    destruct (HplF x Hx) as (ox & Hox & _ & [q Hq]).
    cbv [compose]. unfold offsetIn. cbn. rewrite Hox. cbn. rewrite Hq. by eexists. }
  cut (returns (_getFlatOrSemiFlat (S fuel) f false)
         (fun a h2 => a = n0 /\ pairsIn h2 n0 = pairsIn h f) h).
  { intros (a & h2 & Hrun & -> & Hp). exists h2. auto. }
  rewrite getFlat_unfold.
  apply returns_bind. unfold copy_copy. apply returns_bind.
  eapply returns_getObj; [exact HF|].
  apply returns_bind. apply returns_fresh.
  apply returns_bind. apply returns_putObj. apply returns_ret.
  cbn [objs lists next]. fold n0.
  apply returns_bind. unfold newList. apply returns_bind. apply returns_fresh.
  apply returns_bind. apply returns_putList. apply returns_ret.
  cbn [objs lists next].
  apply returns_bind.
  eapply returns_modifyStream; [apply lookup_insert_eq | exact HbF|].
  cbn [objs lists next].
  apply returns_bind. unfold _elementsChanged. apply returns_bind.
  eapply returns_getStream; [apply lookup_insert_eq | reflexivity|].
  cbn [set_elements _elements].
  apply returns_bind. eapply returns_getList; [apply lookup_insert_eq|].
  apply returns_bind. apply returns_ret.
  eapply returns_putStream; [apply lookup_insert_eq|].
  cbn [objs lists next classOf priority locations parent].
  rewrite !insert_insert_eq.
  match goal with |- returns _ _ ?hh => set (hc := hh) end.
  assert (objs hc !! f = Some oF) as HFc
    by (unfold hc; cbn [objs]; rewrite lookup_insert_ne by lia; exact HF).
  assert (lists hc !! lf = Some vf) as Hvc
    by (unfold hc; cbn [lists]; rewrite lookup_insert_ne by lia; exact HvF).
  apply returns_bind. unfold elementsOf, _getElements.
  apply returns_bind. apply returns_bind.
  eapply returns_getStream; [exact HFc | exact HbF|]. apply returns_ret.
  rewrite HlF. eapply returns_getList; [exact Hvc|].
  set (I := fun (pre : list nat) (hx : Heap) =>
              collecting hx n0 (S n0) pre /\
              (forall x, x ∈ vf ->
                 exists ox, objs hx !! x = Some ox /\ hasElements ox = false /\
                            is_Some (locations ox !! Some f) /\
                            locations ox !! Some f = offsetIn h f x) /\
              (forall x, x ∈ pre -> offsetIn hx n0 x = offsetIn h f x)).
  apply returns_bind. apply (returns_forEach_prefix I).
  - split; [|split].
    + unfold hc. eexists _, _. split; [apply lookup_insert_eq|].
      split; [reflexivity|]. split; [reflexivity|]. split; [reflexivity|].
      split; [apply lookup_insert_eq|]. intros x Hx. inv Hx.
    + intros x Hx. destruct (HplF x Hx) as (ox & Hox & Hpl & Hs).
      exists ox. unfold hc. cbn [objs].
      rewrite lookup_insert_ne by (specialize (Hvn x Hx); lia).
      split; [exact Hox|]. split; [exact Hpl|]. split; [exact Hs|].
      unfold offsetIn. by rewrite Hox.
    + intros x Hx. inv Hx.
  - intros pre x hx Hx (Hcx & Hvx & Hprex).
    destruct (Hvx x Hx) as (ox & Hox & Hplx & [q Hq] & Hqf).
    apply returns_bind. eapply returns_getObj; [exact Hox|].
    rewrite Hplx.
    apply returns_bind.
    eapply returns_getOffsetBySite; [exact Hox | exact Hq|].
    pose proof Hcx as (oN & sN & HN & HbN & HlN & HsrtN & HvN & HplN).
    assert (returns (insert fuel n0 q x) (fun _ _ => True) hx)
      as ([] & hy & Hrun & _).
    { eapply returns_mono;
        [eapply (returns_insert_unsorted fuel n0 x q hx oN ox sN pre);
         [exact HN | exact HbN | exact HsrtN | by rewrite HlN | |
          exact Hox | exact Hplx]|done].
      intros e He. destruct (HplN e He) as (oe & Hoe & _). by rewrite Hoe. }
    exists tt, hy. split; [exact Hrun|].
    pose proof (collecting_insert _ _ _ _ _ _ _ _ _ Hcx Hox Hplx Hrun)
      as (_ & _ & _ & _ & Hcol' & Hlocx & Hsame).
    assert (x <> n0) as Hxn.
    { intros ->. rewrite HN in Hox. injection Hox as <-.
      unfold hasElements in Hplx. by rewrite HbN in Hplx. }
    destruct (objs hy !! x) as [ox'|] eqn:Hox'; [|discriminate].
    cbn in Hlocx. injection Hlocx as Hlocx.
    assert (hasElements ox' = false) as Hplx'.
    { destruct Hcol' as (_ & _ & _ & _ & _ & _ & _ & Hp).
      destruct (Hp x) as (o' & Ho' & Hpl' & _);
        [apply elem_of_app; right; by apply list_elem_of_singleton|].
      rewrite Hox' in Ho'. by injection Ho' as <-. }
    split; [exact Hcol'|]. split.
    + intros y Hy. destruct (decide (y = x)) as [->|Hne].
      * exists ox'. split; [exact Hox'|]. split; [exact Hplx'|].
        rewrite Hlocx, lookup_insert_ne by (intros [= E]; lia).
        rewrite Hq. split; [by eexists|]. by rewrite <- Hqf, Hq.
      * destruct (Hvx y Hy) as (oy & Hoy & Hply & Hsy & Hqy).
        exists oy. rewrite Hsame; [by auto|exact Hne|].
        intros ->. rewrite HN in Hoy. injection Hoy as <-.
        unfold hasElements in Hply. by rewrite HbN in Hply.
    + intros y Hy. destruct (decide (y = x)) as [->|Hne].
      * unfold offsetIn at 1. rewrite Hox'. cbn.
        rewrite Hlocx, lookup_insert_eq. by rewrite <- Hqf, Hq.
      * apply elem_of_app in Hy as [Hy|Hy];
          [|apply list_elem_of_singleton in Hy; contradiction].
        rewrite <- (Hprex y Hy). unfold offsetIn.
        rewrite Hsame; [reflexivity | exact Hne|].
        destruct (HplN y Hy) as (oy & Hoy & Hply & _).
        intros ->. rewrite HN in Hoy. injection Hoy as <-.
        unfold hasElements in Hply. by rewrite HbN in Hply.
  - intros h1 (Hc1 & Hv1 & Hpre1).
    pose proof Hc1 as (oN & sN & HN & HbN & HlN & HsrtN & HvN & HplN).
    apply returns_bind.
    eapply returns_modifyStream; [exact HN | exact HbN|].
    apply returns_bind.
    eapply returns_modifyStream; [apply lookup_insert_eq | reflexivity|].
    apply returns_ret. split; [reflexivity|].
    cbn [objs lists next classOf priority locations parent].
    rewrite insert_insert_eq.
    unfold pairsIn at 1. unfold elementsIn at 1. cbn [objs lists].
    rewrite lookup_insert_eq. cbn. rewrite HlN, HvN. cbn.
    unfold pairsIn, elementsIn. rewrite HF. simpl. rewrite HbF, HlF, HvF. simpl.
    apply mapM_option_ext. intros x Hx.
    rewrite <- (Hpre1 x Hx). unfold offsetIn. cbn [objs].
    rewrite lookup_insert_ne; [reflexivity|].
    destruct (HplN x Hx) as (oy & Hoy & Hply & _).
    intros <-. rewrite HN in Hoy. injection Hoy as <-.
    unfold hasElements in Hply. by rewrite HbN in Hply.
Qed.
(** [flat] keeps the element list of every container there was. *)
Lemma getFlat_keeps_elements (fuel : nat) (h h1 : Heap) (X C f : nat)
      (v : list nat) :
  wfHeap h -> elementsIn h C = Some v -> _getFlat fuel X h = Ok f h1 ->
  elementsIn h1 C = Some v /\ wfHeap h1.
Proof.
  intros Hwf Hv Hrun.
  destruct (getFlat_post fuel X h f h1 Hwf Hrun) as (_ & Hwf1 & _ & Hfr & _).
  split; [|exact Hwf1].
  destruct (elementsIn_Some _ _ _ Hv) as (o & s & Ho & Hb & Hl).
  rewrite <- Hv. apply (elementsIn_framed _ _ _ _ _ s Hfr).
  - destruct Hwf as [Hwo _]. apply Hwo. by rewrite Ho.
  - unfold streamIn. rewrite Ho. simpl. by rewrite Hb.
  - destruct Hwf as [_ Hwl]. apply Hwl. by rewrite Hl.
Qed.

Lemma pairsIn_framed (PO PL : nat -> Prop) (h h' : Heap) (f lf : nat)
      (vf : list nat) :
  framed PO PL h h' -> collecting h f lf vf -> PO f -> PL lf ->
  (forall x, x ∈ vf -> PO x) ->
  pairsIn h' f = pairsIn h f.
Proof.
  intros Hfr (oF & sF & HF & HbF & HlF & _ & HvF & Hpl) Hf Hlf Hx.
  assert (elementsIn h' f = elementsIn h f) as He.
  { apply (elementsIn_framed PO PL _ _ _ sF Hfr Hf).
    - unfold streamIn. rewrite HF. simpl. by rewrite HbF.
    - by rewrite HlF. }
  unfold pairsIn. rewrite He.
  unfold elementsIn. rewrite HF. simpl. rewrite HbF, HlF, HvF. simpl.
  apply mapM_option_ext. intros x Hxin.
  destruct (Hpl x Hxin) as (ox & Hox & _).
  destruct Hfr as [_ Hobj]. specialize (Hobj x (Hx x Hxin)).
  unfold offsetIn. rewrite Hox in *.
  destruct (objs h' !! x) as [ox'|]; [|contradiction].
  destruct Hobj as (_ & _ & _ & Hks). simpl.
  by rewrite (Hks (Some f) Hf).
Qed.
(** C5: flattening is idempotent, and keeps the source.  When [C.flat]
    returns [f], the element list of [C] is what it was; [f.flat] returns
    too, and its result holds the same (offset, element) pairs, in the same
    order, as [f]; after it [f] still holds these pairs and [C] its
    elements, and so after every further call of [C.flat] that returns. *)
Theorem flat_is_idempotent (fuel fuel2 : nat) (h h1 : Heap) (C f : nat)
        (v : list nat) :
  wfHeap h -> elementsIn h C = Some v -> _getFlat fuel C h = Ok f h1 ->
  elementsIn h1 C = Some v /\
  exists f2 h2 ps,
    _getFlat (S fuel2) f h1 = Ok f2 h2 /\
    pairsIn h1 f = Some ps /\
    pairsIn h2 f2 = Some ps /\
    pairsIn h2 f = Some ps /\
    elementsIn h2 C = Some v /\
    (forall fuel3 f3 h3,
        _getFlat fuel3 C h2 = Ok f3 h3 -> elementsIn h3 C = Some v).
Proof.
  intros Hwf Hv Hrun.
  destruct (getFlat_keeps_elements _ _ _ _ _ _ _ Hwf Hv Hrun) as [Hv1 Hwf1].
  split; [exact Hv1|].
  destruct (getFlat_post fuel C h f h1 Hwf Hrun)
    as (Hf & _ & Hnext & _ & vf & Hcol).
  destruct (flat_of_collecting fuel2 h1 f _ vf Hwf1 Hcol)
    as (h2 & Hrun2 & [ps Hps] & Hps2).
  exists (next h1), h2, ps.
  split; [exact Hrun2|]. split; [exact Hps|].
  split; [by rewrite Hps2|].
  destruct (getFlat_keeps_elements _ _ _ _ C _ _ Hwf1 Hv1 Hrun2) as [Hv2 Hwf2].
  destruct (getFlat_post _ f h1 _ h2 Hwf1 Hrun2) as (_ & _ & _ & Hfr & _).
  split.
  - rewrite <- Hps.
    apply (pairsIn_framed _ _ _ _ _ _ vf Hfr Hcol).
    + unfold below. subst f. lia.
    + unfold below. lia.
    + intros x Hx.
      destruct Hcol as (_ & _ & _ & _ & _ & _ & _ & Hpl).
      destruct (Hpl x Hx) as (ox & Hox & _).
      destruct Hwf1 as [Hwo _]. apply Hwo. by rewrite Hox.
  - split; [exact Hv2|].
    intros fuel3 f3 h3 Hrun3.
    by destruct (getFlat_keeps_elements _ _ _ _ C _ _ Hwf2 Hv2 Hrun3).
Qed.

Lemma flat_is_idempotent_witness :
  exists C h f h1,
    nestedStream emptyHeap = Ok C h /\
    wfHeap h /\ elementsIn h C = Some [2%nat; 4%nat] /\
    _getFlat 2 C h = Ok f h1 /\
    elementsIn h1 C = Some [2%nat; 4%nat] /\
    exists f2 h2 ps,
      _getFlat 1 f h1 = Ok f2 h2 /\
      pairsIn h1 f = Some ps /\
      pairsIn h2 f2 = Some ps /\
      pairsIn h2 f = Some ps /\
      elementsIn h2 C = Some [2%nat; 4%nat] /\
      (forall fuel3 f3 h3,
          _getFlat fuel3 C h2 = Ok f3 h3 ->
          elementsIn h3 C = Some [2%nat; 4%nat]).
Proof.
  eexists _, _, _, _.
  match goal with
  | |- ?P1 /\ ?P2 /\ ?P3 /\ ?P4 /\ _ =>
      assert (P1 /\ P2 /\ P3 /\ P4) as (H1 & H2 & H3 & H4)
  end.
  { split; [vm_compute; reflexivity|].
    split; [apply wfHeap_decide; vm_compute; reflexivity|].
    split; [vm_compute; reflexivity|].
    vm_compute; reflexivity. }
  split; [exact H1|]. split; [exact H2|]. split; [exact H3|].
  split; [exact H4|].
  exact (flat_is_idempotent 2 0 _ _ _ _ _ H2 H3 H4).
Defined.

(** * More of the container operations *)

(** ** What the operations of a container keep, in general *)

(** Reading [highestTime] changes nothing but caches (and the parents that
    the iteration sets): lists, sites, classes, flags and durations are
    kept.  The value is cached: a second reading returns it and changes
    nothing. *)
Theorem highestTime_fills_the_cache (fuel fuel2 : nat) (self : nat)
        (h h' : Heap) (t : Q) :
  _getHighestTime fuel self h = Ok t h' ->
  cacheOnly h h' /\
  HighestTime <$> cacheIn h' self = Some (Some t) /\
  _getHighestTime (S fuel2) self h' = Ok t h'.
Proof.
  intros H. destruct (getHighestTime_cacheOnly fuel self h t h' H) as [Hc Ht].
  split; [exact Hc|]. split; [exact Ht|].
  unfold cacheIn in Ht.
  destruct (streamIn h' self) as [s|] eqn:Hs; [|discriminate].
  cbn in Ht. injection Ht as Ht.
  apply streamIn_Some in Hs as (o & Ho & Hb).
  cbn [_getHighestTime]. rewrite (run_getStream _ _ _ _ _ Ho Hb), Ht.
  reflexivity.
Qed.

Lemma highestTime_fills_the_cache_witness :
  exists h h',
    streamOfNotes [(0, 4); (1, 1)] emptyHeap = Ok 1%nat h /\
    _getHighestTime 1 1%nat h = Ok 4 h' /\
    cacheOnly h h' /\
    HighestTime <$> cacheIn h' 1%nat = Some (Some 4) /\
    _getHighestTime 1 1%nat h' = Ok 4 h'.
Proof.
  eexists _, _.
  match goal with
  | |- ?P1 /\ ?P2 /\ _ => assert (P1 /\ P2) as (H1 & H2)
  end.
  { split; vm_compute; reflexivity. }
  split; [exact H1|]. split; [exact H2|].
  exact (highestTime_fills_the_cache 1 0 _ _ _ _ H2).
Defined.





(** The container [flat] returns is a new object; its elements are not
    containers and each has a site for it; it is not marked sorted; no
    list that existed is changed. *)
Theorem flat_holds_no_container (fuel : nat) (C f : nat) (h h1 : Heap) :
  wfHeap h -> _getFlat fuel C h = Ok f h1 ->
  f = next h /\
  (exists vf, elementsIn h1 f = Some vf /\
              forall x, x ∈ vf -> plainAt h1 f x) /\
  isSortedIn h1 f = Some false /\
  (forall l, (l < next h)%nat -> lists h1 !! l = lists h !! l).
Proof.
  intros Hwf Hrun.
  destruct (getFlat_post fuel C h f h1 Hwf Hrun)
    as (Hf & _ & _ & Hfr & vf & oF & sF & HF & HbF & HlF & Hsrt & HvF & Hpl).
  split; [exact Hf|]. split; [|split].
  - exists vf. split; [|exact Hpl].
    unfold elementsIn. rewrite HF. cbn. rewrite HbF. by rewrite HlF.
  - unfold isSortedIn, streamIn. rewrite HF. cbn. rewrite HbF. cbn.
    by rewrite Hsrt.
  - intros l Hl. by apply Hfr.
Qed.

Lemma flat_holds_no_container_witness :
  exists C h f h1,
    nestedStream emptyHeap = Ok C h /\
    _getFlat 2 C h = Ok f h1 /\
    f = next h /\
    (exists vf, elementsIn h1 f = Some vf /\
                forall x, x ∈ vf -> plainAt h1 f x) /\
    isSortedIn h1 f = Some false /\
    (forall l, (l < next h)%nat -> lists h1 !! l = lists h !! l).
Proof.
  eexists _, _, _, _.
  match goal with
  | |- ?P1 /\ ?P2 /\ _ => assert (P1 /\ P2) as (H1 & H2)
  end.
  { split; vm_compute; reflexivity. }
  split; [exact H1|]. split; [exact H2|].
  match type of H2 with
  | _getFlat _ _ ?hh = _ =>
      assert (wfHeap hh) as Hwf by (apply wfHeap_decide; vm_compute; reflexivity)
  end.
  exact (flat_holds_no_container 2 _ _ _ _ Hwf H2).
Defined.

(** [sorted] returns, for every container whose elements have a site for
    it, a new container that holds the very list object of the source:
    the element list of the source is in sorted order afterwards. *)
Theorem sorted_shares_the_list_object (h : Heap) (self : nat)
        (keyed : list Keyed) :
  wfHeap h -> keysIn h self = Some keyed ->
  exists y h',
    _getSorted self h = Ok y h' /\
    y <> self /\
    is_Some (listIdIn h self) /\
    listIdIn h' y = listIdIn h self /\
    elementsIn h' self = Some (keyElement <$> list_sort sortedCmp keyed) /\
    elementsIn h' y = elementsIn h' self.
Proof.
  intros Hwf Hk.
  destruct (getSorted_result h self keyed Hwf Hk)
    as (h' & Hrun & _ & Hy & Hself & Hid).
  exists (next h), h'. split; [exact Hrun|].
  unfold keysIn in Hk.
  destruct (elementsIn h self) as [v|] eqn:Hv; [|discriminate].
  apply elementsIn_Some in Hv as (o & s & Ho & Hb & Hl).
  split.
  { destruct Hwf as [Hwo _].
    assert (self < next h)%nat by (apply Hwo; by rewrite Ho). lia. }
  split.
  { unfold listIdIn, streamIn. rewrite Ho. cbn. rewrite Hb. by eexists. }
  split; [exact Hid|]. split; [exact Hself|]. by rewrite Hy, Hself.
Qed.

Lemma sorted_shares_the_list_object_witness :
  exists s h y h',
    streamOfNotes [(2, 1); (0, 1); (1, 1)] emptyHeap = Ok s h /\
    _getSorted s h = Ok y h' /\
    y <> s /\
    is_Some (listIdIn h s) /\
    listIdIn h' y = listIdIn h s /\
    elementsIn h' s = Some [3%nat; 4%nat; 2%nat] /\
    elementsIn h' y = elementsIn h' s.
Proof.
  eexists _, _.
  match goal with
  | |- exists y h', ?P1 /\ _ => assert P1 as H1 by (vm_compute; reflexivity)
  end.
  match type of H1 with
  | _ = Ok ?s ?hh =>
      destruct (sorted_shares_the_list_object hh s
                  [(2, 0%Z, 2%nat); (0, 0%Z, 3%nat); (1, 0%Z, 4%nat)])
        as (y & h' & Hrun & Hne & Hsome & Hid & He & Hy)
  end.
  - apply wfHeap_decide; vm_compute; reflexivity.
  - vm_compute. reflexivity.
  - exists y, h'. split; [exact H1|]. split; [exact Hrun|].
    split; [exact Hne|]. split; [exact Hsome|]. split; [exact Hid|].
    split; [exact He|exact Hy].
Defined.


Lemma noneIsStream_spec (l : list nat) (h h' : Heap) (f : bool) :
  noneIsStream l h = Ok f h' ->
  (f = true <->
   forall e, e ∈ l ->
             exists o, objs h !! e = Some o /\
                       isinstance (classOf o) C_Stream = false).
Proof.
  revert f. induction l as [|x l IH]; intros f H; cbn [noneIsStream] in H.
  - apply ret_Ok in H as [<- _]. split; [|done]. intros _ e He. inversion He.
  - apply bind_Ok in H as (o & h1 & Ho & H).
    apply getObj_Ok in Ho as [-> Ho].
    destruct (isinstance (classOf o) C_Stream) eqn:E.
    + apply ret_Ok in H as [<- _]. split; [done|].
      intros Hall. destruct (Hall x) as (o' & Ho' & E'); [by left|].
      rewrite Ho in Ho'. injection Ho' as <-. congruence.
    + rewrite (IH f H). split.
      * intros Hall e He. apply elem_of_cons in He as [->|He]; [by exists o|].
        by apply Hall.
      * intros Hall e He. apply Hall. by right.
Qed.

(** [_elementsChanged] marks the container unsorted, empties its cache and
    sets [isFlat] to whether no element is an instance of [Stream]; it
    changes no list and no other object. *)
Theorem elementsChanged_resets_the_flags (x : nat) (h h' : Heap) :
  _elementsChanged x h = Ok tt h' ->
  exists s v f,
    streamIn h x = Some s /\ lists h !! _elements s = Some v /\
    streamIn h' x
    = Some (set_cache defHash (set_isFlat f (set_isSorted false s))) /\
    (f = true <->
     forall e, e ∈ v ->
               exists o, objs h !! e = Some o /\
                         isinstance (classOf o) C_Stream = false) /\
    lists h' = lists h /\
    (forall y, y <> x -> objs h' !! y = objs h !! y).
Proof.
  unfold _elementsChanged, putStream, putObj. intros H.
  apply bind_Ok in H as (s & h1 & Hs & H).
  apply getStream_Ok in Hs as [-> Hs].
  apply bind_Ok in H as (v & h1 & Hv & H).
  apply getList_Ok in Hv as [-> Hv].
  apply bind_Ok in H as (f & h1 & Hf & H).
  pose proof (noneIsStream_spec _ _ _ _ Hf) as Hspec.
  apply noneIsStream_Ok in Hf as ->.
  apply bind_Ok in H as (o & h1 & Ho & H).
  apply getObj_Ok in Ho as [-> Ho]. injection H as <-.
  exists s, v, f. split; [exact Hs|]. split; [exact Hv|].
  split; [|split; [exact Hspec|split; [reflexivity|]]].
  - unfold streamIn. cbn [objs]. by rewrite lookup_insert_eq.
  - intros y Hy. cbn [objs]. by rewrite lookup_insert_ne.
Qed.

Lemma elementsChanged_resets_the_flags_witness :
  exists C h h' s v f,
    nestedStream emptyHeap = Ok C h /\
    _elementsChanged C h = Ok tt h' /\
    streamIn h C = Some s /\ lists h !! _elements s = Some v /\
    streamIn h' C
    = Some (set_cache defHash (set_isFlat f (set_isSorted false s))) /\
    (f = true <->
     forall e, e ∈ v ->
               exists o, objs h !! e = Some o /\
                         isinstance (classOf o) C_Stream = false) /\
    lists h' = lists h /\
    (forall y, y <> C -> objs h' !! y = objs h !! y).
Proof.
  eexists _, _, _.
  match goal with
  | |- exists s v f, ?P1 /\ ?P2 /\ _ => assert (P1 /\ P2) as (H1 & H2)
  end.
  { split; vm_compute; reflexivity. }
  destruct (elementsChanged_resets_the_flags _ _ _ H2)
    as (s & v & f & H3 & H4 & H5 & H6 & H7 & H8).
  exists s, v, f. repeat (split; [assumption|]). assumption.
Defined.


(** [a.elements = b.elements] makes [a] hold the list object of [b]: an
    [insert] into [a] afterwards appends to the element list of [b] as
    well, while the flags and the cache of [b] stay as they were. *)
Theorem insert_through_shared_elements (fuel : nat) (a b x : nat) (q : Q)
        (h : Heap) (sa sb : StreamAttrs) (v : list nat) (ox : Obj) :
  a <> b ->
  streamIn h a = Some sa -> streamIn h b = Some sb ->
  lists h !! _elements sb = Some v ->
  (forall e, e ∈ v -> is_Some (objs h !! e)) ->
  objs h !! x = Some ox -> hasElements ox = false ->
  exists h',
    insertThroughSharedElements fuel a b q x h = Ok tt h' /\
    listIdIn h' a = Some (_elements sb) /\
    elementsIn h' a = Some (v ++ [x]) /\
    elementsIn h' b = Some (v ++ [x]) /\
    streamIn h' b = Some sb.
Proof.
  intros Hab Ha Hb Hv Hex Hx Hpl.
  apply streamIn_Some in Ha as (oa & Hoa & Hba).
  apply streamIn_Some in Hb as (ob & Hob & Hbb).
  assert (x <> a) as Hxa.
  { intros ->. rewrite Hoa in Hx. injection Hx as <-.
    unfold hasElements in Hpl. by rewrite Hba in Hpl. }
  assert (x <> b) as Hxb.
  { intros ->. rewrite Hob in Hx. injection Hx as <-.
    unfold hasElements in Hpl. by rewrite Hbb in Hpl. }
  cut (returns (insertThroughSharedElements fuel a b q x)
         (fun _ h' =>
            listIdIn h' a = Some (_elements sb) /\
            elementsIn h' a = Some (v ++ [x]) /\
            elementsIn h' b = Some (v ++ [x]) /\
            streamIn h' b = Some sb) h).
  { intros ([] & h' & Hrun & H). by exists h'. }
  unfold insertThroughSharedElements, _getElements, _setElements.
  apply returns_bind. apply returns_bind.
  eapply returns_getStream; [exact Hob|exact Hbb|]. apply returns_ret.
  apply returns_bind. apply returns_bind.
  eapply returns_modifyStream; [exact Hoa|exact Hba|].
  unfold _elementsChanged. apply returns_bind.
  eapply returns_getStream; [apply lookup_insert_eq|reflexivity|].
  cbn [set_elements _elements]. apply returns_bind.
  eapply returns_getList; [exact Hv|].
  apply returns_bind. apply returns_noneIsStream.
  { intros e He. cbn [objs].
    destruct (decide (e = a)) as [->|Hne];
      [rewrite lookup_insert_eq; by eexists|].
    rewrite lookup_insert_ne by done. by apply Hex. }
  intros f.
  eapply returns_putStream; [apply lookup_insert_eq|].
  cbn [objs lists next classOf priority locations parent].
  rewrite insert_insert_eq.
  match goal with |- returns _ _ ?hh => set (h1 := hh) end.
  set (s1 := set_cache defHash (set_isFlat f (set_isSorted false
               (mkStreamAttrs (_elements sb) (_unlinkedDuration sa)
                  (isSorted sa) (isFlat sa) (flattenedRepresentationOf sa)
                  (_cache sa))))) in *.
  set (oa1 := mkObj (classOf oa) (priority oa) (locations oa) (parent oa)
                    (Container s1)) in *.
  assert (objs h1 !! a = Some oa1) as Ha1 by apply lookup_insert_eq.
  assert (objs h1 !! x = Some ox) as Hx1
    by (unfold h1; cbn [objs]; by rewrite lookup_insert_ne).
  eapply returns_mono.
  - apply (returns_insert_unsorted fuel a x q h1 oa1 ox s1 v Ha1);
      [reflexivity|reflexivity|exact Hv| |exact Hx1|exact Hpl].
    intros e He. unfold h1. cbn [objs].
    destruct (decide (e = a)) as [->|Hne];
      [rewrite lookup_insert_eq; by eexists|].
    rewrite lookup_insert_ne by done. by apply Hex.
  - intros [] h' (_ & _ & _ & _ & (oa' & sa' & Ha' & Hba' & Hl' & _) & Hv'
                  & _ & Hsame).
    cbn [s1 set_cache set_isFlat set_isSorted _elements] in Hl', Hv'.
    assert (objs h' !! b = Some ob) as Hb'.
    { rewrite Hsame by done. unfold h1. cbn [objs].
      by rewrite lookup_insert_ne. }
    split; [|split; [|split]].
    + unfold listIdIn, streamIn. rewrite Ha'. cbn. rewrite Hba'. cbn.
      by rewrite Hl'.
    + unfold elementsIn. rewrite Ha'. cbn. rewrite Hba'. by rewrite Hl'.
    + unfold elementsIn. rewrite Hb'. cbn. by rewrite Hbb.
    + unfold streamIn. rewrite Hb'. cbn. by rewrite Hbb.
Qed.

Lemma insert_through_shared_elements_witness :
  exists h h',
    (b ← streamOfNotes [(0, 1); (1, 1)]; a ← newStream C_Stream;
     x ← newObject C_Note (Some 1) 0%Z; ret (a, b, x)) emptyHeap
    = Ok (5%nat, 1%nat, 6%nat) h /\
    insertThroughSharedElements 0 5%nat 1%nat 7 6%nat h = Ok tt h' /\
    listIdIn h' 5%nat = Some 0%nat /\
    elementsIn h' 5%nat = Some ([2%nat; 3%nat] ++ [6%nat]) /\
    elementsIn h' 1%nat = Some ([2%nat; 3%nat] ++ [6%nat]) /\
    isSortedIn h' 1%nat = Some true.
Proof.
  eexists.
  match goal with
  | |- exists h', ?P1 /\ _ => assert P1 as H1 by (vm_compute; reflexivity)
  end.
  match type of H1 with
  | _ = Ok _ ?hh =>
      assert (exists sa, streamIn hh 5%nat = Some sa) as [sa Hsa]
        by (eexists; vm_compute; reflexivity);
      assert (exists sb, streamIn hh 1%nat = Some sb /\ _elements sb = 0%nat
                         /\ isSorted sb = true)
        as (sb & Hsb & Hlb & Hsrt)
        by (eexists; split; [vm_compute; reflexivity|split; reflexivity]);
      destruct (insert_through_shared_elements 0 5 1 6 7 hh sa sb
                  [2%nat; 3%nat]
                  (mkObj C_Note 0%Z (<[None := 0]> ∅) None (Plain (Some 1))))
        as (h' & Hrun & Hid & Hea & Heb & Hb)
  end.
  - lia.
  - exact Hsa.
  - exact Hsb.
  - rewrite Hlb. vm_compute. reflexivity.
  - intros e He. apply elem_of_cons in He as [->|He];
      [|apply list_elem_of_singleton in He as ->];
      vm_compute; by eexists.
  - vm_compute. reflexivity.
  - reflexivity.
  - exists h'. split; [exact H1|]. split; [exact Hrun|].
    split; [by rewrite Hid, Hlb|]. split; [exact Hea|]. split; [exact Heb|].
    unfold isSortedIn. rewrite Hb. cbn. by rewrite Hsrt.
Defined.


(** [pop(index)] returns the element at [index] and takes it out of the
    list object; the element itself is not changed: its site for the
    container stays registered.  With [index] beyond the list it raises
    [IndexError]. *)
Theorem pop_keeps_the_site (self index : nat) (h : Heap) (s : StreamAttrs)
        (v : list nat) :
  streamIn h self = Some s ->
  lists h !! _elements s = Some v ->
  (forall e, e ∈ v -> is_Some (objs h !! e)) ->
  match v !! index with
  | None => pop self index h = Raise IndexError
  | Some x =>
      x <> self ->
      exists h',
        pop self index h = Ok x h' /\
        elementsIn h' self = Some (delete index v) /\
        objs h' !! x = objs h !! x /\
        offsetIn h' self x = offsetIn h self x /\
        isSortedIn h' self = Some false /\
        cacheIn h' self = Some defHash
  end.
Proof.
  intros Hs Hv Hex.
  apply streamIn_Some in Hs as (o & Ho & Hb).
  destruct (v !! index) as [x|] eqn:Hx.
  - intros Hne.
    cut (returns (pop self index)
           (fun r h' =>
              r = x /\
              elementsIn h' self = Some (delete index v) /\
              objs h' !! x = objs h !! x /\
              isSortedIn h' self = Some false /\
              cacheIn h' self = Some defHash) h).
    { intros (r & h' & Hrun & -> & He & Hox & Hsrt & Hc). exists h'.
      split; [exact Hrun|]. split; [exact He|]. split; [exact Hox|].
      split; [unfold offsetIn; by rewrite Hox|]. by split. }
    unfold pop, _getElements. apply returns_bind. apply returns_bind.
    eapply returns_getStream; [exact Ho|exact Hb|]. apply returns_ret.
    apply returns_bind. eapply returns_getList; [exact Hv|]. rewrite Hx.
    apply returns_bind. apply returns_putList.
    apply returns_bind. unfold _elementsChanged. apply returns_bind.
    eapply returns_getStream; [exact Ho|exact Hb|].
    apply returns_bind. eapply returns_getList; [apply lookup_insert_eq|].
    apply returns_bind. apply returns_noneIsStream.
    { intros e He. cbn [objs]. apply Hex.
      by eapply list_elem_of_delete_inv. }
    intros f. eapply returns_putStream; [exact Ho|].
    apply returns_ret. split; [reflexivity|].
    cbn [objs lists next classOf priority locations parent].
    split; [|split; [|split]].
    + unfold elementsIn. cbn [objs lists]. rewrite lookup_insert_eq. cbn.
      by rewrite lookup_insert_eq.
    + by rewrite lookup_insert_ne.
    + unfold isSortedIn, streamIn. cbn [objs]. by rewrite lookup_insert_eq.
    + unfold cacheIn, streamIn. cbn [objs]. by rewrite lookup_insert_eq.
  - unfold pop, _getElements.
    rewrite bind_assoc, (run_getStream _ _ _ _ _ Ho Hb), run_ret.
    rewrite (run_getList _ _ _ _ Hv), Hx. reflexivity.
Qed.

Lemma pop_keeps_the_site_witness :
  exists h h',
    streamOfNotes [(0, 1); (5, 1)] emptyHeap = Ok 1%nat h /\
    pop 1 1 h = Ok 3%nat h' /\
    elementsIn h' 1%nat = Some [2%nat] /\
    objs h' !! 3%nat = objs h !! 3%nat /\
    offsetIn h' 1%nat 3%nat = Some 5 /\
    isSortedIn h' 1%nat = Some false /\
    cacheIn h' 1%nat = Some defHash.
Proof.
  eexists.
  match goal with
  | |- exists h', ?P1 /\ _ => assert P1 as H1 by (vm_compute; reflexivity)
  end.
  match type of H1 with
  | _ = Ok _ ?hh =>
      assert (exists s, streamIn hh 1%nat = Some s /\ _elements s = 0%nat)
        as (s & Hs & Hl)
        by (eexists; split; [vm_compute; reflexivity|reflexivity]);
      pose proof (pop_keeps_the_site 1 1 hh s [2%nat; 3%nat] Hs) as Hpop;
      assert (offsetIn hh 1%nat 3%nat = Some 5) as Hoff
        by (vm_compute; reflexivity)
  end.
  cbn [lookup list_lookup] in Hpop.
  destruct Hpop as (h' & Hrun & He & Hox & Ho & Hsrt & Hc).
  - rewrite Hl. vm_compute. reflexivity.
  - intros e He. apply elem_of_cons in He as [->|He];
      [|apply list_elem_of_singleton in He as ->];
      vm_compute; by eexists.
  - lia.
  - exists h'. split; [exact H1|]. split; [exact Hrun|]. split; [exact He|].
    split; [exact Hox|]. split; [by rewrite Ho|]. by split.
Defined.




(** [append(x)], for an element that is not a container: with [t] the
    value [highestTime] reads, [x] is appended to the list object at the
    offset [t], the cache is emptied and the flag [isSorted] is kept as it
    was. *)
Theorem append_places_at_highestTime (fuel : nat) (h h1 : Heap) (C x : nat)
        (t : Q) (v : list nat) (ox : Obj) :
  elementsIn h C = Some v ->
  (forall e, e ∈ v -> is_Some (objs h !! e)) ->
  objs h !! x = Some ox -> hasElements ox = false ->
  _getHighestTime fuel C h = Ok t h1 ->
  exists h2,
    append fuel C [x] h = Ok tt h2 /\
    offsetIn h2 C x = Some t /\
    elementsIn h2 C = Some (v ++ [x]) /\
    isSortedIn h2 C = isSortedIn h C /\
    cacheIn h2 C = Some defHash.
Proof.
  intros Hv Hex Hx Hpl Hread.
  destruct fuel as [|fuel]; [discriminate|].
  pose proof (getHighestTime_cacheOnly _ _ _ _ _ Hread) as [Hco Hcache].
  pose proof Hv as Hv0.
  apply elementsIn_Some in Hv0 as (oC & s & HC & Hb & Hl).
  assert (streamIn h C = Some s) as Hs
    by (unfold streamIn; rewrite HC; cbn; by rewrite Hb).
  destruct (cacheOnly_streamIn _ _ _ _ Hco Hs) as (s1 & Hs1 & Hel & Hsrt1 & _).
  unfold cacheIn in Hcache. rewrite Hs1 in Hcache. injection Hcache as Hcache.
  assert (lists h1 !! _elements s1 = Some v) as Hv1
    by (destruct Hco as (-> & _); by rewrite Hel).
  apply streamIn_Some in Hs1 as (oC1 & HC1 & Hb1).
  assert (exists ox1, objs h1 !! x = Some ox1 /\ hasElements ox1 = false)
    as (ox1 & Hx1 & Hpl1).
  { destruct Hco as (_ & _ & Ho). specialize (Ho x). rewrite Hx in Ho.
    destruct (objs h1 !! x) as [ox1|]; [|contradiction].
    exists ox1. split; [reflexivity|].
    destruct Ho as (_ & _ & _ & Hsb). unfold hasElements in *.
    destruct (body ox), (body ox1); cbn in Hsb; done. }
  assert (x <> C) as HxC.
  { intros ->. rewrite HC1 in Hx1. injection Hx1 as <-.
    unfold hasElements in Hpl1. by rewrite Hb1 in Hpl1. }
  assert (isSortedIn h C = Some (isSorted s1)) as ->.
  { unfold isSortedIn, streamIn. rewrite HC. cbn. rewrite Hb. cbn.
    by rewrite Hsrt1. }
  cut (returns (append (S fuel) C [x])
         (fun _ h2 =>
            offsetIn h2 C x = Some t /\
            elementsIn h2 C = Some (v ++ [x]) /\
            isSortedIn h2 C = Some (isSorted s1) /\
            cacheIn h2 C = Some defHash) h).
  { intros ([] & h2 & Hrun & H). by exists h2. }
  unfold append. apply returns_bind.
  exists t, h1. split; [exact Hread|].
  unfold _getElements. apply returns_bind. apply returns_bind.
  eapply returns_getStream; [exact HC1|exact Hb1|]. apply returns_ret.
  apply returns_bind. cbn [foldM].
  apply returns_bind. apply returns_bind.
  eapply returns_locations_add; [exact Hx1|].
  apply returns_bind.
  eapply returns_setParent; [apply lookup_insert_eq|].
  cbn [objs lists next classOf priority locations parent body].
  rewrite insert_insert_eq.
  apply returns_bind. unfold list_append. apply returns_bind.
  eapply returns_getList; [exact Hv1|]. apply returns_putList.
  cbn [objs lists next].
  apply returns_bind. unfold durationOf, quarterLengthOf. apply returns_bind.
  eapply returns_getObj; [apply lookup_insert_eq|].
  cbn [body].
  destruct (body ox1) as [d|sx] eqn:Hbx;
    [|unfold hasElements in Hpl1; by rewrite Hbx in Hpl1].
  apply returns_ret. apply returns_ret. apply returns_ret.
  apply returns_bind.
  eapply returns_getStream;
    [cbn [objs]; rewrite lookup_insert_ne by done; exact HC1|exact Hb1|].
  apply returns_bind. unfold _elementsChanged. apply returns_bind.
  eapply returns_getStream;
    [cbn [objs]; rewrite lookup_insert_ne by done; exact HC1|exact Hb1|].
  apply returns_bind.
  eapply returns_getList; [apply lookup_insert_eq|].
  apply returns_bind. apply returns_noneIsStream.
  { intros e He. cbn [objs].
    destruct (decide (e = x)) as [->|Hne];
      [rewrite lookup_insert_eq; by eexists|].
    rewrite lookup_insert_ne by done.
    apply elem_of_app in He as [He|He].
    - eapply cacheOnly_is_Some; [exact Hco|by apply Hex].
    - apply list_elem_of_singleton in He. contradiction. }
  intros f.
  eapply returns_putStream;
    [cbn [objs]; rewrite lookup_insert_ne by done; exact HC1|].
  eapply returns_modifyStream; [apply lookup_insert_eq|reflexivity|].
  cbn [objs lists next classOf priority locations parent].
  rewrite insert_insert_eq.
  split; [|split; [|split]].
  - unfold offsetIn. cbn [objs]. rewrite lookup_insert_ne by done.
    rewrite lookup_insert_eq. cbn. apply lookup_insert_eq.
  - unfold elementsIn. cbn [objs lists]. rewrite lookup_insert_eq. cbn.
    apply lookup_insert_eq.
  - unfold isSortedIn, streamIn. cbn [objs]. by rewrite lookup_insert_eq.
  - unfold cacheIn, streamIn. cbn [objs]. by rewrite lookup_insert_eq.
Qed.

Lemma append_places_at_highestTime_witness :
  exists h h1 h2,
    (s ← streamOfNotes [(0, 4)]; x ← newObject C_Note (Some 1) 0%Z;
     ret (s, x)) emptyHeap = Ok (1%nat, 3%nat) h /\
    _getHighestTime 1 1%nat h = Ok 4 h1 /\
    append 1 1%nat [3%nat] h = Ok tt h2 /\
    offsetIn h2 1%nat 3%nat = Some 4 /\
    elementsIn h2 1%nat = Some ([2%nat] ++ [3%nat]) /\
    isSortedIn h2 1%nat = isSortedIn h 1%nat /\
    cacheIn h2 1%nat = Some defHash.
Proof.
  eexists _, _.
  match goal with
  | |- exists h2, ?P1 /\ ?P2 /\ _ => assert (P1 /\ P2) as (H1 & H2)
  end.
  { split; vm_compute; reflexivity. }
  match type of H2 with
  | _getHighestTime _ _ ?hh = Ok _ ?hh1 =>
      destruct (append_places_at_highestTime 1 hh hh1 1 3 4 [2%nat]
                  (mkObj C_Note 0%Z (<[None := 0]> ∅) None (Plain (Some 1))))
        as (h2 & Hrun & Hrest)
  end.
  - vm_compute. reflexivity.
  - intros e He. apply list_elem_of_singleton in He as ->.
    vm_compute. by eexists.
  - vm_compute. reflexivity.
  - reflexivity.
  - exact H2.
  - exists h2. split; [exact H1|]. split; [exact H2|]. split; [exact Hrun|].
    exact Hrest.
Defined.

(** * Measures and ties: properties *)

Import Bars.

(** C10: [makeMeasures] on a stream without elements returns no result.
    Whatever the meter stream and the reference stream, it raises the
    [ValueError] of [min] over the empty offset map, before any measure is
    made. *)
Theorem makeMeasures_of_empty_raises (fuel : nat) (flag : bool)
        (meterStream : option Elements) (refStream : option StreamView) :
  makeMeasures fuel (mkStreamView flag []) meterStream refStream
  = Failed ValueError.
Proof. destruct meterStream; reflexivity. Qed.

Lemma barDuration_four_four : barDuration (mkTimeSignature 4 4) = 4.
Proof. reflexivity. Qed.

Lemma getElementAtOrBefore_single (ts : Element) (x : Q) :
  0 <= x -> getElementAtOrBefore [(0, ts)] x = Some (0%nat, ts).
Proof.
  intros Hx. unfold getElementAtOrBefore. cbn.
  destruct (Qlt_bool (x - 0) 0) eqn:E1.
  { apply Qlt_bool_iff in E1. lra. }
  destruct (Qeq_bool (x - 0) 0); [reflexivity|].
  destruct (Qle_bool (x - 0) x) eqn:E3; [reflexivity|].
  apply Qle_bool_false_iff in E3. lra.
Qed.

Lemma measureStart_S (j : nat) : measureStart (S j) = measureStart j + 4.
Proof. reflexivity. Qed.

Lemma measureStart_eq (j : nat) :
  measureStart j == inject_Z (4 * Z.of_nat j).
Proof.
  induction j as [|j IH]; [reflexivity|].
  rewrite measureStart_S, IH.
  replace (4 * Z.of_nat (S j))%Z with (4 * Z.of_nat j + 4)%Z by lia.
  rewrite inject_Z_plus. reflexivity.
Qed.

Lemma fold_max_spec (l : list Q) (x : Q) :
  let mx := fold_left (fun m v => if Qlt_bool m v then v else m) l x in
  mx ∈ x :: l /\ forall y, y ∈ x :: l -> y <= mx.
Proof.
  revert x. induction l as [|v l IH]; intros x; cbn.
  - split; [by left|]. intros y Hy. apply list_elem_of_singleton in Hy.
    subst. lra.
  - destruct (Qlt_bool x v) eqn:E.
    + destruct (IH v) as [Hin Hub]. split.
      * by right.
      * intros y Hy. apply elem_of_cons in Hy as [->|Hy]; [|by apply Hub].
        apply Qlt_bool_iff in E.
        assert (v <= fold_left (fun m v0 => if Qlt_bool m v0 then v0 else m) l v)
          by (apply Hub; by left).
        lra.
    + destruct (IH x) as [Hin Hub]. split.
      * apply elem_of_cons in Hin as [Hin|Hin]; [rewrite Hin; by left|].
        right. by right.
      * intros y Hy. apply elem_of_cons in Hy as [->|Hy]; [apply Hub; by left|].
        apply elem_of_cons in Hy as [->|Hy]; [|apply Hub; by right].
        assert (Qle_bool v x = true) as E'.
        { unfold Qlt_bool in E. by destruct (Qle_bool v x). }
        apply Qle_bool_iff in E'.
        assert (x <= fold_left (fun m v0 => if Qlt_bool m v0 then v0 else m) l x)
          by (apply Hub; by left).
        lra.
Qed.

Lemma maxOf_spec (l : list Q) :
  l <> [] ->
  exists mx, maxOf l = Done mx /\ mx ∈ l /\ forall y, y ∈ l -> y <= mx.
Proof.
  destruct l as [|x l]; [done|]. intros _.
  eexists. split; [reflexivity|]. apply fold_max_spec.
Qed.

Lemma minOf_Done (l : list Q) : l <> [] -> exists mn, minOf l = Done mn.
Proof. destruct l; [done|]. intros _. by eexists. Qed.
Lemma measureStart_le (j i : nat) :
  measureStart j <= inject_Z (Z.of_nat i) <-> (4 * j <= i)%nat.
Proof.
  rewrite measureStart_eq, <- Zle_Qle. lia.
Qed.

Lemma measureStart_gt (j i : nat) :
  inject_Z (Z.of_nat i) < measureStart j + 4 <-> (i < 4 * j + 4)%nat.
Proof.
  rewrite measureStart_eq.
  assert (inject_Z (4 * Z.of_nat j) + 4 == inject_Z (4 * Z.of_nat j + 4)) as ->
    by (rewrite inject_Z_plus; reflexivity).
  rewrite <- Zlt_Qlt. lia.
Qed.

Lemma getElementsByClass_none (c : ClassName) (l : Elements)
      (g : nat -> nat) :
  Forall (fun p => isinstance (className (snd p)) c = false) l ->
  getElementsByClass c (imap (fun i p => (g i, p)) l) = [].
Proof.
  revert g. induction l as [|p l IH]; intros g Hl; [reflexivity|].
  inversion Hl as [|? ? Hp Hl']; subst. cbn. rewrite Hp.
  apply (IH (g ∘ S) Hl').
Qed.

Lemma getTimeSignature_none (n : Z) (l : Elements) :
  Forall (fun p => isinstance (className (snd p)) C_TimeSignature = false) l ->
  _getTimeSignature (mkMeasure n l) = None.
Proof.
  intros Hl. unfold _getTimeSignature, enumerate. cbn [contents].
  by rewrite (getElementsByClass_none _ _ (fun i => i) Hl).
Qed.

Section four_four.
Variables (ts clef : Element).
Hypothesis ts_class : className ts = C_TimeSignature.
Hypothesis ts_meter : payload ts = Meter (mkTimeSignature 4 4).

Lemma chunk_no_meter (l : list Element) (j : nat) (f : nat -> Element -> Q * Element) :
  (forall t e, snd (f t e) = e) ->
  Forall (fun e => isinstance (className e) C_TimeSignature = false) l ->
  Forall (fun p => isinstance (className (snd p)) C_TimeSignature = false)
         (imap f (take 4 (drop (4 * j) l))).
Proof.
  intros Hf Hl. apply Forall_forall. intros p Hp.
  apply elem_of_lookup_imap in Hp as (t & e & -> & Hte).
  rewrite Hf. rewrite Forall_forall in Hl. apply Hl.
  apply lookup_take_Some in Hte as [Hte _].
  rewrite lookup_drop in Hte. by eapply list_elem_of_lookup_2.
Qed.

Lemma getTimeSignature_barOf (l : list Element) (j : nat) :
  Forall (fun e => isinstance (className e) C_TimeSignature = false) l ->
  _getTimeSignature (snd (barOf ts clef l j))
  = match j with O => Some (0%nat, ts) | S _ => None end.
Proof.
  intros Hl. destruct j as [|j].
  - unfold _getTimeSignature, enumerate. cbn. rewrite ts_class. reflexivity.
  - apply getTimeSignature_none. cbn [app]. by apply chunk_no_meter.
Qed.

Lemma barDurationOf_ts : barDurationOf (Some ts) = Done 4.
Proof. unfold barDurationOf, meterOf. rewrite ts_meter. reflexivity. Qed.

Lemma findMeasure_barsOf (l : list Element) (K i : nat) (d : nat) :
  forall j0,
    Forall (fun e => isinstance (className e) C_TimeSignature = false) l ->
    (j0 + d = i / 4)%nat -> (i / 4 < K)%nat ->
    findMeasure (inject_Z (Z.of_nat i))
                (map (barOf ts clef l) (seq j0 (K - j0))) j0
                (match j0 with O => None | S _ => Some ts end)
    = Done (Some ((i / 4)%nat, measureStart (i / 4))).
Proof.
  pose proof (Nat.div_mod_eq i 4) as Hdm.
  pose proof (Nat.mod_upper_bound i 4 ltac:(lia)) as Hmod.
  induction d as [|d IH]; intros j0 Hl Hj HK.
  - rewrite Nat.add_0_r in Hj. subst j0.
    destruct (K - i / 4)%nat as [|r] eqn:Er; [lia|].
    cbn [seq map findMeasure]. unfold barOf at 1.
    change (_getTimeSignature ?m) with
      (_getTimeSignature (snd (barOf ts clef l (i / 4)))).
    rewrite (getTimeSignature_barOf l (i / 4) Hl).
    assert (barDurationOf (match (i / 4)%nat with
                           | O => Some ts | S _ => Some ts end) = Done 4) as Hb
      by (destruct (i / 4)%nat; apply barDurationOf_ts).
    destruct (i / 4)%nat as [|j] eqn:Ej.
    + rewrite barDurationOf_ts. cbn [mbind Try_bind].
      assert (Qle_bool (measureStart 0) (inject_Z (Z.of_nat i)) = true) as ->
        by (apply Qle_bool_iff, measureStart_le; lia).
      assert (Qlt_bool (inject_Z (Z.of_nat i)) (measureStart 0 + 4) = true) as ->
        by (apply Qlt_bool_iff, measureStart_gt; lia).
      reflexivity.
    + rewrite barDurationOf_ts. cbn [mbind Try_bind].
      assert (Qle_bool (measureStart (S j)) (inject_Z (Z.of_nat i)) = true) as ->
        by (apply Qle_bool_iff, measureStart_le; lia).
      assert (Qlt_bool (inject_Z (Z.of_nat i)) (measureStart (S j) + 4) = true)
        as -> by (apply Qlt_bool_iff, measureStart_gt; lia).
      reflexivity.
  - destruct (K - j0)%nat as [|r] eqn:Er; [lia|].
    cbn [seq map findMeasure]. unfold barOf at 1.
    change (_getTimeSignature ?m) with
      (_getTimeSignature (snd (barOf ts clef l j0))).
    rewrite (getTimeSignature_barOf l j0 Hl).
    assert (match (match j0 with O => Some (0%nat, ts) | S _ => None end) with
            | Some (_, ts0) => Some ts0
            | None => match j0 with O => None | S _ => Some ts end
            end = Some ts) as -> by (by destruct j0).
    rewrite barDurationOf_ts. cbn [mbind Try_bind].
    assert (Qlt_bool (inject_Z (Z.of_nat i)) (measureStart j0 + 4) = false) as ->.
    { destruct (Qlt_bool _ _) eqn:E; [|reflexivity].
      apply Qlt_bool_iff, measureStart_gt in E. lia. }
    rewrite andb_false_r.
    replace r with (K - S j0)%nat by lia.
    apply (IH (S j0)); [done|lia|done].
Qed.


Lemma barsOf_lookup (K : nat) (l : list Element) (j : nat) :
  barsOf ts clef K l !! j
  = if decide (j < K)%nat then Some (barOf ts clef l j) else None.
Proof.
  unfold barsOf. rewrite list_lookup_fmap.
  destruct (decide (j < K)%nat) as [H|H].
  - by rewrite lookup_seq_lt.
  - by rewrite lookup_seq_ge by lia.
Qed.

Lemma barsOf_snoc (K : nat) (l : list Element) (e : Element) :
  let i := length l in
  alter (fun p : Q * Measure =>
           (fst p,
            set_contents (insert (inject_Z (Z.of_nat i) - measureStart (i / 4))
                                 e (contents (snd p)))
                         (snd p)))
        (i / 4)%nat (barsOf ts clef K l)
  = barsOf ts clef K (l ++ [e]).
Proof.
  intros i.
  pose proof (Nat.div_mod_eq i 4) as Hdm.
  pose proof (Nat.mod_upper_bound i 4 ltac:(lia)) as Hmod.
  apply list_eq. intros j.
  destruct (decide (j = i / 4)%nat) as [->|Hne].
  - rewrite list_lookup_alter_eq, !barsOf_lookup.
    destruct (decide (i / 4 < K)%nat); [|reflexivity].
    cbn [fmap option_fmap option_map]. f_equal.
    unfold barOf. cbn [fst snd contents measureNumber set_contents].
    f_equal. f_equal. unfold insert. rewrite <- app_assoc. f_equal.
    rewrite drop_app_le by (fold i; lia).
    assert (length (drop (4 * (i / 4)) l) = (i mod 4)%nat) as Hlen
      by (rewrite length_drop; fold i; lia).
    rewrite (take_ge (drop _ l)) by lia.
    rewrite (take_ge (drop _ l ++ [e])) by (rewrite length_app, Hlen; cbn; lia).
    rewrite imap_app. f_equal. rewrite Hlen. cbn [imap].
    replace (4 * (i / 4) + (i mod 4 + 0))%nat with i by lia. reflexivity.
  - rewrite list_lookup_alter_ne by done. rewrite !barsOf_lookup.
    destruct (decide (j < K)%nat); [|reflexivity].
    f_equal. unfold barOf. f_equal. f_equal. f_equal. f_equal.
    destruct (decide (j < i / 4)%nat).
    + rewrite drop_app_le by (fold i; lia).
      rewrite take_app_le; [reflexivity|].
      rewrite length_drop. fold i. lia.
    + rewrite (drop_ge l) by (fold i; lia).
      rewrite (drop_ge (l ++ [e])); [reflexivity|].
      rewrite length_app. cbn. fold i. lia.
Qed.

Lemma populate_barsOf (K : nat) (rest : list Element) :
  forall (done : list Element) (g : nat -> Element -> Q),
    Forall (fun e => isinstance (className e) C_TimeSignature = false)
           (done ++ rest) ->
    (length done + length rest <= 4 * K)%nat ->
    populate (imap (fun t e =>
                      (inject_Z (Z.of_nat (length done + t)), g t e, e)) rest)
             (barsOf ts clef K done)
    = Done (barsOf ts clef K (done ++ rest)).
Proof.
  induction rest as [|e rest IH]; intros done g Hcl HK.
  - cbn. by rewrite app_nil_r.
  - rewrite imap_cons. cbn [populate].
    rewrite Nat.add_0_r.
    assert (length done / 4 < K)%nat as Hj.
    { cbn in HK. apply Nat.Div0.div_lt_upper_bound. lia. }
    assert (Forall (fun e => isinstance (className e) C_TimeSignature = false)
                   done) as Hdone by (by apply Forall_app in Hcl as [? _]).
    pose proof (findMeasure_barsOf done K (length done) (length done / 4) 0
                  Hdone ltac:(lia) Hj) as Hf.
    rewrite Nat.sub_0_r in Hf.
    fold (barsOf ts clef K done) in Hf. rewrite Hf.
    cbn [mbind Try_bind].
    rewrite barsOf_snoc.
    rewrite (imap_ext _ (fun t e0 =>
               (inject_Z (Z.of_nat (length (done ++ [e]) + t)),
                (g ∘ S) t e0, e0))).
    + rewrite IH.
      * by rewrite <- app_assoc.
      * by rewrite <- app_assoc.
      * rewrite length_app. cbn in *. lia.
    + intros t x _. cbn. rewrite length_app. cbn.
      replace (length done + 1 + t)%nat with (length done + S t)%nat by lia.
      reflexivity.
Qed.

Lemma measureStart_nonneg (c : nat) : 0 <= measureStart c.
Proof.
  rewrite measureStart_eq. change 0 with (inject_Z 0). rewrite <- Zle_Qle. lia.
Qed.

Lemma barOf_nil (c : nat) :
  barOf ts clef [] c
  = (measureStart c,
     mkMeasure (Z.of_nat c + 1)
               match c with O => [(0, ts); (0, clef)] | S _ => [] end).
Proof.
  unfold barOf. rewrite drop_nil, take_nil. cbn [imap]. by rewrite app_nil_r.
Qed.

Lemma measureLoop_step (fuel c : nat) (oMax : Q) (post : list (Q * Measure)) :
  measureLoop (S fuel) [(0, ts)] clef oMax post (measureStart c) (Z.of_nat c)
              (match c with O => None | S _ => Some 0%nat end)
  = if Qle_bool oMax (measureStart (S c))
    then Done (post ++ [barOf ts clef [] c])
    else measureLoop fuel [(0, ts)] clef oMax (post ++ [barOf ts clef [] c])
                     (measureStart (S c)) (Z.of_nat (S c)) (Some 0%nat).
Proof.
  rewrite barOf_nil.
  cbn [measureLoop].
  rewrite (getElementAtOrBefore_single ts _ (measureStart_nonneg c)).
  cbn [fmap option_fmap option_map fst snd].
  rewrite barDurationOf_ts.
  destruct c as [|c].
  - cbn [Z.of_nat Z.eqb].
    rewrite bool_decide_eq_false_2 by done. cbn [negb].
    unfold _setTimeSignature, _setClef, _getTimeSignature, _getClef, enumerate.
    cbn [contents set_measureNumber imap getElementsByClass List.filter
         getElementsByOffset insertAtZero mbind Try_bind set_contents insert
         app measureNumber].
    cbn [fst snd]. rewrite ts_class. cbn [isinstance ClassName_eqb List.filter].
    cbn [mbind Try_bind set_contents insertAtZero insert app contents
         measureNumber].
    change (Qeq_bool 4 0) with false. cbv iota.
    rewrite measureStart_S.
    replace (Z.of_nat 1) with (0 + 1)%Z by reflexivity.
    reflexivity.
  - rewrite bool_decide_eq_true_2 by done. cbn [negb mbind Try_bind].
    assert ((Z.of_nat (S c) =? 0)%Z = false) as -> by (apply Z.eqb_neq; lia).
    cbn [mbind Try_bind].
    change (Qeq_bool 4 0) with false. cbv iota.
    rewrite measureStart_S.
    replace (Z.of_nat (S (S c))) with (Z.of_nat (S c) + 1)%Z by lia.
    reflexivity.
Qed.

Lemma measureLoop_barsOf (oMax : Q) (N : nat) (d : nat) :
  oMax == inject_Z (Z.of_nat N) ->
  forall fuel c post,
    (d < fuel)%nat -> (4 * (c + d) < N)%nat -> (N <= 4 * (c + d) + 4)%nat ->
    measureLoop fuel [(0, ts)] clef oMax post (measureStart c) (Z.of_nat c)
                (match c with O => None | S _ => Some 0%nat end)
    = Done (post ++ map (barOf ts clef []) (seq c (S d))).
Proof.
  intros HoMax. induction d as [|d IH]; intros fuel c post Hfuel Hlo Hhi.
  - destruct fuel as [|fuel]; [lia|]. rewrite measureLoop_step.
    assert (Qle_bool oMax (measureStart (S c)) = true) as ->.
    { apply Qle_bool_iff. rewrite HoMax, measureStart_eq, <- Zle_Qle. lia. }
    reflexivity.
  - destruct fuel as [|fuel]; [lia|]. rewrite measureLoop_step.
    assert (Qle_bool oMax (measureStart (S c)) = false) as ->.
    { apply Qle_bool_false_iff. rewrite HoMax, measureStart_eq, <- Zlt_Qlt. lia. }
    rewrite (IH fuel (S c)) by lia.
    rewrite <- app_assoc. reflexivity.
Qed.

End four_four.

Lemma offsetMapOf_imap (h : nat -> Q) (l : list Element) :
  Forall (fun e => quarterLength e = Some 1) l ->
  offsetMapOf (imap (fun i e => (h i, e)) l)
  = imap (fun i e => (h i, h i + 1, e)) l.
Proof.
  revert h. induction l as [|e l IH]; intros h Hl; [reflexivity|].
  inversion Hl as [|? ? He Hl']; subst.
  unfold offsetMapOf in *. cbn [imap map fst snd]. rewrite He.
  f_equal. apply (IH (h ∘ S) Hl').
Qed.

Lemma almostEquals_eq (x y : Q) : x == y -> almostEquals x y = true.
Proof.
  intros H. unfold almostEquals. apply Qlt_bool_iff.
  apply Qabs_case; intros; lra.
Qed.

Lemma fold_updMax_spec {A} (f : A -> Q) (l : list A) (acc : option Q) :
  match fold_left (fun max x => updMax max (f x)) l acc with
  | Some mx =>
      (Some mx = acc \/ exists x, x ∈ l /\ mx = f x) /\
      (forall x, x ∈ l -> f x <= mx) /\
      (forall a, acc = Some a -> a <= mx)
  | None => l = [] /\ acc = None
  end.
Proof.
  revert acc. induction l as [|x l IH]; intros acc; cbn [fold_left].
  - destruct acc as [a|]; [|done].
    split; [by left|]. split; [intros x Hx; inversion Hx|].
    intros ? [= ->]. lra.
  - specialize (IH (updMax acc (f x))).
    destruct (fold_left _ l (updMax acc (f x))) as [mx|].
    + destruct IH as (Hin & Hub & Hacc).
      assert (f x <= mx /\ forall a, acc = Some a -> a <= mx) as [Hx Ha].
      { destruct acc as [a|]; cbn in Hacc.
        - destruct (Qlt_bool a (f x)) eqn:E.
          + specialize (Hacc _ eq_refl). apply Qlt_bool_iff in E.
            split; [done|]. intros ? [= <-]. lra.
          + specialize (Hacc _ eq_refl).
            assert (Qle_bool (f x) a = true) as E'
              by (unfold Qlt_bool in E; by destruct (Qle_bool (f x) a)).
            apply Qle_bool_iff in E'.
            split; [lra|]. by intros ? [= <-].
        - split; [by apply Hacc|]. done. }
      split; [|split; [|done]].
      * destruct Hin as [Hin|(y & Hy & ->)].
        -- destruct acc as [a|]; cbn in Hin.
           ++ destruct (Qlt_bool a (f x)); injection Hin as ->;
                [right; exists x; split; [by left|done] | by left].
           ++ injection Hin as ->. right. exists x. split; [by left|done].
        -- right. exists y. split; [by right|done].
      * intros y Hy. apply elem_of_cons in Hy as [->|Hy]; [done|by apply Hub].
    + destruct IH as [_ IH]. destruct acc as [a|]; cbn in IH; [|done].
      by destruct (Qlt_bool a (f x)).
Qed.

Section back_to_back.
Variable es : list Element.
Hypothesis es_duration : Forall (fun e => quarterLength e = Some 1) es.
Hypothesis es_nonempty : es <> [].

Lemma end_of_item (p : Q * Element) :
  p ∈ backToBack es ->
  exists i : nat, (i < length es)%nat /\
    endTime (fst p) (quarterLength (snd p)) = inject_Z (Z.of_nat i) + 1.
Proof.
  intros Hp. apply elem_of_lookup_imap in Hp as (i & e & -> & Hie).
  exists i. split; [by eapply lookup_lt_Some|].
  rewrite Forall_forall in es_duration. cbn.
  rewrite (es_duration e); [reflexivity|]. by eapply list_elem_of_lookup_2.
Qed.

Lemma last_item :
  exists e, last (backToBack es)
            = Some (inject_Z (Z.of_nat (length es - 1)), e) /\
            quarterLength e = Some 1.
Proof.
  destruct (last es) as [e|] eqn:El; [|by apply last_None in El].
  apply last_Some in El as [l ->]. exists e.
  unfold backToBack. rewrite imap_app, last_app. cbn.
  rewrite length_app. cbn.
  replace (length l + 1 - 1)%nat with (length l + 0)%nat by lia.
  split; [reflexivity|].
  rewrite Forall_forall in es_duration. apply es_duration.
  apply elem_of_app. right. by left.
Qed.

Lemma highestTime_backToBack (b : bool) :
  highestTime (mkStreamView b (backToBack es))
  == inject_Z (Z.of_nat (length es)).
Proof.
  unfold highestTime. cbn [items sorted].
  destruct (backToBack es) as [|p0 l0] eqn:Eb.
  { destruct es; [done|discriminate]. }
  rewrite <- Eb. clear Eb p0 l0.
  assert (0 < length es)%nat as Hlen by (destruct es; [done|cbn; lia]).
  destruct last_item as (e & Hlast & He).
  destruct b.
  - rewrite Hlast. cbn [fst snd]. rewrite He. cbn [endTime].
    replace (Z.of_nat (length es)) with (Z.of_nat (length es - 1) + 1)%Z by lia.
    rewrite inject_Z_plus. reflexivity.
  - pose proof (fold_updMax_spec
                  (fun p : Q * Element => endTime (fst p) (quarterLength (snd p)))
                  (backToBack es) None) as H.
    destruct (fold_left _ (backToBack es) None) as [mx|].
    + destruct H as (Hin & Hub & _).
      destruct Hin as [Hin|(p & Hp & ->)]; [discriminate|].
      apply Qle_antisym.
      * destruct (end_of_item p Hp) as (i & Hi & ->).
        replace (Z.of_nat (length es)) with (Z.of_nat (length es - 1) + 1)%Z
          by lia.
        rewrite inject_Z_plus.
        assert (inject_Z (Z.of_nat i) <= inject_Z (Z.of_nat (length es - 1)))
          by (rewrite <- Zle_Qle; lia).
        change (inject_Z 1) with 1. lra.
      * assert ((inject_Z (Z.of_nat (length es - 1)), e) ∈ backToBack es) as Hl.
        { by apply last_Some_elem_of. }
        specialize (Hub _ Hl). cbn [fst snd] in Hub. rewrite He in Hub.
        cbn [endTime] in Hub.
        replace (Z.of_nat (length es)) with (Z.of_nat (length es - 1) + 1)%Z
          by lia.
        rewrite inject_Z_plus. exact Hub.
    + destruct H as [H _]. destruct es; [done|discriminate].
Qed.

Lemma maxOf_ends :
  exists oMax,
    maxOf (map (fun x : Q * Q * Element => snd (fst x))
               (offsetMapOf (backToBack es))) = Done oMax /\
    oMax == inject_Z (Z.of_nat (length es)).
Proof.
  unfold backToBack. rewrite (offsetMapOf_imap _ _ es_duration).
  assert (0 < length es)%nat as Hlen by (destruct es; [done|cbn; lia]).
  set (ends := map _ _).
  assert (forall y, y ∈ ends <->
                    exists i : nat, (i < length es)%nat /\
                                    y = inject_Z (Z.of_nat i) + 1) as Hends.
  { intros y. unfold ends. rewrite (list_elem_of_fmap _ _ y). split.
    - intros (x & -> & Hx).
      apply elem_of_lookup_imap in Hx as (i & e & -> & Hie).
      exists i. split; [by eapply lookup_lt_Some|reflexivity].
    - intros (i & Hi & ->).
      destruct (lookup_lt_is_Some_2 es i Hi) as [e He].
      exists (inject_Z (Z.of_nat i), inject_Z (Z.of_nat i) + 1, e).
      split; [reflexivity|]. apply elem_of_lookup_imap. by exists i, e. }
  destruct (maxOf_spec ends) as (mx & Hmx & Hin & Hub).
  { intros E. assert (inject_Z (Z.of_nat 0) + 1 ∈ ends) as H0
      by (apply Hends; exists 0%nat; split; [lia|done]).
    rewrite E in H0. inversion H0. }
  exists mx. split; [exact Hmx|].
  apply Hends in Hin as (i & Hi & ->).
  apply Qle_antisym.
  - replace (Z.of_nat (length es)) with (Z.of_nat (length es - 1) + 1)%Z by lia.
    rewrite inject_Z_plus.
    assert (inject_Z (Z.of_nat i) <= inject_Z (Z.of_nat (length es - 1)))
      by (rewrite <- Zle_Qle; lia).
    change (inject_Z 1) with 1. lra.
  - assert (inject_Z (Z.of_nat (length es - 1)) + 1 <= inject_Z (Z.of_nat i) + 1)
      as H by (apply Hub, Hends; exists (length es - 1)%nat; split; [lia|done]).
    replace (Z.of_nat (length es)) with (Z.of_nat (length es - 1) + 1)%Z by lia.
    rewrite inject_Z_plus. exact H.
Qed.

End back_to_back.

Lemma makeMeasures_barsOf (fuel : nat) (b : bool) (ts clef : Element)
      (es : list Element) :
  className ts = C_TimeSignature ->
  payload ts = Meter (mkTimeSignature 4 4) ->
  es <> [] ->
  Forall (fun e => quarterLength e = Some 1) es ->
  Forall (fun e => isinstance (className e) C_TimeSignature = false) es ->
  bestClef (backToBack es) false = Done clef ->
  ((length es + 3) / 4 <= fuel)%nat ->
  makeMeasures fuel (mkStreamView b (backToBack es)) (Some [(0, ts)]) None
  = Done (barsOf ts clef ((length es + 3) / 4) es).
Proof.
  intros Hc Hm Hne Hdur Hcl Hclef Hfuel.
  set (N := length es). set (K := ((N + 3) / 4)%nat).
  assert (0 < N)%nat as HN by (destruct es; [done|cbn; lia]).
  pose proof (Nat.div_mod_eq (N + 3) 4) as Hdm.
  pose proof (Nat.mod_upper_bound (N + 3) 4 ltac:(lia)) as Hmod.
  fold K in Hdm. fold N K in Hfuel. clearbody K.
  unfold makeMeasures. cbn [items]. rewrite Hclef. cbn [mbind Try_bind].
  destruct (minOf_Done (map (fun x : Q * Q * Element => fst (fst x))
                            (offsetMapOf (backToBack es)))) as [mn ->].
  { destruct es; [done|discriminate]. }
  destruct (maxOf_ends es Hdur Hne) as (oMax & -> & HoMax).
  cbn [mbind Try_bind].
  rewrite almostEquals_eq
    by (rewrite HoMax, (highestTime_backToBack es Hdur Hne); reflexivity).
  cbn [negb].
  assert (measureLoop fuel [(0, ts)] clef oMax [] 0 0 None
          = Done (barsOf ts clef K [])) as ->.
  { replace K with (S (K - 1)) by lia.
    exact (measureLoop_barsOf ts clef Hc Hm oMax N (K - 1) HoMax fuel 0%nat []
             ltac:(lia) ltac:(lia) ltac:(lia)). }
  cbn [mbind Try_bind].
  unfold backToBack. rewrite (offsetMapOf_imap _ _ Hdur).
  exact (populate_barsOf ts clef Hc Hm K es []
           (fun t _ => inject_Z (Z.of_nat t) + 1) Hcl ltac:(cbn; lia)).
Qed.

(** C6.  A stream of N >= 1 elements of quarter length 1, back to back
    from offset 0 (none of them a time signature), with one 4/4 time
    signature at offset 0 as its meter stream: [makeMeasures] returns
    ceil(N/4) measures; the measure of index j is at offset 4j and has the
    number j + 1; the first holds the time signature and the clef, and
    the element of index i is in the measure of index i / 4, the only one
    whose span [o, o + 4) contains i, at the offset i mod 4; a measure
    holds nothing else. *)
Theorem makeMeasures_under_four_four (fuel : nat) (b : bool)
        (ts clef : Element) (es : list Element) :
  className ts = C_TimeSignature ->
  payload ts = Meter (mkTimeSignature 4 4) ->
  es <> [] ->
  Forall (fun e => quarterLength e = Some 1) es ->
  Forall (fun e => isinstance (className e) C_TimeSignature = false) es ->
  bestClef (backToBack es) false = Done clef ->
  ((length es + 3) / 4 <= fuel)%nat ->
  exists post,
    makeMeasures fuel (mkStreamView b (backToBack es)) (Some [(0, ts)]) None
    = Done post /\
    length post = ((length es + 3) / 4)%nat /\
    (forall j o m,
        post !! j = Some (o, m) ->
        o == inject_Z (4 * Z.of_nat j) /\
        measureNumber m = (Z.of_nat j + 1)%Z /\
        length (contents m)
        = (match j with O => 2 | S _ => 0 end
           + Nat.min 4 (length es - 4 * j))%nat) /\
    (forall i e,
        es !! i = Some e ->
        exists o m q,
          post !! (i / 4)%nat = Some (o, m) /\
          contents m !! (match (i / 4)%nat with O => 2 | S _ => 0 end
                         + i mod 4)%nat = Some (q, e) /\
          q == inject_Z (Z.of_nat (i mod 4)) /\
          forall j o' m',
            post !! j = Some (o', m') ->
            (o' <= inject_Z (Z.of_nat i) /\ inject_Z (Z.of_nat i) < o' + 4
             <-> j = (i / 4)%nat)).
Proof.
  intros Hc Hm Hne Hdur Hcl Hclef Hfuel.
  eexists. split; [by apply makeMeasures_barsOf|].
  set (K := ((length es + 3) / 4)%nat).
  assert (forall j o m, barsOf ts clef K es !! j = Some (o, m) ->
                        (j < K)%nat /\ (o, m) = barOf ts clef es j) as Hlook.
  { intros j o m. rewrite barsOf_lookup.
    destruct (decide (j < K)%nat); [|done]. intros [= <- <-].
    split; [done|reflexivity]. }
  split; [|split].
  - unfold barsOf. by rewrite length_map, length_seq.
  - intros j o m Hj. apply Hlook in Hj as [HjK [= -> ->]].
    split; [apply measureStart_eq|]. split; [reflexivity|].
    cbn [contents]. rewrite length_app, length_imap, length_take, length_drop.
    by destruct j.
  - intros i e Hie.
    pose proof (lookup_lt_Some _ _ _ Hie) as Hi.
    pose proof (Nat.div_mod_eq i 4) as Hdm.
    pose proof (Nat.mod_upper_bound i 4 ltac:(lia)) as Hmod.
    assert (i / 4 < K)%nat as HjK.
    { unfold K. apply Nat.Div0.div_lt_upper_bound.
      pose proof (Nat.div_mod_eq (length es + 3) 4).
      pose proof (Nat.mod_upper_bound (length es + 3) 4 ltac:(lia)). lia. }
    exists (measureStart (i / 4)), (snd (barOf ts clef es (i / 4))),
      (inject_Z (Z.of_nat i) - measureStart (i / 4)).
    split; [|split; [|split]].
    + rewrite barsOf_lookup. rewrite decide_True by done. reflexivity.
    + unfold barOf. cbn [contents snd]. unfold Elements.
      assert ((take 4 (drop (4 * (i / 4)) es)) !! (i mod 4)%nat = Some e) as Hch.
      { rewrite lookup_take_lt by lia. rewrite lookup_drop.
        by replace (4 * (i / 4) + i mod 4)%nat with i by lia. }
      assert (inject_Z (Z.of_nat (4 * (i / 4) + i mod 4)) = inject_Z (Z.of_nat i))
        as Hi4 by (f_equal; lia).
      destruct (i / 4)%nat as [|j'].
      * cbv iota.
        change (([(0, ts); (0, clef)] ++ ?l) !! (2 + ?k)%nat) with (l !! k).
        rewrite list_lookup_imap, Hch. cbn [fmap option_fmap option_map].
        by rewrite Hi4.
      * cbv iota. change ([] ++ ?l) with l.
        change (0 + i mod 4)%nat with (i mod 4)%nat.
        rewrite list_lookup_imap, Hch. cbn [fmap option_fmap option_map].
        by rewrite Hi4.
    + rewrite measureStart_eq.
      replace (Z.of_nat i)
        with (4 * Z.of_nat (i / 4) + Z.of_nat (i mod 4))%Z by lia.
      rewrite inject_Z_plus. ring.
    + intros j o' m' Hj. apply Hlook in Hj as [_ [= -> _]].
      rewrite measureStart_le, measureStart_gt. lia.
Qed.

Lemma makeMeasures_under_four_four_witness :
  let n := mkElement C_Note (Some 1) None (Pitches [35%Z]) in
  let ts := mkElement C_TimeSignature None None (Meter (mkTimeSignature 4 4)) in
  let es := [n; n; n; n; n] in
  exists post,
    makeMeasures 2 (mkStreamView true (backToBack es)) (Some [(0, ts)]) None
    = Done post /\
    length post = ((length es + 3) / 4)%nat /\
    (forall j o m,
        post !! j = Some (o, m) ->
        o == inject_Z (4 * Z.of_nat j) /\
        measureNumber m = (Z.of_nat j + 1)%Z /\
        length (contents m)
        = (match j with O => 2 | S _ => 0 end
           + Nat.min 4 (length es - 4 * j))%nat) /\
    (forall i e,
        es !! i = Some e ->
        exists o m q,
          post !! (i / 4)%nat = Some (o, m) /\
          contents m !! (match (i / 4)%nat with O => 2 | S _ => 0 end
                         + i mod 4)%nat = Some (q, e) /\
          q == inject_Z (Z.of_nat (i mod 4)) /\
          forall j o' m',
            post !! j = Some (o', m') ->
            (o' <= inject_Z (Z.of_nat i) /\ inject_Z (Z.of_nat i) < o' + 4
             <-> j = (i / 4)%nat)).
Proof.
  intros n ts es.
  apply (makeMeasures_under_four_four 2 true ts (newClef TrebleClef) es).
  - reflexivity.
  - reflexivity.
  - discriminate.
  - repeat constructor.
  - repeat constructor.
  - vm_compute. reflexivity.
  - vm_compute. lia.
Defined.

(** ** [makeTies] *)


Lemma tieElements_skip (mRef mNext : nat) (off : Q) (add : bool) (mEnd : Q)
      (sc : Score) (m : Measure) (k : nat) :
  forall fuel index,
    measures sc !! mRef = Some m ->
    (forall j p, (index <= j < index + k)%nat ->
                 contents m !! j = Some p -> within mEnd p) ->
    (index + k <= length (contents m))%nat ->
    tieElements (k + fuel) mRef mNext off add mEnd index sc
    = tieElements fuel mRef mNext off add mEnd (index + k) sc.
Proof.
  induction k as [|k IH]; intros fuel index Hm Hin Hlen.
  - by rewrite Nat.add_0_r.
  - cbn [Nat.add tieElements]. unfold getMeasure. rewrite Hm.
    cbn [mbind Try_bind].
    destruct (lookup_lt_is_Some_2 (contents m) index ltac:(lia)) as [[eo e] He].
    unfold Elements in *. rewrite He.
    pose proof (Hin index (eo, e) ltac:(lia) He) as Hw.
    unfold within in Hw. cbn [fst snd] in Hw.
    replace (index + S k)%nat with (S index + k)%nat by lia.
    destruct (quarterLength e) as [q|].
    + assert (Qlt_bool mEnd (eo + q) = false) as ->.
      { destruct (Qlt_bool mEnd (eo + q)) eqn:E; [|reflexivity].
        apply Qlt_bool_iff in E. lra. }
      apply IH; [done| |lia]. intros j p Hj. apply Hin. lia.
    + apply IH; [done| |lia]. intros j p Hj. apply Hin. lia.
Qed.

Lemma tieElements_end (mRef mNext : nat) (off : Q) (add : bool) (mEnd : Q)
      (sc : Score) (m : Measure) (fuel index : nat) :
  measures sc !! mRef = Some m ->
  (length (contents m) <= index)%nat ->
  tieElements (S fuel) mRef mNext off add mEnd index sc = Done sc.
Proof.
  intros Hm Hlen. cbn [tieElements]. unfold getMeasure. rewrite Hm.
  cbn [mbind Try_bind]. unfold Elements in *.
  by rewrite lookup_ge_None_2.
Qed.

Lemma tieElements_all_within (mRef mNext : nat) (off : Q) (add : bool)
      (mEnd : Q) (sc : Score) (m : Measure) (fuel : nat) :
  measures sc !! mRef = Some m ->
  Forall (within mEnd) (contents m) ->
  (length (contents m) < fuel)%nat ->
  tieElements fuel mRef mNext off add mEnd 0 sc = Done sc.
Proof.
  intros Hm Hw Hfuel.
  replace fuel with (length (contents m) + S (fuel - length (contents m) - 1))%nat
    by lia.
  rewrite (tieElements_skip _ _ _ _ _ _ m); [|done| |cbn; lia].
  - apply (tieElements_end _ _ _ _ _ _ m); [done|cbn; lia].
  - intros j p _ Hp. rewrite Forall_forall in Hw. apply Hw.
    by eapply list_elem_of_lookup_2.
Qed.

Lemma getTimeSignature_head (n : Z) (ts : Element) (l : Elements) :
  className ts = C_TimeSignature ->
  _getTimeSignature (mkMeasure n ((0, ts) :: l)) = Some (0%nat, ts).
Proof.
  intros Hc. unfold _getTimeSignature, enumerate. cbn. by rewrite Hc.
Qed.

Lemma tieElements_split (fuel mRef mNext : nat) (off : Q) (add : bool)
      (sc : Score) (m mN : Measure) (index : nat) (e : Element) :
  mRef <> mNext ->
  measures sc !! mRef = Some m ->
  measures sc !! mNext = Some mN ->
  contents m !! index = Some (2, e) ->
  quarterLength e = Some 6 ->
  tieElements (S fuel) mRef mNext off add 4 index sc
  = tieElements fuel mRef mNext off add 4 (S index)
      (mkScore
         (layout sc ++ (if add then [(off, ItemMeasure mNext)] else []))
         (<[mNext := set_contents ((0, remainder e) :: contents mN) mN]>
            (<[mRef := set_contents (<[index := (2, firstPart e)]> (contents m))
                                    m]>
               (measures sc)))).
Proof.
  intros Hne Hm HmN He Hq.
  cbn [tieElements]. unfold getMeasure. rewrite Hm. cbn [mbind Try_bind].
  unfold Elements in *. rewrite He, Hq.
  change (Qlt_bool 4 (2 + 6)) with true. change (Qle_bool 4 2) with false.
  cbv iota.
  unfold putMeasure. cbn [measures layout].
  rewrite list_lookup_insert_ne by done. rewrite HmN. cbn [mbind Try_bind].
  cbn [measures layout].
  assert ((if isNoteOrUnpitched (set_quarterLength (4 - 2) e)
           then set_tie TieStart (set_quarterLength (4 - 2) e)
           else set_quarterLength (4 - 2) e) = firstPart e) as ->.
  { unfold firstPart, isNoteOrUnpitched. cbn [className set_quarterLength].
    reflexivity. }
  change (set_quarterLength (6 - (4 - 2)) (set_quarterLength (4 - 2) e))
    with (remainder e).
  destruct add.
  - reflexivity.
  - rewrite app_nil_r. reflexivity.
Qed.

Lemma insert_middle {A} (l1 l2 : list A) (x y : A) :
  <[length l1 := y]> (l1 ++ x :: l2) = l1 ++ y :: l2.
Proof.
  induction l1 as [|a l1 IH]; [reflexivity|]. exact (f_equal (cons a) IH).
Qed.

Lemma tieElements_measureWith (fuel mRef mNext : nat) (off : Q) (add : bool)
      (sc : Score) (n : Z) (ts e : Element) (pre suf : Elements)
      (mN : Measure) :
  mRef <> mNext ->
  measures sc !! mRef = Some (measureWith n ts e pre suf) ->
  measures sc !! mNext = Some mN ->
  quarterLength ts = None ->
  quarterLength e = Some 6 ->
  Forall (within 4) pre -> Forall (within 4) suf ->
  (length pre + length suf + 3 <= fuel)%nat ->
  tieElements fuel mRef mNext off add 4 0 sc
  = Done (mkScore
            (layout sc ++ (if add then [(off, ItemMeasure mNext)] else []))
            (<[mNext := set_contents ((0, remainder e) :: contents mN) mN]>
               (<[mRef := measureWith n ts (firstPart e) pre suf]>
                  (measures sc)))).
Proof.
  intros Hne Hm HmN Hts He Hpre Hsuf Hfuel.
  set (m := measureWith n ts e pre suf) in *.
  assert (contents m = ((0, ts) :: pre) ++ (2, e) :: suf) as Hcont by reflexivity.
  assert (contents m !! S (length pre) = Some (2, e)) as Hidx.
  { rewrite Hcont. unfold Elements.
    change (S (length pre)) with (length ((0, ts) :: pre)).
    by rewrite list_lookup_middle. }
  replace fuel with (S (length pre) + S (length suf + S (fuel - length pre
                                                          - length suf - 3)))%nat
    by lia.
  rewrite (tieElements_skip _ _ _ _ _ _ m (S (length pre))); [|done| |].
  2:{ intros j p Hj Hp. rewrite Hcont in Hp. unfold Elements in Hp.
      rewrite lookup_app_l in Hp by (cbn; lia).
      destruct j as [|j]; cbn in Hp.
      - injection Hp as <-. unfold within. cbn. by rewrite Hts.
      - rewrite Forall_forall in Hpre. apply Hpre.
        by eapply list_elem_of_lookup_2. }
  2:{ rewrite Hcont, length_app. cbn. lia. }
  cbn [Nat.add].
  rewrite (tieElements_split _ _ _ _ _ _ m mN _ e Hne Hm HmN Hidx He).
  set (m' := set_contents (<[S (length pre) := (2, firstPart e)]> (contents m)) m).
  assert (m' = measureWith n ts (firstPart e) pre suf) as Hm'.
  { unfold m', measureWith, set_contents. cbn [measureNumber]. f_equal.
    rewrite Hcont. change (S (length pre)) with (length ((0, ts) :: pre)).
    unfold Elements. by rewrite insert_middle. }
  rewrite Hm'.
  set (sc' := mkScore _ _).
  assert (measures sc' !! mRef = Some (measureWith n ts (firstPart e) pre suf))
    as Hm2.
  { unfold sc'. cbn [measures].
    rewrite list_lookup_insert_ne by done.
    apply list_lookup_insert_eq. by eapply lookup_lt_Some. }
  rewrite (tieElements_skip _ _ _ _ _ _ _ (length suf) _ _ Hm2).
  - apply (tieElements_end _ _ _ _ _ _ _ _ _ Hm2).
    unfold measureWith. cbn [contents length]. rewrite length_app. cbn. lia.
  - intros j p Hj Hp. unfold measureWith in Hp. cbn [contents] in Hp.
    unfold Elements in Hp.
    rewrite app_comm_cons, app_assoc in Hp.
    rewrite lookup_app_r in Hp by (rewrite length_app; cbn; lia).
    rewrite Forall_forall in Hsuf. apply Hsuf.
    by eapply list_elem_of_lookup_2.
  - unfold measureWith. cbn [contents length]. rewrite length_app. cbn. lia.
Qed.

Lemma tieMeasures_unfold (fuel : nat) (meterStream : Elements) (mCount : nat)
      (lastTimeSignature : option Element) (sc : Score) :
  tieMeasures (S fuel) meterStream mCount lastTimeSignature sc
  = match getMeasures (layout sc) !! mCount with
    | None => Done sc
    | Some (moffset, mRef) =>
        m ← getMeasure sc mRef;
        let lastTimeSignature :=
          match _getTimeSignature m with
          | Some (_, ts) => Some ts
          | None => lastTimeSignature
          end in
        '(sc, mNext, mNextOffset, mNextAdd) ←
          match getMeasures (layout sc) !! S mCount with
          | Some (_, mNext) => Done (sc, mNext, 0, false)
          | None =>
              let mNext := mkMeasure 0 [] in
              bar ← barDurationOf lastTimeSignature;
              let mNextOffset := moffset + bar in
              let ts :=
                if (length meterStream =? 0)%nat then
                  Some (mkElement C_TimeSignature None None
                                  (Meter defaultMeter))
                else snd <$> getElementAtOrBefore meterStream mNextOffset in
              lastMeter ← meterOf lastTimeSignature;
              thisMeter ← meterOf ts;
              mNext ← (if negb (ratioEqual lastMeter thisMeter)
                        then _setTimeSignature ts mNext
                        else Done mNext);
              let mNext := set_measureNumber (measureNumber m + 1) mNext in
              Done (mkScore (layout sc) (measures sc ++ [mNext]),
                    length (measures sc), mNextOffset, true)
          end;
        bar ← barDurationOf lastTimeSignature;
        sc ← tieElements (S fuel) mRef mNext mNextOffset mNextAdd bar 0 sc;
        tieMeasures fuel meterStream (S mCount) lastTimeSignature sc
    end.
Proof. reflexivity. Qed.

Lemma meterOf_Some (ts : Element) (t : TimeSignature) :
  payload ts = Meter t -> meterOf (Some ts) = Done t.
Proof. intros H. unfold meterOf. by rewrite H. Qed.

Lemma within_remainder (e : Element) : within 4 (0, remainder e).
Proof. unfold within. cbn. lra. Qed.

(** C7 fails as stated: a rest of quarter length 6 at offset 2 of a
    measure of 4/4 is split into a rest of quarter length 2 and a rest of
    quarter length 4 at the start of a new measure, and the first part
    carries no tie. *)
Lemma rest_is_split_without_tie :
  let ts := mkElement C_TimeSignature None None
                      (Meter (mkTimeSignature 4 4)) in
  let rest := mkElement C_Rest (Some 6) None NoPayload in
  makeTies 3 (scoreWith 0 (measureWith 1 ts rest [] []) None)
           (Some [(0, ts)])
  = Done (mkScore
            [(0, ItemMeasure 0); (4, ItemMeasure 1)]
            [mkMeasure 1 [(0, ts);
                          (2, mkElement C_Rest (Some 2) None NoPayload)];
             mkMeasure 2 [(0, mkElement C_Rest (Some 4) None NoPayload)];
             mkMeasure 3 []]).
Proof. vm_compute. reflexivity. Qed.

(** C7, amended.  A measure of 4/4 holds an element of quarter length 6
    at offset 2, no other element of the measure, or of the measure that
    follows, goes beyond the end of its measure, and the meter stream is
    one 4/4 time signature at offset 0.  [makeTies] returns; the measure
    holds in its place the element with quarter length 2, which ends at
    the end of the measure, with the tie of type start if it is a [Note]
    or an [Unpitched] and with its tie unchanged otherwise; the measure
    that follows begins with a copy of the element with quarter length 4
    at offset 0.  If no measure follows, one is made, with the next
    number, at the offset of the measure plus 4, and becomes an element of
    the stream.  Nothing else changes (a measure made for the last
    measure stays outside the stream). *)
Theorem makeTies_splits_in_two (fuel : nat) (off : Q) (n : Z)
        (ts tsM e : Element) (pre suf : Elements)
        (following : option (Q * Measure)) :
  className ts = C_TimeSignature ->
  quarterLength ts = None ->
  payload ts = Meter (mkTimeSignature 4 4) ->
  payload tsM = Meter (mkTimeSignature 4 4) ->
  quarterLength e = Some 6 ->
  isinstance (className e) C_TimeSignature = false ->
  Forall (within 4) pre -> Forall (within 4) suf ->
  0 <= off ->
  match following with
  | Some (o1, m1) =>
      0 <= o1 /\ Forall (within 4) (contents m1) /\
      Forall (fun p => isinstance (className (snd p)) C_TimeSignature = false)
             (contents m1)
  | None => True
  end ->
  (length pre + length suf
   + match following with Some (_, m1) => length (contents m1) | None => 0 end
   + 3 <= fuel)%nat ->
  makeTies fuel (scoreWith off (measureWith n ts e pre suf) following)
           (Some [(0, tsM)])
  = Done (mkScore
            [(off, ItemMeasure 0);
             (match following with Some (o1, _) => o1 | None => off + 4 end,
              ItemMeasure 1)]
            (let next :=
               match following with
               | Some (_, m1) =>
                   mkMeasure (measureNumber m1)
                             ((0, remainder e) :: contents m1)
               | None => mkMeasure (n + 1) [(0, remainder e)]
               end in
             [measureWith n ts (firstPart e) pre suf; next;
              mkMeasure (measureNumber next + 1) []])) /\
  quarterLength (firstPart e) = Some 2 /\
  quarterLength (remainder e) = Some 4 /\
  2 + 4 == 6 /\
  tie (firstPart e) = (if isNoteOrUnpitched e then Some TieStart else tie e) /\
  tie (remainder e) = tie e.
Proof.
  intros Hc Hq Hm HmM He Hcl Hpre Hsuf Hoff Hfol Hfuel.
  split; [|split; [|split; [|split; [|split]]]];
    [|by unfold firstPart; destruct (isNoteOrUnpitched e)
     |reflexivity|reflexivity
     |by unfold firstPart; destruct (isNoteOrUnpitched e)
     |reflexivity].
  set (m0 := measureWith n ts e pre suf).
  assert (_getTimeSignature m0 = Some (0%nat, ts)) as Hts0
    by (by apply getTimeSignature_head).
  pose proof (barDurationOf_ts ts Hm) as Hbar.
  pose proof (meterOf_Some ts _ Hm) as Hmeter.
  pose proof (meterOf_Some tsM _ HmM) as HmeterM.
  assert (forall k l,
             isinstance (className e) C_TimeSignature = false ->
             Forall (fun p => isinstance (className (snd p)) C_TimeSignature
                              = false) l ->
             _getTimeSignature (mkMeasure k ((0, remainder e) :: l)) = None)
    as Hnone.
  { intros k l H1 H2. apply getTimeSignature_none. by constructor. }
  assert (3 <= fuel)%nat as Hf3 by lia.
  destruct fuel as [|f1]; [lia|]. destruct f1 as [|f2]; [lia|].
  destruct f2 as [|f3]; [lia|].
  destruct following as [[o1 m1]|].
  - destruct Hfol as (Ho1 & Hw1 & Hc1). cbn [length] in Hfuel.
    unfold makeTies, scoreWith. cbn [layout length Nat.eqb getMeasures omap
      list_omap snd fst].
    rewrite tieMeasures_unfold.
    cbn [layout getMeasures omap list_omap snd fst lookup list_lookup].
    unfold getMeasure. cbn [measures lookup list_lookup mbind Try_bind].
    fold m0. rewrite Hts0, Hbar. cbn [mbind Try_bind].
    rewrite (tieElements_measureWith _ 0 1 0 false _ n ts e pre suf m1);
      [|done|reflexivity|reflexivity|done|done|done|done|lia].
    cbn [mbind Try_bind layout measures app base.insert list_insert].
    rewrite tieMeasures_unfold.
    cbn [layout getMeasures omap list_omap snd fst lookup list_lookup].
    unfold getMeasure. cbn [measures lookup list_lookup mbind Try_bind].
    unfold set_contents. cbn [measureNumber].
    rewrite (Hnone _ _ Hcl Hc1), Hbar, Hmeter.
    cbn [mbind Try_bind length Nat.eqb].
    rewrite (getElementAtOrBefore_single tsM (o1 + 4)) by lra.
    cbn [fmap option_fmap option_map snd]. rewrite HmeterM.
    cbn [mbind Try_bind ratioEqual numerator denominator Z.eqb Pos.eqb andb negb
         measures length app set_measureNumber contents measureNumber].
    rewrite (tieElements_all_within 1 2 _ true 4 _
               (mkMeasure (measureNumber m1) ((0, remainder e) :: contents m1)));
      [|reflexivity|constructor; [apply within_remainder|done]
       |cbn [contents length]; lia].
    cbn [mbind Try_bind].
    rewrite tieMeasures_unfold.
    cbn [layout getMeasures omap list_omap snd fst lookup list_lookup].
    reflexivity.
  - cbn [length] in Hfuel.
    unfold makeTies, scoreWith. cbn [layout length Nat.eqb getMeasures omap
      list_omap snd fst].
    rewrite tieMeasures_unfold.
    cbn [layout getMeasures omap list_omap snd fst lookup list_lookup].
    unfold getMeasure. cbn [measures lookup list_lookup mbind Try_bind].
    fold m0. rewrite Hts0, Hbar, Hmeter. cbn [mbind Try_bind length Nat.eqb].
    rewrite (getElementAtOrBefore_single tsM (off + 4)) by lra.
    cbn [fmap option_fmap option_map snd]. rewrite HmeterM.
    cbn [mbind Try_bind ratioEqual numerator denominator Z.eqb Pos.eqb andb negb
         measures length app set_measureNumber contents measureNumber].
    fold m0.
    rewrite (tieElements_measureWith _ 0 1 _ true _ n ts e pre suf
               (mkMeasure (n + 1) []));
      [|done|reflexivity|reflexivity|done|done|done|done|lia].
    cbn [mbind Try_bind layout measures app base.insert list_insert contents
         set_contents measureNumber].
    rewrite tieMeasures_unfold.
    cbn [layout getMeasures omap list_omap snd fst lookup list_lookup].
    unfold getMeasure. cbn [measures lookup list_lookup mbind Try_bind].
    unfold set_contents. cbn [measureNumber].
    rewrite (Hnone (n + 1)%Z [] Hcl ltac:(constructor)), Hbar, Hmeter.
    cbn [mbind Try_bind length Nat.eqb].
    rewrite (getElementAtOrBefore_single tsM (off + 4 + 4)) by lra.
    cbn [fmap option_fmap option_map snd]. rewrite HmeterM.
    cbn [mbind Try_bind ratioEqual numerator denominator Z.eqb Pos.eqb andb negb
         measures length app set_measureNumber contents measureNumber].
    rewrite (tieElements_all_within 1 2 _ true 4 _
               (mkMeasure (n + 1) [(0, remainder e)]));
      [|reflexivity|constructor; [apply within_remainder|constructor]
       |cbn [contents length]; lia].
    cbn [mbind Try_bind].
    rewrite tieMeasures_unfold.
    cbn [layout getMeasures omap list_omap snd fst lookup list_lookup].
    reflexivity.
Qed.

Lemma makeTies_splits_in_two_witness :
  let ts := mkElement C_TimeSignature None None
                      (Meter (mkTimeSignature 4 4)) in
  let n1 := mkElement C_Note (Some 1) None (Pitches [35%Z]) in
  let e := mkElement C_Note (Some 6) None (Pitches [35%Z]) in
  let following := Some (4, mkMeasure 2 [(0, n1)]) in
  makeTies 6 (scoreWith 0 (measureWith 1 ts e [(0, n1)] [(3, n1)]) following)
           (Some [(0, ts)])
  = Done (mkScore
            [(0, ItemMeasure 0); (4, ItemMeasure 1)]
            [measureWith 1 ts (firstPart e) [(0, n1)] [(3, n1)];
             mkMeasure 2 [(0, remainder e); (0, n1)];
             mkMeasure 3 []]) /\
  quarterLength (firstPart e) = Some 2 /\
  quarterLength (remainder e) = Some 4 /\
  2 + 4 == 6 /\
  tie (firstPart e) = Some TieStart /\
  tie (remainder e) = None.
Proof.
  intros ts n1 e following.
  apply (makeTies_splits_in_two 6 0 1 ts ts e [(0, n1)] [(3, n1)] following).
  - reflexivity.
  - reflexivity.
  - reflexivity.
  - reflexivity.
  - reflexivity.
  - reflexivity.
  - repeat constructor. unfold within. cbn. lra.
  - repeat constructor. unfold within. cbn. lra.
  - lra.
  - split; [lra|]. split; repeat constructor. unfold within. cbn. lra.
  - cbn. lia.
Defined.

(** * More of the measures *)

Lemma enumerate_snd (l : Elements) (g : nat -> nat) :
  snd <$> imap (fun i p => (g i, p)) l = l.
Proof.
  revert g. induction l as [|p l IH]; intros g; [reflexivity|].
  cbn. f_equal. apply (IH (g ∘ S)).
Qed.

Lemma candidatesOf_sound (offset : Q) (l : list (nat * (Q * Element)))
      (n : Q) (c : Q * (nat * Element)) :
  c ∈ candidatesOf offset l n ->
  exists o, (fst (snd c), (o, snd (snd c))) ∈ l /\ fst c = offset - o /\
            ~ offset - o < 0.
Proof.
  revert n. induction l as [|[i [eo e]] l IH]; intros n Hc; cbn in Hc.
  { inversion Hc. }
  assert (forall n', c ∈ candidatesOf offset l n' ->
                     exists o, (fst (snd c), (o, snd (snd c)))
                                 ∈ (i, (eo, e)) :: l /\
                               fst c = offset - o /\ ~ offset - o < 0) as Hrec.
  { intros n' H. destruct (IH n' H) as (o & Ho & Hs). exists o.
    split; [by right | exact Hs]. }
  destruct (Qlt_bool (offset - eo) 0) eqn:E1; [by eapply Hrec|].
  assert (~ offset - eo < 0) as Hnn
      by (intros H; apply Qlt_bool_iff in H; congruence).
  assert (c = (offset - eo, (i, e)) ->
          exists o, (fst (snd c), (o, snd (snd c))) ∈ (i, (eo, e)) :: l /\
                    fst c = offset - o /\ ~ offset - o < 0) as Hhere.
  { intros ->. exists eo. split; [by left|]. by split. }
  destruct (Qeq_bool (offset - eo) 0).
  { apply elem_of_cons in Hc as [Hc|Hc]; [by apply Hhere | by eapply Hrec]. }
  destruct (Qle_bool (offset - eo) n); [|by eapply Hrec].
  apply elem_of_cons in Hc as [Hc|Hc]; [by apply Hhere | by eapply Hrec].
Qed.

(** The span of a candidate is not negative, and it is within the bound
    the loop holds unless it is zero. *)
Lemma candidatesOf_bound (offset : Q) (l : list (nat * (Q * Element)))
      (n : Q) (c : Q * (nat * Element)) :
  c ∈ candidatesOf offset l n -> 0 <= fst c /\ (fst c == 0 \/ fst c <= n).
Proof.
  revert n. induction l as [|[i [eo e]] l IH]; intros n Hc; cbn in Hc.
  { inversion Hc. }
  destruct (Qlt_bool (offset - eo) 0) eqn:E1; [by apply IH|].
  assert (0 <= offset - eo) as Hnn.
  { destruct (Qlt_le_dec (offset - eo) 0) as [H|H]; [|exact H].
    apply Qlt_bool_iff in H. congruence. }
  destruct (Qeq_bool (offset - eo) 0) eqn:E2.
  { apply Qeq_bool_iff in E2.
    apply elem_of_cons in Hc as [->|Hc]; [split; [exact Hnn | by left]|].
    destruct (IH (offset - eo) Hc) as [H0 [H|H]]; (split; [exact H0|]);
      [by left|]. left. lra. }
  destruct (Qle_bool (offset - eo) n) eqn:E3; [|by apply IH].
  apply Qle_bool_iff in E3.
  apply elem_of_cons in Hc as [->|Hc]; [split; [exact Hnn | by right]|].
  destruct (IH (offset - eo) Hc) as [H0 [H|H]]; (split; [exact H0|]);
    [by left|]. right. lra.
Qed.

Lemma candidatesOf_nil (offset : Q) (l : list (nat * (Q * Element))) (n : Q) :
  candidatesOf offset l n = [] <->
  Forall (fun p => offset < fst p \/
                   (~ fst p == offset /\ n < offset - fst p)) (snd <$> l).
Proof.
  induction l as [|[i [eo e]] l IH]; cbn.
  { split; [constructor | reflexivity]. }
  destruct (Qlt_bool (offset - eo) 0) eqn:E1.
  { apply Qlt_bool_iff in E1. rewrite IH. split.
    - intros H. constructor; [left; cbn; lra | exact H].
    - intros H. by inversion H. }
  assert (0 <= offset - eo) as Hnn.
  { destruct (Qlt_le_dec (offset - eo) 0) as [H|H]; [|exact H].
    apply Qlt_bool_iff in H. congruence. }
  destruct (Qeq_bool (offset - eo) 0) eqn:E2.
  { apply Qeq_bool_iff in E2. split; [discriminate|].
    intros H. inversion H as [|? ? [Hp|[Hp _]] _]; subst; cbn in Hp; lra. }
  assert (~ offset - eo == 0) as Hne
      by (intros H; apply Qeq_bool_iff in H; congruence).
  destruct (Qle_bool (offset - eo) n) eqn:E3.
  { apply Qle_bool_iff in E3. split; [discriminate|].
    intros H. inversion H as [|? ? [Hp|[_ Hp]] _]; subst; cbn in Hp; lra. }
  apply Qle_bool_false_iff in E3. rewrite IH. split.
  - intros H. constructor; [right; cbn; split; [lra | exact E3] | exact H].
  - intros H. by inversion H.
Qed.

Lemma list_sort_head {A} (cmp : A -> A -> Z) (l : list A) :
  match list_sort cmp l with
  | [] => l = []
  | c :: _ => c ∈ l
  end.
Proof.
  pose proof (list_sort_perm cmp l) as Hp.
  destruct (list_sort cmp l) as [|c s].
  - symmetry in Hp. by apply Permutation_nil_r in Hp.
  - rewrite <- Hp. by left.
Qed.

Lemma list_sort_min {B} (l : list (Q * B)) :
  match list_sort (fun x y => cmpQ (fst x) (fst y)) l with
  | [] => True
  | c :: _ => forall c', c' ∈ l -> fst c <= fst c'
  end.
Proof.
  induction l as [|x l IH]; [exact I|]. cbn [list_sort].
  pose proof (list_sort_head (fun x y : Q * B => cmpQ (fst x) (fst y)) l)
    as Hh.
  destruct (list_sort _ l) as [|y s].
  - subst l. cbn. intros c' Hc. apply list_elem_of_singleton in Hc as ->. lra.
  - cbn [sortInsert]. destruct (cmpQ (fst y) (fst x) <? 0)%Z eqn:E.
    + apply cmpQ_neg in E. intros c' Hc.
      apply elem_of_cons in Hc as [->|Hc]; [lra | by apply IH].
    + assert (~ fst y < fst x) as Hn
          by (intros H; apply cmpQ_neg in H; congruence).
      intros c' Hc. apply elem_of_cons in Hc as [->|Hc]; [lra|].
      specialize (IH c' Hc). lra.
Qed.

Lemma candidatesOf_complete (offset : Q) (l : list (nat * (Q * Element)))
      (n : Q) (j : nat) (o' : Q) (e' : Element) :
  (j, (o', e')) ∈ l -> ~ offset - o' < 0 ->
  offset - o' == 0 \/ offset - o' <= n ->
  exists c, c ∈ candidatesOf offset l n /\ fst c <= offset - o'.
Proof.
  revert n. induction l as [|[i [eo e]] l IH]; intros n Hin Hnn Hb.
  { inversion Hin. }
  cbn [candidatesOf].
  apply elem_of_cons in Hin as [[= -> -> ->]|Hin].
  - destruct (Qlt_bool (offset - eo) 0) eqn:E1;
      [apply Qlt_bool_iff in E1; contradiction|].
    destruct (Qeq_bool (offset - eo) 0) eqn:E2.
    { eexists. split; [by left|]. cbn. lra. }
    assert (~ offset - eo == 0) as Hne
        by (intros H; apply Qeq_bool_iff in H; congruence).
    destruct Hb as [Hb|Hb]; [contradiction|].
    apply Qle_bool_iff in Hb. rewrite Hb.
    eexists. split; [by left|]. cbn. lra.
  - assert (forall n', offset - o' == 0 \/ offset - o' <= n' ->
                       forall rest,
                       exists c, c ∈ rest ++ candidatesOf offset l n' /\
                                 fst c <= offset - o') as Hrec.
    { intros n' Hb' rest. destruct (IH n' Hin Hnn Hb') as (c & Hc & Hle).
      exists c. split; [apply elem_of_app; by right | exact Hle]. }
    assert (forall rest : list (Q * (nat * Element)),
               exists c, c ∈ (offset - eo, (i, e)) :: rest
                              ++ candidatesOf offset l (offset - eo) /\
                         fst c <= offset - o') as Hadd.
    { intros rest. destruct (Qlt_le_dec (offset - eo) (offset - o')) as [H|H].
      - eexists. split; [by left|]. cbn. lra.
      - destruct (Hrec (offset - eo) (or_intror H) rest) as (c & Hc & Hle).
        exists c. split; [by right | exact Hle]. }
    destruct (Qlt_bool (offset - eo) 0); [exact (Hrec n Hb [])|].
    destruct (Qeq_bool (offset - eo) 0); [exact (Hadd [])|].
    destruct (Qle_bool (offset - eo) n); [exact (Hadd []) | exact (Hrec n Hb [])].
Qed.

(** What [getElementAtOrBefore] finds is an element of the stream, at the
    position it names; its offset is not after the offset asked for, and
    it is not negative unless it is that very offset; no other such
    element of the stream is nearer. *)
Theorem getElementAtOrBefore_finds_the_nearest (l : Elements) (offset : Q)
        (i : nat) (e : Element) :
  getElementAtOrBefore l offset = Some (i, e) ->
  exists o, l !! i = Some (o, e) /\ o <= offset /\ (0 <= o \/ o == offset) /\
            forall j o' e',
              l !! j = Some (o', e') -> o' <= offset ->
              0 <= o' \/ o' == offset -> o' <= o.
Proof.
  unfold getElementAtOrBefore. intros H.
  pose proof (list_sort_head (fun x y => cmpQ (fst x) (fst y))
                (candidatesOf offset (enumerate l) offset)) as Hh.
  pose proof (list_sort_min (candidatesOf offset (enumerate l) offset))
    as Hmin.
  destruct (list_sort _ _) as [|c s]; [discriminate|].
  injection H as Hc.
  destruct (candidatesOf_sound _ _ _ _ Hh) as (o & Hin & Hspan & Hnn).
  rewrite Hc in Hin. cbn [fst snd] in Hin.
  unfold enumerate in Hin.
  apply elem_of_lookup_imap in Hin as (k & p & [= -> <-] & Hk).
  exists o. split; [exact Hk|].
  destruct (candidatesOf_bound _ _ _ _ Hh) as [H0 Hb].
  rewrite Hspan in H0, Hb.
  split; [lra|]. split; [destruct Hb as [Hb|Hb]; [right; lra | left; lra]|].
  intros j o' e' Hj Hle He.
  destruct (candidatesOf_complete offset (enumerate l) offset j o' e')
    as (c' & Hc' & Hle').
  { unfold enumerate. apply elem_of_lookup_imap. by exists j, (o', e'). }
  { lra. }
  { destruct He as [He|He]; [right; lra | left; lra]. }
  specialize (Hmin c' Hc'). rewrite Hspan in Hmin. lra.
Qed.

Lemma getElementAtOrBefore_finds_the_nearest_witness :
  exists o,
    [(20, mkElement C_Note (Some 1) None NoPayload);
     (10, mkElement C_Rest (Some 1) None NoPayload);
     (0, mkElement C_Clef None None (ClefSign BassClef))] !! 1%nat
    = Some (o, mkElement C_Rest (Some 1) None NoPayload) /\
    o <= 19 /\ (0 <= o \/ o == 19) /\
    forall j o' e',
      [(20, mkElement C_Note (Some 1) None NoPayload);
       (10, mkElement C_Rest (Some 1) None NoPayload);
       (0, mkElement C_Clef None None (ClefSign BassClef))] !! j
      = Some (o', e') -> o' <= 19 -> 0 <= o' \/ o' == 19 -> o' <= o.
Proof.
  apply (getElementAtOrBefore_finds_the_nearest _ 19 1).
  vm_compute. reflexivity.
Defined.

(** [getElementAtOrBefore] finds nothing exactly when every element is
    after the offset asked for, or at a negative offset other than it:
    the search starts from the span [offset], so that an element before
    offset 0 is never found from a later offset. *)
Theorem getElementAtOrBefore_none_iff (l : Elements) (offset : Q) :
  getElementAtOrBefore l offset = None <->
  Forall (fun p => offset < fst p \/ (fst p < 0 /\ ~ fst p == offset)) l.
Proof.
  unfold getElementAtOrBefore.
  pose proof (list_sort_head (fun x y => cmpQ (fst x) (fst y))
                (candidatesOf offset (enumerate l) offset)) as Hh.
  pose proof (candidatesOf_nil offset (enumerate l) offset) as Hnil.
  assert (snd <$> enumerate l = l) as Hsnd
      by exact (enumerate_snd l (fun i => i)).
  rewrite Hsnd in Hnil.
  assert (Forall (fun p => offset < fst p \/
                           (~ fst p == offset /\ offset < offset - fst p)) l
          <-> Forall (fun p => offset < fst p \/
                               (fst p < 0 /\ ~ fst p == offset)) l) as Hiff.
  { apply Forall_iff. intros p. split; intros [H|[H1 H2]]; try (by left);
      right; split; try done; lra. }
  rewrite <- Hiff, <- Hnil.
  destruct (list_sort _ _) as [|c s].
  - by rewrite Hh.
  - split; [discriminate|]. intros E. rewrite E in Hh. inversion Hh.
Qed.

(** A stream in which no element is a note, a rest or a chord gets the
    treble clef, or the treble clef an octave lower when that one is
    allowed: without notes the average height is taken to be 29. *)
Theorem bestClef_without_notes (l : Elements) (allowTreble8vb : bool) :
  Forall (fun p => isinstance (className (snd p)) C_GeneralNote = false) l ->
  bestClef l allowTreble8vb
  = Done (newClef (if allowTreble8vb then Treble8vbClef else TrebleClef)).
Proof.
  intros H. unfold bestClef, enumerate.
  rewrite (getElementsByClass_none _ _ (fun i => i) H).
  by destruct allowTreble8vb.
Qed.

Lemma bestClef_without_notes_witness :
  bestClef [(0, mkElement C_TimeSignature None None (Meter defaultMeter))]
           true
  = Done (newClef Treble8vbClef).
Proof.
  apply (bestClef_without_notes
           [(0, mkElement C_TimeSignature None None (Meter defaultMeter))]
           true).
  repeat constructor.
Defined.

(** [getTimeSignatures] always answers with a time signature that is at
    offset 0 or before it: one of the stream, or the default meter at
    offset 0, which is placed after the time signatures of the stream. *)
Theorem getTimeSignatures_has_meter_by_zero (l : Elements) :
  exists p, p ∈ getTimeSignatures l /\ fst p <= 0 /\
            isinstance (className (snd p)) C_TimeSignature = true.
Proof.
  unfold getTimeSignatures.
  set (ts := mkElement C_TimeSignature None None (Meter defaultMeter)).
  destruct (snd <$> getElementsByClass C_TimeSignature (enumerate l))
    as [|first post] eqn:E.
  { exists (0, ts). split; [by left|]. split; [cbn; lra | reflexivity]. }
  destruct (Qlt_bool 0 (fst first)) eqn:E0.
  { exists (0, ts). split; [|split; [cbn; lra | reflexivity]].
    apply elem_of_app. right. by left. }
  exists first. split; [by left|]. split.
  { destruct (Qlt_le_dec 0 (fst first)) as [H|H]; [|exact H].
    apply Qlt_bool_iff in H. congruence. }
  assert (first ∈ snd <$> getElementsByClass C_TimeSignature (enumerate l))
    as Hin by (rewrite E; by left).
  apply list_elem_of_fmap in Hin as ([i p] & -> & Hin).
  unfold getElementsByClass in Hin.
  apply list_elem_of_In, filter_In in Hin as [_ Hin]. exact Hin.
Qed.

Lemma getElementsByClass_app (c : ClassName)
      (l1 l2 : list (nat * (Q * Element))) :
  getElementsByClass c (l1 ++ l2)
  = getElementsByClass c l1 ++ getElementsByClass c l2.
Proof. unfold getElementsByClass. apply List.filter_app. Qed.

Lemma getElementsByOffset_app (a b : Q) (l1 l2 : list (nat * (Q * Element))) :
  getElementsByOffset a b (l1 ++ l2)
  = getElementsByOffset a b l1 ++ getElementsByOffset a b l2.
Proof. unfold getElementsByOffset. apply List.filter_app. Qed.

Lemma enumerate_snoc (l : Elements) (p : Q * Element) :
  enumerate (l ++ [p]) = enumerate l ++ [(length l, p)].
Proof.
  unfold enumerate. rewrite imap_app. cbn. by rewrite Nat.add_0_r.
Qed.

(** In a measure without a time signature at offset 0, setting the time
    signature appends it at offset 0 and keeps the rest; the getter then
    answers with it. *)
Theorem timeSignature_set_then_get (ts : Element) (m : Measure) :
  isinstance (className ts) C_TimeSignature = true ->
  _getTimeSignature m = None ->
  exists m',
    _setTimeSignature (Some ts) m = Done m' /\
    contents m' = contents m ++ [(0, ts)] /\
    measureNumber m' = measureNumber m /\
    _getTimeSignature m' = Some (length (contents m), ts).
Proof.
  intros Hts Hnone. unfold _setTimeSignature. rewrite Hnone.
  eexists. split; [reflexivity|]. split; [reflexivity|].
  split; [reflexivity|].
  unfold _getTimeSignature in *. cbn [set_contents contents].
  unfold Bars.insert.
  rewrite enumerate_snoc, getElementsByClass_app, getElementsByOffset_app.
  destruct (getElementsByOffset 0 0
              (getElementsByClass C_TimeSignature (enumerate (contents m))))
    as [|[i [o e]] rest]; [|discriminate].
  cbn [app getElementsByClass getElementsByOffset List.filter fst snd].
  rewrite Hts. reflexivity.
Qed.

Lemma timeSignature_set_then_get_witness :
  exists m',
    _setTimeSignature
      (Some (mkElement C_TimeSignature None None (Meter (mkTimeSignature 3 4))))
      (mkMeasure 1 [(0, newClef BassClef)]) = Done m' /\
    contents m'
    = contents (mkMeasure 1 [(0, newClef BassClef)])
      ++ [(0, mkElement C_TimeSignature None None
                        (Meter (mkTimeSignature 3 4)))] /\
    measureNumber m' = measureNumber (mkMeasure 1 [(0, newClef BassClef)]) /\
    _getTimeSignature m'
    = Some (length (contents (mkMeasure 1 [(0, newClef BassClef)])),
            mkElement C_TimeSignature None None (Meter (mkTimeSignature 3 4))).
Proof.
  apply (timeSignature_set_then_get
           (mkElement C_TimeSignature None None (Meter (mkTimeSignature 3 4)))
           (mkMeasure 1 [(0, newClef BassClef)])); reflexivity.
Defined.

(** [makeTies] raises [StreamException] on a stream that holds no
    measure, whatever else it holds and whatever the meter stream. *)
Theorem makeTies_without_measures_raises (fuel : nat) (sc : Score)
        (meterStream : option Elements) :
  getMeasures (layout sc) = [] ->
  makeTies fuel sc meterStream = Failed StreamException.
Proof.
  intros H. unfold makeTies. rewrite H.
  by destruct (length (layout sc) =? 0)%nat.
Qed.

Lemma makeTies_without_measures_raises_witness :
  makeTies 5 (mkScore [(0, ItemElement (mkElement C_Note (Some 1) None
                                                  (Pitches [29%Z])))] [])
           None
  = Failed StreamException.
Proof. apply makeTies_without_measures_raises. reflexivity. Defined.



